(** * needle.nn / needle.data: module composite, layer catalog, recurrent cells

    A shallow embedding of [python/needle/nn.py] and of the batching part of
    [python/needle/data.py], and the properties of the specification proved
    (or refuted) on it.  Further parts of the code follow the same lines:
    the token corpus, the column batches and the image transforms of
    [data.py], and the optimizers of [python/needle/optim.py].

    - Python objects live in a store ([heap]) indexed by object identity;
      a [Module] is an object with a class and an attribute dictionary, a
      [Parameter] is an object holding a tensor.  Attribute dictionaries,
      [dict]s, [list]s and [tuple]s are kept in insertion order.
    - Recursive walks ([_unpack_params], [_child_modules]) take a recursion
      budget, as the interpreter's call stack does; running out of it is
      [None].
    - The tensor substrate (needle.ops, needle.init, needle.autograd) is not
      part of the files under study.  Its element type and elementwise
      arithmetic are an interface ([Substrate]); nothing is assumed about
      that arithmetic, so every equation proved below holds for any rounding
      behaviour of the substrate. *)

From Stdlib Require Import ZArith QArith List Lia Lqa.
From stdpp Require Import gmap strings list fin_maps sorting.

Set Default Proof Using "Type".
Open Scope nat_scope.

(** ** Python values, objects and the store *)

Module Py.

Definition loc := positive.

(** The classes of nn.py. *)
Inductive class_name :=
| C_Module | C_Identity | C_Linear | C_Flatten | C_ReLU | C_Tanh | C_Sigmoid
| C_Sequential | C_SoftmaxLoss | C_BatchNorm1d | C_BatchNorm2d | C_LayerNorm1d
| C_Dropout | C_Residual | C_Conv | C_RNNCell | C_RNN | C_LSTMCell | C_LSTM
| C_Embedding | C_GRUCell | C_GRU.

Global Instance class_name_eq_dec : EqDecision class_name.
Proof. solve_decision. Defined.

#[warnings="-register-all"]
Inductive value (T : Type) :=     (* T: what a Tensor holds *)
| VNone
| VBool (b : bool)
| VNum (q : Q)                          (* int or float hyper-parameter *)
| VStr (s : string)
| VTensor (t : T)                       (* a Tensor that is no Parameter *)
| VRef (l : loc)                        (* a Module or a Parameter *)
| VDict (items : list (string * value T))
| VList (items : list (value T))
| VTuple (items : list (value T)).
Arguments VNone {T}.
Arguments VBool {T} b.
Arguments VNum {T} q.
Arguments VStr {T} s.
Arguments VTensor {T} t.
Arguments VRef {T} l.
Arguments VDict {T} items.
Arguments VList {T} items.
Arguments VTuple {T} items.

Abbreviation dict T := (list (string * value T)).

Inductive object (T : Type) :=
| OParameter (t : T)
| OModule (cls : class_name) (attrs : dict T)  (* type(self), self.__dict__ *)
| OOther.
Arguments OParameter {T} t.
Arguments OModule {T} cls attrs.
Arguments OOther {T}.

Abbreviation heap T := (gmap loc (object T)).

Section Values.
Context {T : Type}.
Local Abbreviation value := (value T).
Local Abbreviation dict := (dict T).
Local Abbreviation heap := (heap T).

(** [d.get(k)] and [d[k] = v] on an insertion-ordered dictionary. *)
Fixpoint dict_get (k : string) (d : dict) : option value :=
  match d with
  | [] => None
  | (k', v) :: d' => if decide (k = k') then Some v else dict_get k d'
  end.

Fixpoint dict_set (k : string) (v : value) (d : dict) : dict :=
  match d with
  | [] => [(k, v)]
  | (k', v') :: d' =>
      if decide (k = k') then (k, v) :: d' else (k', v') :: dict_set k v d'
  end.

Definition dict_values (d : dict) : list value := map snd d.

(** [acc = []; for v in vs: acc += f(v); return acc] *)
Definition for_extend {A : Type} (f : value -> option (list A))
    (vs : list value) : option (list A) :=
  foldl (fun acc v => ps ← acc; qs ← f v; Some (ps ++ qs)) (Some []) vs.

(** *** Parameter and sub-module discovery *)

Fixpoint _unpack_params (fuel : nat) (h : heap) (v : value)
    : option (list loc) :=
  match fuel with
  | O => None
  | S fuel =>
      match v with
      | VRef l =>
          match h !! l with
          | Some (OParameter _) => Some [l]
          | Some (OModule _ attrs) =>
              (* value.parameters(), that is _unpack_params(value.__dict__) *)
              _unpack_params fuel h (VDict attrs)
          | Some OOther => Some []
          | None => None
          end
      | VDict items => for_extend (_unpack_params fuel h) (dict_values items)
      | VList vs | VTuple vs => for_extend (_unpack_params fuel h) vs
      | _ => Some []
      end
  end.

Fixpoint _child_modules (fuel : nat) (h : heap) (v : value)
    : option (list loc) :=
  match fuel with
  | O => None
  | S fuel =>
      match v with
      | VRef l =>
          match h !! l with
          | Some (OModule _ attrs) =>
              ms ← _child_modules fuel h (VDict attrs); Some (l :: ms)
          | Some _ => Some []
          | None => None
          end
      | VDict items => for_extend (_child_modules fuel h) (dict_values items)
      | VList vs | VTuple vs => for_extend (_child_modules fuel h) vs
      | _ => Some []
      end
  end.

(** *** class Module *)

Definition self_dict (h : heap) (self : loc) : option dict :=
  match h !! self with
  | Some (OModule _ attrs) => Some attrs
  | _ => None
  end.

Definition parameters (fuel : nat) (h : heap) (self : loc)
    : option (list loc) :=
  attrs ← self_dict h self; _unpack_params fuel h (VDict attrs).

Definition _children (fuel : nat) (h : heap) (self : loc)
    : option (list loc) :=
  attrs ← self_dict h self; _child_modules fuel h (VDict attrs).

(** [m.training = b] *)
Definition set_training (b : bool) (h : heap) (m : loc) : option heap :=
  match h !! m with
  | Some (OModule c attrs) =>
      Some (<[m := OModule c (dict_set "training" (VBool b) attrs)]> h)
  | _ => None
  end.

(** [for m in ms: m.training = b] *)
Definition for_set_training (b : bool) (ms : list loc) (h : heap)
    : option heap :=
  foldl (fun acc m => h' ← acc; set_training b h' m) (Some h) ms.

Definition eval (fuel : nat) (h : heap) (self : loc) : option heap :=
  h1 ← set_training false h self;
  ms ← _children fuel h1 self;
  for_set_training false ms h1.

Definition train (fuel : nat) (h : heap) (self : loc) : option heap :=
  h1 ← set_training true h self;
  ms ← _children fuel h1 self;
  for_set_training true ms h1.

(** *** [Module.__call__]: attribute lookup of [forward]

    [self.forward] is looked up in the instance dictionary, then along the
    classes of [type(self)].  [Module] itself defines no [forward];
    [BatchNorm2d] overrides the one of [BatchNorm1d]; every other layer
    class defines its own. *)

Inductive exn :=
| AttributeError (cls : class_name) (attr : string)
| AssertionError.

Definition class_forward (c : class_name) : option class_name :=
  match c with
  | C_Module => None
  | c => Some c
  end.

Inductive callee :=
| InstanceAttr (v : value)         (* a [forward] stored on the instance *)
| Method (defined_in : class_name). (* the [forward] of that class *)

Definition getattr_forward (h : heap) (self : loc) : option (exn + callee) :=
  match h !! self with
  | Some (OModule c attrs) =>
      match dict_get "forward" attrs with
      | Some v => Some (inr (InstanceAttr v))
      | None =>
          match class_forward c with
          | Some c' => Some (inr (Method c'))
          | None => Some (inl (AttributeError c "forward"))
          end
      end
  | _ => None
  end.

(** [__call__(self, *args, **kwargs)]: [run] is the body of whatever
    [self.forward] resolved to; when the lookup raises, nothing is run and
    the store is the one before the call. *)
Definition __call__ {Args Res : Type}
    (run : callee -> heap -> loc -> Args -> exn + (heap * Res))
    (h : heap) (self : loc) (args : Args) : option (exn + (heap * Res)) :=
  r ← getattr_forward h self;
  match r with
  | inl e => Some (inl e)
  | inr f => Some (run f h self args)
  end.

(** *** Module trees: what the walks range over

    [acyclic h n v]: every reference met from [v] is live and the ownership
    graph below [v] has no cycle, its depth being at most [n]. *)
#[warnings="-register-all"]
Inductive acyclic (h : heap) : nat -> value -> Prop :=
| acyclic_none n : acyclic h n VNone
| acyclic_bool n b : acyclic h n (VBool b)
| acyclic_num n q : acyclic h n (VNum q)
| acyclic_str n s : acyclic h n (VStr s)
| acyclic_tensor n t : acyclic h n (VTensor t)
| acyclic_parameter n l t :
    h !! l = Some (OParameter t) -> acyclic h n (VRef l)
| acyclic_other n l :
    h !! l = Some OOther -> acyclic h n (VRef l)
| acyclic_module n l c attrs :
    h !! l = Some (OModule c attrs) ->
    acyclic h n (VDict attrs) -> acyclic h (S n) (VRef l)
| acyclic_dict n items :
    Forall (acyclic h n) (dict_values items) -> acyclic h (S n) (VDict items)
| acyclic_list n vs :
    Forall (acyclic h n) vs -> acyclic h (S n) (VList vs)
| acyclic_tuple n vs :
    Forall (acyclic h n) vs -> acyclic h (S n) (VTuple vs).

(** A position below a value: the index taken in each container on the way
    (a Module is entered through its attribute dictionary). *)
Definition path := list nat.

(** [param_at h v p l]: the Parameter [l] is the leaf at position [p]
    below [v]. *)
Inductive param_at (h : heap) : value -> path -> loc -> Prop :=
| at_parameter l t :
    h !! l = Some (OParameter t) -> param_at h (VRef l) [] l
| at_module l c attrs p x :
    h !! l = Some (OModule c attrs) ->
    param_at h (VDict attrs) p x -> param_at h (VRef l) p x
| at_dict items i k v p x :
    items !! i = Some (k, v) ->
    param_at h v p x -> param_at h (VDict items) (i :: p) x
| at_list vs i v p x :
    vs !! i = Some v -> param_at h v p x -> param_at h (VList vs) (i :: p) x
| at_tuple vs i v p x :
    vs !! i = Some v -> param_at h v p x -> param_at h (VTuple vs) (i :: p) x.

(** [module_in h v m]: the Module [m] is [v] or is owned, at any depth and
    through any dict, list or tuple, by [v]. *)
Inductive module_in (h : heap) : value -> loc -> Prop :=
| in_self l c attrs :
    h !! l = Some (OModule c attrs) -> module_in h (VRef l) l
| in_attrs l c attrs m :
    h !! l = Some (OModule c attrs) ->
    module_in h (VDict attrs) m -> module_in h (VRef l) m
| in_dict items v m :
    v ∈ dict_values items -> module_in h v m -> module_in h (VDict items) m
| in_list vs v m :
    v ∈ vs -> module_in h v m -> module_in h (VList vs) m
| in_tuple vs v m :
    v ∈ vs -> module_in h v m -> module_in h (VTuple vs) m.

(** Depth-first order on positions: the lexicographic order. *)
Inductive dfs_before : path -> path -> Prop :=
| dfs_prefix i q : dfs_before [] (i :: q)
| dfs_sibling i j p q : i < j -> dfs_before (i :: p) (j :: q)
| dfs_below i p q : dfs_before p q -> dfs_before (i :: p) (i :: q).

(** The walk of [_unpack_params], recording the position of each leaf it
    returns. *)
Fixpoint for_positions {A : Type} (f : value -> option (list (path * A)))
    (i : nat) (vs : list value) : option (list (path * A)) :=
  match vs with
  | [] => Some []
  | v :: vs' =>
      ps ← f v; qs ← for_positions f (S i) vs';
      Some (map (fun pa => (i :: pa.1, pa.2)) ps ++ qs)
  end.

Fixpoint param_positions (fuel : nat) (h : heap) (v : value)
    : option (list (path * loc)) :=
  match fuel with
  | O => None
  | S fuel =>
      match v with
      | VRef l =>
          match h !! l with
          | Some (OParameter _) => Some [([], l)]
          | Some (OModule _ attrs) => param_positions fuel h (VDict attrs)
          | Some OOther => Some []
          | None => None
          end
      | VDict items =>
          for_positions (param_positions fuel h) 0 (dict_values items)
      | VList vs | VTuple vs => for_positions (param_positions fuel h) 0 vs
      | _ => Some []
      end
  end.

(** What [m.training = b] does to the object [m]. *)
Definition with_training (b : bool) (o : object T) : object T :=
  match o with
  | OModule c attrs => OModule c (dict_set "training" (VBool b) attrs)
  | o => o
  end.

End Values.
Arguments callee : clear implicits.

End Py.

(** ** The tensor substrate *)

Module Tensor.

(** Modelled from the spec: the element arithmetic of the tensor substrate
    (needle.ops and the array backend are not among the files under study;
    the spec lists: elementwise arithmetic, elementwise power, elementwise
    relu/tanh/sigmoid/exp).  Only the operations are named; no law is
    assumed of them.  Python numbers (hyper-parameters, literals, extents)
    are exact rationals, [of_Q] casts one to the element type. *)
Class Substrate (F : Type) := {
  of_Q : Q -> F;
  fadd : F -> F -> F;
  fsub : F -> F -> F;
  fmul : F -> F -> F;
  fdiv : F -> F -> F;
  fneg : F -> F;
  fpow : F -> Q -> F;
  fexp : F -> F;
  ftanh : F -> F;
  frelu : F -> F
}.

(** Tensors of rank 1, 2 and 3 as nested rows.  A rank-3 tensor is the list
    of its slices along axis 0, which is also what [ops.split(_, axis=0)]
    returns and what [ops.stack(_, axis=0)] takes.  A tensor with no row
    does not record its other extents, so the shape read off an input is
    the input's only when its leading extent is positive; the theorems say
    so where they depend on it.  Operands of mismatched shapes, on which the
    substrate raises, are cut to the shorter one here; the theorems are
    stated for the shapes the code documents. *)
Abbreviation vec F := (list F).
Abbreviation mat F := (list (list F)).
Abbreviation cube F := (list (list (list F))).

Section Arrays.
Context {F : Type} `{Substrate F}.
Local Abbreviation vec := (vec F).
Local Abbreviation mat := (mat F).
Local Abbreviation cube := (cube F).

Inductive tensor :=
| Vec (v : vec)
| Mat (m : mat)
| Cube (c : cube).

Definition nrows (A : mat) : nat := length A.
Definition ncols (A : mat) : nat :=
  match A with [] => 0 | r :: _ => length r end.
(** [A] has shape [(m, n)]. *)
Definition has_shape (m n : nat) (A : mat) : Prop :=
  length A = m /\ Forall (fun r => length r = n) A.

(** The entry of [A] in row [b], column [j]. *)
Definition entry (A : mat) (b j : nat) : option F := r ← A !! b; r !! j.

(** Modelled from the spec: elementwise operations of the substrate
    (tensor with tensor, tensor with Python number). *)
Definition vmap (f : F -> F) (v : vec) : vec := map f v.
Definition vzip (f : F -> F -> F) (u v : vec) : vec := zip_with f u v.
Definition mmap (f : F -> F) (A : mat) : mat := map (vmap f) A.
Definition mzip (f : F -> F -> F) (A B : mat) : mat := zip_with (vzip f) A B.

Definition tmap (f : F -> F) (t : tensor) : tensor :=
  match t with
  | Vec v => Vec (vmap f v)
  | Mat A => Mat (mmap f A)
  | Cube C => Cube (map (mmap f) C)
  end.
Definition tzip (f : F -> F -> F) (s t : tensor) : tensor :=
  match s, t with
  | Vec u, Vec v => Vec (vzip f u v)
  | Mat A, Mat B => Mat (mzip f A B)
  | Cube C, Cube D => Cube (zip_with (mzip f) C D)
  | _, _ => s
  end.
Definition tshape (t : tensor) : list nat :=
  match t with
  | Vec v => [length v]
  | Mat A => [nrows A; ncols A]
  | Cube C => [length C; nrows (hd [] C); ncols (hd [] C)]
  end.

(** Modelled from the spec: [init.zeros], [init.ones]. *)
Definition ones1 (n : nat) : vec := replicate n (of_Q 1).
Definition zeros1 (n : nat) : vec := replicate n (of_Q 0).
Definition zeros (m n : nat) : mat := replicate m (zeros1 n).
Definition zeros3 (l m n : nat) : cube := replicate l (zeros m n).

(** Modelled from the spec: matrix multiply. *)
Definition dot (u v : vec) : F :=
  foldl fadd (of_Q 0) (zip_with fmul u v).
Definition column (j : nat) (B : mat) : vec :=
  map (fun r => nth j r (of_Q 0)) B.
Definition matmul (A B : mat) : mat :=
  map (fun r => map (fun j => dot r (column j B)) (seq 0 (ncols B))) A.

(** Modelled from the spec: [v.reshape((1, n)).broadcast_to((m, n))]. *)
Definition broadcast_rows (m : nat) (v : vec) : mat := replicate m v.

(** Modelled from the spec: reduction-sum along axis 0 of a matrix with [n]
    columns. *)
Definition sum_axis0 (n : nat) (A : mat) : vec :=
  foldl (vzip fadd) (zeros1 n) A.

(** Modelled from the spec: [ops.split(A.reshape((bs, k, hs)), axis=1)]:
    the [k] tensors of shape [(bs, hs)], the [c]-th holding of every row
    the entries [c*hs .. (c+1)*hs - 1]. *)
Definition chunk (hs c : nat) (r : vec) : vec := take hs (drop (c * hs) r).
Definition split_chunks (k hs : nat) (A : mat) : list mat :=
  map (fun c => map (chunk hs c) A) (seq 0 k).

(** Truthiness of a Tensor, as [x or default] consults it.  Class Tensor
    is not among the files under study, so this is a parameter. *)
Class Truth := { Tensor_bool : tensor -> bool }.

(** [x or default] for an optional tensor argument. *)
Definition tensor_or `{Truth} {A : Type} (inj : A -> tensor)
    (x : option A) (default : A) : A :=
  match x with
  | None => default
  | Some t => if Tensor_bool (inj t) then t else default
  end.

(** A tensor all of whose entries are the zero the initialiser writes. *)
Definition zero_tensor (t : tensor) : Prop :=
  match t with
  | Vec v => Forall (eq (of_Q 0)) v
  | Mat A => Forall (Forall (eq (of_Q 0))) A
  | Cube C => Forall (Forall (Forall (eq (of_Q 0)))) C
  end.

(** The truthiness under which only an all-zero tensor can be false.  It
    covers both readings at hand: a class with neither [__bool__] nor
    [__len__] (every instance true), and the reading of the spec's design
    note, under which an all-zero state is taken for a missing one. *)
Definition falsy_only_zero `{Truth} : Prop :=
  forall t, Tensor_bool t = false -> zero_tensor t.

Definition all_zero (is_zero : F -> bool) (t : tensor) : bool :=
  match t with
  | Vec v => forallb is_zero v
  | Mat A => forallb (forallb is_zero) A
  | Cube C => forallb (forallb (forallb is_zero)) C
  end.

(** Modelled from the spec: the truthiness of the design note ("conflates
    no state supplied with state is an all-zero tensor"). *)
Definition zero_is_false (is_zero : F -> bool) : Truth :=
  {| Tensor_bool t := negb (all_zero is_zero t) |}.

(** A class that defines neither [__bool__] nor [__len__]. *)
Definition always_true : Truth := {| Tensor_bool _ := true |}.

End Arrays.
Arguments tensor : clear implicits.
Arguments Truth F : clear implicits.

End Tensor.

(** ** The layer catalog *)

Module Activation.
Import Tensor.
Section Activation.
Context {F : Type} `{Substrate F}.

(** [Sigmoid.forward]: [(1 + ops.exp(-x))**-1], entry by entry *)
Definition sigmoid (a : F) : F := fpow (fadd (of_Q 1) (fexp (fneg a))) (-1).
Definition Sigmoid (x : mat F) : mat F := mmap sigmoid x.
(** [Tanh.forward], [ReLU.forward] *)
Definition Tanh (x : mat F) : mat F := mmap ftanh x.
Definition ReLU (x : mat F) : mat F := mmap frelu x.

End Activation.
End Activation.

Module Dropout.
Import Py Tensor.
Section Dropout.
Context {F : Type} `{Substrate F}.

Record t := mk { training : bool; p : Q }.

(** [Dropout(p)]; no check is made on [p]. *)
Definition __init__ (p : Q) : t := {| training := true; p := p |}.

(** [forward]; [randb shape q] is the draw of [init.randb] for that shape
    and keep-probability [q]. *)
Definition forward (randb : list nat -> Q -> tensor F) (self : t)
    (x : tensor F) : tensor F :=
  if training self then
    let mask := randb (tshape x) (1 - p self)%Q in
    tmap (fun a => fdiv a (of_Q (1 - p self)%Q)) (tzip fmul mask x)
  else x.

(** The attributes of a Dropout object, and [forward] called on it. *)
Definition load (h : heap (tensor F)) (self : loc) : option t :=
  match h !! self with
  | Some (OModule C_Dropout attrs) =>
      match dict_get "training" attrs, dict_get "p" attrs with
      | Some (VBool b), Some (VNum q) => Some {| training := b; p := q |}
      | _, _ => None
      end
  | _ => None
  end.

Definition call (randb : list nat -> Q -> tensor F)
    (h : heap (tensor F)) (self : loc) (x : tensor F) : option (tensor F) :=
  d ← load h self; Some (forward randb d x).

End Dropout.
Arguments t : clear implicits.
End Dropout.

Module BatchNorm1d.
Import Py Tensor.
Section BatchNorm1d.
Context {F : Type} `{Substrate F}.

Record t := mk {
  training : bool;
  dim : nat;
  eps : Q;
  momentum : Q;
  weight : vec F;          (* Parameter *)
  bias : vec F;            (* Parameter *)
  running_mean : vec F;
  running_var : vec F
}.

Definition __init__ (dim : nat) (eps momentum : Q) : t :=
  {| training := true; dim := dim; eps := eps; momentum := momentum;
     weight := ones1 dim; bias := zeros1 dim;
     running_mean := zeros1 dim; running_var := ones1 dim |}.

(** [q * v] and [v / q] for a Python number [q]. *)
Definition scale (q : Q) (v : vec F) : vec F :=
  vmap (fun a => fmul a (of_Q q)) v.
Definition over (q : Q) (v : vec F) : vec F :=
  vmap (fun a => fdiv a (of_Q q)) v.

(** [x.sum(axes=0) / M] *)
Definition batch_mean (x : mat F) : vec F :=
  over (inject_Z (Z.of_nat (nrows x))) (sum_axis0 (ncols x) x).
(** [((x - mean)**2).sum(axes=0) / M], [mean] broadcast to the shape of [x] *)
Definition batch_var (x : mat F) : vec F :=
  let mean := broadcast_rows (nrows x) (batch_mean x) in
  over (inject_Z (Z.of_nat (nrows x)))
    (sum_axis0 (ncols x) (mmap (fun a => fpow a 2) (mzip fsub x mean))).

(** [(x - mean) / (var + eps)**0.5], scaled by [weight] and shifted by
    [bias], the four vectors broadcast over the batch. *)
Definition normalize (self : t) (x : mat F) (mean var : vec F) : mat F :=
  let M := nrows x in
  let mean := broadcast_rows M mean in
  let var := broadcast_rows M var in
  let x' :=
    mzip fdiv (mzip fsub x mean)
      (mmap (fun a => fpow (fadd a (of_Q (eps self))) (1 # 2)) var) in
  mzip fadd (mzip fmul (broadcast_rows M (weight self)) x')
    (broadcast_rows M (bias self)).

(** [(1 - m) * running + m * batch] *)
Definition moving_average (m : Q) (running batch : vec F) : vec F :=
  vzip fadd (scale (1 - m)%Q running) (scale m batch).

Definition forward (self : t) (x : mat F) : exn + (t * mat F) :=
  let N := ncols x in
  if decide (dim self = N) then
    let m := momentum self in
    if training self then
      let mean := batch_mean x in
      let running_mean' := moving_average m (running_mean self) mean in
      let var := batch_var x in
      let running_var' := moving_average m (running_var self) var in
      let self' :=
        {| training := training self; dim := dim self; eps := eps self;
           momentum := momentum self; weight := weight self;
           bias := bias self;
           running_mean := running_mean'; running_var := running_var' |} in
      inr (self', normalize self x mean var)
    else
      inr (self, normalize self x (running_mean self) (running_var self))
  else inl AssertionError.

(** The module after a training-mode [forward] on [x]: the two running
    statistics are reassigned, in training mode. *)
Definition after_training (self : t) (x : mat F) : t :=
  {| training := true; dim := dim self; eps := eps self;
     momentum := momentum self; weight := weight self; bias := bias self;
     running_mean :=
       moving_average (momentum self) (running_mean self) (batch_mean x);
     running_var :=
       moving_average (momentum self) (running_var self) (batch_var x) |}.

(** The attributes of a BatchNorm1d object, [forward] called on it, and the
    two assignments to [self.running_mean] and [self.running_var]. *)
Definition load_vec (h : heap (tensor F)) (v : option (value (tensor F)))
    : option (vec F) :=
  match v with
  | Some (VTensor (Vec u)) => Some u
  | Some (VRef l) =>
      match h !! l with Some (OParameter (Vec u)) => Some u | _ => None end
  | _ => None
  end.

(** [isinstance(self, BatchNorm1d)]: the class and its subclass. *)
Definition is_instance (c : class_name) : bool :=
  match c with
  | C_BatchNorm1d | C_BatchNorm2d => true
  | _ => false
  end.

Definition load (h : heap (tensor F)) (self : loc) : option t :=
  match h !! self with
  | Some (OModule c attrs) =>
      if is_instance c then
        match dict_get "training" attrs, dict_get "dim" attrs,
              dict_get "eps" attrs, dict_get "momentum" attrs with
        | Some (VBool b), Some (VNum d), Some (VNum e), Some (VNum mo) =>
            w ← load_vec h (dict_get "weight" attrs);
            bi ← load_vec h (dict_get "bias" attrs);
            rm ← load_vec h (dict_get "running_mean" attrs);
            rv ← load_vec h (dict_get "running_var" attrs);
            Some {| training := b; dim := Z.to_nat (Qnum d); eps := e;
                    momentum := mo; weight := w; bias := bi;
                    running_mean := rm; running_var := rv |}
        | _, _, _, _ => None
        end
      else None
  | _ => None
  end.

Definition store (h : heap (tensor F)) (self : loc) (s : t)
    : heap (tensor F) :=
  match h !! self with
  | Some (OModule c attrs) =>
      <[self := OModule c
          (dict_set "running_var" (VTensor (Vec (running_var s)))
             (dict_set "running_mean" (VTensor (Vec (running_mean s)))
                attrs))]> h
  | _ => h
  end.

Definition call (h : heap (tensor F)) (self : loc) (x : mat F)
    : option (exn + (heap (tensor F) * mat F)) :=
  s ← load h self;
  match forward s x with
  | inl e => Some (inl e)
  | inr (s', y) =>
      Some (inr ((if training s then store h self s' else h), y))
  end.

End BatchNorm1d.
Arguments t : clear implicits.
End BatchNorm1d.

Module BatchNorm2d.
Import Py Tensor.
Section BatchNorm2d.
Context {F : Type} `{Substrate F}.

(** A channel-first rank-4 tensor, and the two layout changes of [forward]:
    [rows_of x] is [x] taken to channel-last and flattened to
    [(N*H*W, C)]; [nchw_of x y] is [y] reshaped to [(N, H, W, C)], the
    extents read off [x], and taken back to channel-first.  The transposes
    and reshapes are the substrate's, and are parameters here. *)
Context {T4 : Type} (rows_of : T4 -> mat F) (nchw_of : T4 -> mat F -> T4).

(** [forward]: [super().forward] on the flattened view. *)
Definition forward (self : BatchNorm1d.t F) (x : T4)
    : exn + (BatchNorm1d.t F * T4) :=
  match BatchNorm1d.forward self (rows_of x) with
  | inl e => inl e
  | inr (self', y) => inr (self', nchw_of x y)
  end.

Definition call (h : heap (tensor F)) (self : loc) (x : T4)
    : option (exn + (heap (tensor F) * T4)) :=
  s ← BatchNorm1d.load h self;
  match forward s x with
  | inl e => Some (inl e)
  | inr (s', y) =>
      Some (inr ((if BatchNorm1d.training s
                  then BatchNorm1d.store h self s' else h), y))
  end.

End BatchNorm2d.
End BatchNorm2d.

(** ** The recurrent cell family *)

Module RNNCell.
Import Tensor Activation.
Section RNNCell.
Context {F : Type} `{Substrate F} `{Truth F}.

Inductive nonlinearity := tanh | relu.

Record t := mk {
  input_size : nat;
  hidden_size : nat;
  bias : bool;
  nonlin : nonlinearity;
  W_ih : mat F;
  W_hh : mat F;
  bias_ih : vec F;
  bias_hh : vec F
}.

(** [getattr(ops, self.nonlinearity)] *)
Definition activation (n : nonlinearity) : mat F -> mat F :=
  match n with tanh => Tanh | relu => ReLU end.

(** The body of [forward] below the defaulting of [h]. *)
Definition forward_from (self : t) (X h : mat F) : mat F :=
  let bs := nrows X in
  let X_new := mzip fadd (matmul X (W_ih self)) (matmul h (W_hh self)) in
  let X_new :=
    if bias self then
      let bias_ih := broadcast_rows bs (bias_ih self) in
      let bias_hh := broadcast_rows bs (bias_hh self) in
      mzip fadd X_new (mzip fadd bias_ih bias_hh)
    else X_new in
  activation (nonlin self) X_new.

Definition forward (self : t) (X : mat F) (h : option (mat F)) : mat F :=
  let bs := nrows X in
  let h := tensor_or Mat h (zeros bs (hidden_size self)) in
  forward_from self X h.

End RNNCell.
Arguments t : clear implicits.
End RNNCell.

Module RNN.
Import Tensor.
Section RNN.
Context {F : Type} `{Substrate F} `{Truth F}.

Record t := mk {
  input_size : nat;
  hidden_size : nat;
  num_layers : nat;
  rnn_cells : list (RNNCell.t F)
}.

(** [RNN(input_size, hidden_size, num_layers, ...)]; [rnn_cell k n] is the
    [k]-th cell built, for inputs of width [n] (its weights are drawn by the
    initialiser). *)
Definition __init__ (rnn_cell : nat -> nat -> RNNCell.t F)
    (input_size hidden_size num_layers : nat) : t :=
  {| input_size := input_size; hidden_size := hidden_size;
     num_layers := num_layers;
     rnn_cells :=
       [rnn_cell 0 input_size]
       ++ map (fun k => rnn_cell (S k) hidden_size) (seq 0 (num_layers - 1)) |}.

(** [[(h := rnn_cell(X_t, h)) for X_t in X_new]], with the last [h] *)
Definition over_time (rnn_cell : RNNCell.t F) (X_new : list (mat F))
    (h : mat F) : list (mat F) * mat F :=
  foldl (fun '(out, h) X_t =>
           let h := RNNCell.forward rnn_cell X_t (Some h) in
           (out ++ [h], h))
        ([], h) X_new.

Definition forward (self : t) (X : cube F) (h0 : option (cube F))
    : cube F * cube F :=
  let bs := nrows (hd [] X) in
  let h0 :=
    tensor_or Cube h0 (zeros3 (num_layers self) bs (hidden_size self)) in
  let '(X_new, h_n) :=
    foldl (fun '(X_new, h_n) '(rnn_cell, h) =>
             let '(X_new, h) := over_time rnn_cell X_new h in
             (X_new, h_n ++ [h]))
          (X, []) (zip (rnn_cells self) h0) in
  (X_new, h_n).

End RNN.
Arguments t : clear implicits.
End RNN.

Module LSTMCell.
Import Tensor Activation.
Section LSTMCell.
Context {F : Type} `{Substrate F}.

Record t := mk {
  input_size : nat;
  hidden_size : nat;
  bias : bool;
  W_ih : mat F;
  W_hh : mat F;
  bias_ih : vec F;
  bias_hh : vec F
}.

(** The shapes the constructor gives the weights. *)
Definition well_shaped (self : t) : Prop :=
  0 < input_size self /\
  has_shape (input_size self) (4 * hidden_size self) (W_ih self) /\
  has_shape (hidden_size self) (4 * hidden_size self) (W_hh self) /\
  length (bias_ih self) = 4 * hidden_size self /\
  length (bias_hh self) = 4 * hidden_size self.

(** [X @ W_ih + h0 @ W_hh], plus both biases when enabled: shape
    [(bs, 4*hidden_size)]. *)
Definition affine (self : t) (X h0 : mat F) : mat F :=
  let bs := nrows X in
  let X_new := mzip fadd (matmul X (W_ih self)) (matmul h0 (W_hh self)) in
  if bias self then
    let bias_ih := broadcast_rows bs (bias_ih self) in
    let bias_hh := broadcast_rows bs (bias_hh self) in
    mzip fadd X_new (mzip fadd bias_ih bias_hh)
  else X_new.

(** The body of [forward] below [h0, c0 = h]. *)
Definition forward_from (self : t) (X h0 c0 : mat F) : mat F * mat F :=
  let X_new := affine self X h0 in
  let parts := split_chunks 4 (hidden_size self) X_new in
  let i := nth 0 parts [] in
  let f := nth 1 parts [] in
  let g := nth 2 parts [] in
  let o := nth 3 parts [] in
  let i := Sigmoid i in
  let f := Sigmoid f in
  let g := Tanh g in
  let o := Sigmoid o in
  let c_out := mzip fadd (mzip fmul f c0) (mzip fmul i g) in
  let h_out := mzip fmul o (Tanh c_out) in
  (h_out, c_out).

(** [h] is a pair when given; a pair is true, so [h or ...] keeps it. *)
Definition forward (self : t) (X : mat F) (h : option (mat F * mat F))
    : mat F * mat F :=
  let bs := nrows X in
  let h :=
    match h with
    | Some hc => hc
    | None =>
        let z := zeros3 2 bs (hidden_size self) in (nth 0 z [], nth 1 z [])
    end in
  let '(h0, c0) := h in
  forward_from self X h0 c0.

End LSTMCell.
Arguments t : clear implicits.
End LSTMCell.

Module LSTM.
Import Tensor.
Section LSTM.
Context {F : Type} `{Substrate F}.

Record t := mk {
  input_size : nat;
  hidden_size : nat;
  num_layers : nat;
  lstm_cells : list (LSTMCell.t F)
}.

Definition __init__ (lstm_cell : nat -> nat -> LSTMCell.t F)
    (input_size hidden_size num_layers : nat) : t :=
  {| input_size := input_size; hidden_size := hidden_size;
     num_layers := num_layers;
     lstm_cells :=
       [lstm_cell 0 input_size]
       ++ map (fun k => lstm_cell (S k) hidden_size) (seq 0 (num_layers - 1)) |}.

(** The inner loop: [for X_t in X: h, c = lstm_cell(X_t, (h, c));
    X_next.append(h)] *)
Definition over_time (lstm_cell : LSTMCell.t F) (X : list (mat F))
    (h c : mat F) : list (mat F) * (mat F * mat F) :=
  foldl (fun '(X_next, (h, c)) X_t =>
           let '(h, c) := LSTMCell.forward lstm_cell X_t (Some (h, c)) in
           (X_next ++ [h], (h, c)))
        ([], (h, c)) X.

Definition forward (self : t) (X : cube F) (h : option (cube F * cube F))
    : cube F * (cube F * cube F) :=
  let bs := nrows (hd [] X) in
  let '(h0, c0) :=
    match h with
    | Some hc => hc
    | None =>
        let z :=
          replicate 2 (zeros3 (num_layers self) bs (hidden_size self)) in
        (nth 0 z [], nth 1 z [])
    end in
  let '(X, h_n, c_n) :=
    foldl (fun '(X, h_n, c_n) '(lstm_cell, h, c) =>
             let '(X_next, (h, c)) := over_time lstm_cell X h c in
             (X_next, h_n ++ [h], c_n ++ [c]))
          (X, [], []) (zip (zip (lstm_cells self) h0) c0) in
  (X, (h_n, c_n)).

End LSTM.
Arguments t : clear implicits.
End LSTM.

Module GRUCell.
Import Tensor Activation.
Section GRUCell.
Context {F : Type} `{Substrate F} `{Truth F}.

Record t := mk {
  input_size : nat;
  hidden_size : nat;
  bias : bool;
  W_ih : mat F;
  W_hh : mat F;
  bias_ih : vec F;
  bias_hh : vec F
}.

Definition forward_from (self : t) (X h : mat F) : mat F :=
  let bs := nrows X in
  let X_new := matmul X (W_ih self) in
  let h_new := matmul h (W_hh self) in
  let X_new :=
    if bias self then mzip fadd X_new (broadcast_rows bs (bias_ih self))
    else X_new in
  let h_new :=
    if bias self then mzip fadd h_new (broadcast_rows bs (bias_hh self))
    else h_new in
  let xs := split_chunks 3 (hidden_size self) X_new in
  let hs := split_chunks 3 (hidden_size self) h_new in
  let xr := nth 0 xs [] in
  let xz := nth 1 xs [] in
  let xn := nth 2 xs [] in
  let hr := nth 0 hs [] in
  let hz := nth 1 hs [] in
  let hn := nth 2 hs [] in
  let r := Sigmoid (mzip fadd hr xr) in
  let z := Sigmoid (mzip fadd hz xz) in
  let n := Tanh (mzip fadd (mzip fmul r hn) xn) in
  mzip fadd (mzip fmul (mmap (fun a => fsub (of_Q 1) a) z) n) (mzip fmul z h).

Definition forward (self : t) (X : mat F) (h : option (mat F)) : mat F :=
  let bs := nrows X in
  let h := tensor_or Mat h (zeros bs (hidden_size self)) in
  forward_from self X h.

End GRUCell.
Arguments t : clear implicits.
End GRUCell.

Module GRU.
Import Tensor.
Section GRU.
Context {F : Type} `{Substrate F} `{Truth F}.

Record t := mk {
  input_size : nat;
  hidden_size : nat;
  num_layers : nat;
  gru_cells : list (GRUCell.t F)
}.

Definition __init__ (gru_cell : nat -> nat -> GRUCell.t F)
    (input_size hidden_size num_layers : nat) : t :=
  {| input_size := input_size; hidden_size := hidden_size;
     num_layers := num_layers;
     gru_cells :=
       [gru_cell 0 input_size]
       ++ map (fun k => gru_cell (S k) hidden_size) (seq 0 (num_layers - 1)) |}.

Definition over_time (gru_cell : GRUCell.t F) (X_new : list (mat F))
    (h : mat F) : list (mat F) * mat F :=
  foldl (fun '(out, h) X_t =>
           let h := GRUCell.forward gru_cell X_t (Some h) in
           (out ++ [h], h))
        ([], h) X_new.

Definition forward (self : t) (X : cube F) (h0 : option (cube F))
    : cube F * cube F :=
  let bs := nrows (hd [] X) in
  let h0 :=
    tensor_or Cube h0 (zeros3 (num_layers self) bs (hidden_size self)) in
  let '(X_new, h_n) :=
    foldl (fun '(X_new, h_n) '(gru_cell, h) =>
             let '(X_new, h) := over_time gru_cell X_new h in
             (X_new, h_n ++ [h]))
          (X, []) (zip (gru_cells self) h0) in
  (X_new, h_n).

End GRU.
Arguments t : clear implicits.
End GRU.

(** The reading of "the single cell applied timestep by timestep": from
    state [s], feed the inputs in time order, each step starting from the
    state the previous one returned; collect the hidden state after every
    step, and return the state after the last. *)
Fixpoint timestep_by_timestep {X S Y : Type} (cell : X -> S -> S)
    (hidden : S -> Y) (xs : list X) (s : S) : list Y * S :=
  match xs with
  | [] => ([], s)
  | x :: xs' =>
      let s' := cell x s in
      let '(ys, s_n) := timestep_by_timestep cell hidden xs' s' in
      (hidden s' :: ys, s_n)
  end.

(** ** Conv, on shapes *)

Module Conv.
Open Scope Z_scope.

(** An extent, or a tuple of extents ([kernel_size] and [stride] may be
    either). *)
Inductive size_arg :=
| Int (n : Z)
| Tuple (first : Z) (rest : list Z).

Record t := mk {
  in_channels : Z;
  out_channels : Z;
  kernel_size : Z;
  stride : Z;
  has_bias : bool
}.

Definition __init__ (in_channels out_channels : Z) (kernel_size stride : size_arg)
    (bias : bool) : t :=
  let kernel_size :=
    match kernel_size with Tuple k _ => k | Int k => k end in
  let stride := match stride with Tuple s _ => s | Int s => s end in
  {| in_channels := in_channels; out_channels := out_channels;
     kernel_size := kernel_size; stride := stride; has_bias := bias |}.

(** The weight built by the constructor has shape
    [(kernel_size, kernel_size, in_channels, out_channels)]. *)
Definition weight_shape (self : t) : list Z :=
  [kernel_size self; kernel_size self; in_channels self; out_channels self].

(** [x.transpose((i, j))] on a shape: the two extents change places. *)
Definition transpose (i j : nat) (s : list Z) : list Z :=
  <[i := nth j s 0]> (<[j := nth i s 0]> s).

(** Modelled from the spec: the substrate's 2D convolution primitive
    (needle.ops.conv is not among the files under study), on shapes.  The
    layer hands it a channel-last input, a [(K, K, C_in, C_out)] weight, a
    stride and a padding; a convolution that pads each spatial side with
    [padding] zeros and moves a K-wide window in steps of [stride] has
    [(extent + 2*padding - K) // stride + 1] output positions per axis. *)
Definition conv_shape (x w : list Z) (stride padding : Z) : list Z :=
  match x, w with
  | [N; H; W; _], [K; _; _; C_out] =>
      [N; (H + 2 * padding - K) / stride + 1;
          (W + 2 * padding - K) / stride + 1; C_out]
  | _, _ => []
  end.

(** [forward], on the shape of [x] (NCHW); adding the broadcast bias leaves
    the shape of [ret] as it is. *)
Definition forward_shape (self : t) (x : list Z) : list Z :=
  let ret :=
    conv_shape (transpose 2 3 (transpose 1 2 x)) (weight_shape self)
      (stride self) (kernel_size self / 2) in
  transpose 2 3 (transpose 1 3 ret).

(** The spatial extents (H, W) of an NCHW shape. *)
Definition spatial (s : list Z) : Z * Z := (nth 2 s 0, nth 3 s 0).

Close Scope Z_scope.
End Conv.

(** ** DataLoader *)

Module Data.

(** [range(start, stop, step)] for a positive [step]; [step = 0] raises. *)
Fixpoint range_from (n start step : nat) : list nat :=
  match n with
  | O => []
  | S n' => start :: range_from n' (start + step) step
  end.

Definition range (start stop step : nat) : option (list nat) :=
  if decide (step = 0) then None
  else Some (range_from ((stop - start + step - 1) / step) start step).

(** [ary[a:b]] *)
Definition slice {A : Type} (ary : list A) (a b : nat) : list A :=
  take (b - a) (drop a ary).

(** [np.array_split(ary, indices)] for a sequence of indices:
    [div_points = [0] + list(indices) + [Ntotal]], the i-th part being
    [ary[div_points[i]:div_points[i+1]]]. *)
Fixpoint sub_arys {A : Type} (ary : list A) (st : nat) (div_points : list nat)
    : list (list A) :=
  match div_points with
  | [] => []
  | en :: rest => slice ary st en :: sub_arys ary en rest
  end.

Definition array_split {A : Type} (ary : list A) (indices : list nat)
    : list (list A) :=
  sub_arys ary 0 (indices ++ [length ary]).

(** [np.arange(n)] *)
Definition arange (n : nat) : list nat := seq 0 n.

Section DataLoader.
Context {A : Type}.   (* a sample of the dataset *)

Record DataLoader := mk {
  dataset : list A;
  shuffle : bool;
  batch_size : nat;
  ordering : list (list nat);
  iterator : list (list nat)     (* what is left of iter(self.ordering) *)
}.

(** [DataLoader(dataset, batch_size, shuffle)]; [None] is the ValueError of
    [range] for a zero step.  With [shuffle=True] no ordering is set before
    [__iter__]: the empty one stands for it. *)
Definition __init__ (dataset : list A) (batch_size : nat) (shuffle : bool)
    : option DataLoader :=
  if shuffle then
    Some {| dataset := dataset; shuffle := shuffle; batch_size := batch_size;
            ordering := []; iterator := [] |}
  else
    r ← range batch_size (length dataset) batch_size;
    Some {| dataset := dataset; shuffle := shuffle; batch_size := batch_size;
            ordering := array_split (arange (length dataset)) r;
            iterator := [] |}.

(** [__iter__]; [shuffled] is what [np.random.shuffle] leaves of its
    argument. *)
Definition __iter__ (shuffled : list nat -> list nat) (self : DataLoader)
    : option DataLoader :=
  ordering' ←
    (if shuffle self then
       r ← range (batch_size self) (length (dataset self)) (batch_size self);
       Some (array_split (shuffled (arange (length (dataset self)))) r)
     else Some (ordering self));
  Some {| dataset := dataset self; shuffle := shuffle self;
          batch_size := batch_size self; ordering := ordering';
          iterator := ordering' |}.

(** [self.dataset[indices]]: the samples at these indices (each array of
    the dataset indexed by them, and wrapped in a Tensor by [__next__]). *)
Definition getitem (dataset : list A) (indices : list nat) : list A :=
  omap (fun i => dataset !! i) indices.

(** [__next__]: [None] is StopIteration. *)
Definition __next__ (self : DataLoader) : option (list A * DataLoader) :=
  match iterator self with
  | [] => None
  | indices :: rest =>
      Some (getitem (dataset self) indices,
            {| dataset := dataset self; shuffle := shuffle self;
               batch_size := batch_size self; ordering := ordering self;
               iterator := rest |})
  end.

(** [for batch in loader]: the batches yielded until StopIteration; [None]
    when [fuel] calls of [__next__] did not reach it. *)
Fixpoint drain (fuel : nat) (self : DataLoader) : option (list (list A)) :=
  match fuel with
  | O => None
  | S fuel' =>
      match __next__ self with
      | None => Some []
      | Some (batch, self') => bs ← drain fuel' self'; Some (batch :: bs)
      end
  end.

Definition batches (fuel : nat) (shuffled : list nat -> list nat)
    (self : DataLoader) : option (list (list A)) :=
  it ← __iter__ shuffled self; drain fuel it.

End DataLoader.
Arguments DataLoader : clear implicits.

End Data.

(** ** LayerNorm1d *)

Module LayerNorm1d.
Import Py Tensor.
Section LayerNorm1d.
Context {F : Type} `{Substrate F}.

Record t := mk {
  dim : nat;
  eps : Q;
  weight : vec F;          (* Parameter *)
  bias : vec F             (* Parameter *)
}.

Definition __init__ (dim : nat) (eps : Q) : t :=
  {| dim := dim; eps := eps; weight := ones1 dim; bias := zeros1 dim |}.

(** Modelled from the spec: reduction-sum along axis 1, one sum per row,
    accumulated from zero as [dot] and [sum_axis0] are. *)
Definition sum_axis1 (x : mat F) : vec F := map (foldl fadd (of_Q 0)) x.

(** [(s / N).reshape((M, 1)).broadcast_to((M, N))]: row [b] repeats
    [s[b] / N]. *)
Definition row_stat (N : nat) (s : vec F) : mat F :=
  map (fun a => replicate N (fdiv a (of_Q (inject_Z (Z.of_nat N))))) s.

Definition forward (self : t) (x : mat F) : exn + mat F :=
  let M := nrows x in
  let N := ncols x in
  if decide (dim self = N) then
    let mean := row_stat N (sum_axis1 x) in
    let var :=
      row_stat N (sum_axis1 (mmap (fun a => fpow a 2) (mzip fsub x mean))) in
    let x :=
      mzip fdiv (mzip fsub x mean)
        (mmap (fun a => fpow (fadd a (of_Q (eps self))) (1 # 2)) var) in
    inr (mzip fadd (mzip fmul x (broadcast_rows M (weight self)))
           (broadcast_rows M (bias self)))
  else inl AssertionError.

End LayerNorm1d.
Arguments t : clear implicits.
End LayerNorm1d.

(** ** Module trees: mode flags, ownership cycles, Sequential *)

Module Ownership.
Import Py.
Section Ownership.
Context {T : Type}.

(** Every Module below [v] carries the boolean [training] that
    [Module.__init__] assigns. *)
Definition boolean_flags (h : heap T) (v : value T) : Prop :=
  forall m c attrs,
    module_in h v m -> h !! m = Some (OModule c attrs) ->
    exists b0, dict_get "training" attrs = Some (VBool b0).

(** The same, all of them in mode [b]. *)
Definition all_in_mode (b : bool) (h : heap T) (v : value T) : Prop :=
  forall m c attrs,
    module_in h v m -> h !! m = Some (OModule c attrs) ->
    dict_get "training" attrs = Some (VBool b).

(** [h'] is [h] up to the boolean [training] flags of its Modules. *)
Definition flags_apart (h h' : heap T) : Prop :=
  forall l,
    h' !! l = h !! l \/
    exists c d b b0,
      h !! l = Some (OModule c d) /\
      dict_get "training" d = Some (VBool b0) /\
      h' !! l = Some (OModule c (dict_set "training" (VBool b) d)).

(** The Module [m] owns itself, directly or through other Modules. *)
Definition on_cycle (h : heap T) (m : loc) : Prop :=
  exists c attrs, h !! m = Some (OModule c attrs) /\ module_in h (VDict attrs) m.

End Ownership.
End Ownership.

Module Sequential.
Import Py.
Section Sequential.
Context {T : Type}.

(** [Sequential] called with the modules, on a new object [self]: [Module.__init__] sets
    [training], then [self.modules = modules], the tuple of the arguments. *)
Definition __init__ (h : heap T) (self : loc) (modules : list loc) : heap T :=
  <[self := OModule C_Sequential
              (dict_set "modules" (VTuple (VRef <$> modules))
                 (dict_set "training" (VBool true) []))]> h.

End Sequential.
End Sequential.

(** ** The shapes the cell constructors give the weights *)

Module Shapes.
Import Tensor.
Section Shapes.
Context {F : Type} `{Substrate F} `{Truth F}.




End Shapes.
End Shapes.

(** ** Token corpus: Dictionary and Corpus *)

Module Dictionary.

Record t := mk {
  word2idx : gmap string nat;
  idx2word : list string
}.

Definition __init__ : t := {| word2idx := ∅; idx2word := [] |}.

Definition __len__ (self : t) : nat := length (idx2word self).

(** [d.setdefault(k, default)]: the value at [k], put there first when [k]
    is missing. *)
Definition setdefault (d : gmap string nat) (k : string) (default : nat)
    : nat * gmap string nat :=
  match d !! k with
  | Some v => (v, d)
  | None => (default, <[k := default]> d)
  end.

(** [add_word]; [None] is the KeyError of [self.word2idx[word]]. *)
Definition add_word (self : t) (word : string) : option (nat * t) :=
  let '(v, word2idx') := setdefault (word2idx self) word (__len__ self) in
  let idx2word' :=
    if decide (__len__ self = v) then idx2word self ++ [word]
    else idx2word self in
  i ← word2idx' !! word;
  Some (i, {| word2idx := word2idx'; idx2word := idx2word' |}).

(** The two attributes describe one numbering. *)
Definition consistent (self : t) : Prop :=
  forall w i, word2idx self !! w = Some i <-> idx2word self !! i = Some w.

End Dictionary.

Module Corpus.

(** Characters are code points below 256. *)
Definition newline : Ascii.ascii := Ascii.ascii_of_nat 10.

(** The characters [str.split()] splits at: those [str.isspace()] holds
    of. *)
Definition is_space (c : Ascii.ascii) : bool :=
  let n := Ascii.nat_of_ascii c in
  ((9 <=? n) && (n <=? 13)) || ((28 <=? n) && (n <=? 32))
  || (n =? 133) || (n =? 160).

(** [line.replace(newline, "<eos>")] *)
Fixpoint replace_newline (line : string) : string :=
  match line with
  | EmptyString => EmptyString
  | String c rest =>
      if decide (c = newline) then "<eos>" +:+ replace_newline rest
      else String c (replace_newline rest)
  end.

(** [s.split()]: the maximal runs of non-space characters, in order;
    [word] is the run being read. *)
Fixpoint split_from (word : string) (s : string) : list string :=
  match s with
  | EmptyString => if decide (word = EmptyString) then [] else [word]
  | String c rest =>
      if is_space c then
        if decide (word = EmptyString) then split_from EmptyString rest
        else word :: split_from EmptyString rest
      else split_from (word +:+ String c EmptyString) rest
  end.

Definition split (s : string) : list string := split_from EmptyString s.

(** [lines[:max_lines and max_lines+1]]: every line for [None], none for
    [0], and for another bound the slice up to that bound plus one (a
    negative one counts from the end). *)
Definition lines_read (lines : list string) (max_lines : option Z)
    : list string :=
  match max_lines with
  | None => lines
  | Some m =>
      let stop := if decide (m = 0%Z) then 0%Z else (m + 1)%Z in
      if decide (stop < 0)%Z
      then take (Z.to_nat (Z.of_nat (length lines) + stop)) lines
      else take (Z.to_nat stop) lines
  end.

(** [map(self.dictionary.add_word, words)], consumed in order. *)
Fixpoint add_words (dictionary : Dictionary.t) (words : list string)
    : option (list nat * Dictionary.t) :=
  match words with
  | [] => Some ([], dictionary)
  | w :: words' =>
      '(i, d1) ← Dictionary.add_word dictionary w;
      '(ids, d2) ← add_words d1 words';
      Some (i :: ids, d2)
  end.

(** The words of the lines read, in file order. *)
Definition words_of (lines : list string) (max_lines : option Z)
    : list string :=
  concat (map (fun line => split (replace_newline line))
            (lines_read lines max_lines)).

(** [tokenize]; [lines] is what [f.readlines()] returns for the file. *)
Definition tokenize (dictionary : Dictionary.t) (lines : list string)
    (max_lines : option Z) : option (list nat * Dictionary.t) :=
  add_words dictionary (words_of lines max_lines).

Record t := mk {
  dictionary : Dictionary.t;
  train : list nat;
  test : list nat
}.

(** [Corpus(base_dir, max_lines)], given the lines of train.txt and of
    test.txt. *)
Definition __init__ (train_lines test_lines : list string)
    (max_lines : option Z) : option t :=
  '(train, d1) ← tokenize Dictionary.__init__ train_lines max_lines;
  '(test, d2) ← tokenize d1 test_lines max_lines;
  Some {| dictionary := d2; train := train; test := test |}.

End Corpus.

(** ** Column batches of a token sequence *)

Module Batching.

(** [a[start:stop]] for Python integers: a negative index counts from the
    end, and both ends are clamped to the array. *)
Definition clamp_index (len i : Z) : Z :=
  if decide (i < 0)%Z then Z.max 0 (i + len) else Z.min i len.

Definition py_slice {A : Type} (a : list A) (start stop : Z) : list A :=
  let len := Z.of_nat (length a) in
  let lo := clamp_index len start in
  let hi := clamp_index len stop in
  take (Z.to_nat (hi - lo)) (drop (Z.to_nat lo) a).


(** [rows.transpose()] of an array with [c] columns: row [i] of the result
    is column [i] of [rows]. *)
Definition transpose {A : Type} (c : nat) (rows : list (list A))
    : list (list A) :=
  map (fun i => omap (fun row => row !! i) rows) (seq 0 c).


(** [batches.shape] of a rank-2 array kept as the list of its rows (an
    array with no row does not record its width). *)
Definition shape2 {A : Type} (a : list (list A)) : Z * Z :=
  (Z.of_nat (length a),
   Z.of_nat (match a with [] => 0 | r :: _ => length r end)).

(** Modelled from the spec: reshape of the tensor substrate, to a rank-1
    shape: the entries in row-major order; the element count has to be the
    extent asked for. *)
Definition reshape1 {A : Type} (a : list (list A)) (n : Z) : option (list A) :=
  if decide (Z.of_nat (length (concat a)) = n) then Some (concat a) else None.

(** [get_batch(batches, i, bptt)]: the pair [data], [target]. *)
Definition get_batch {A : Type} (batches : list (list A)) (i bptt : Z)
    : option (list (list A) * list A) :=
  let '(nbatch, batch_size) := shape2 batches in
  let bptt := Z.min bptt (nbatch - i - 1) in
  let data := py_slice batches i (i + bptt) in
  let target := py_slice batches (i + 1) (i + bptt + 1) in
  target ← reshape1 target (bptt * batch_size);
  Some (data, target).

End Batching.

(** ** Image transforms *)

(** An image is an array of shape [(H, W, C)], kept as the list of its
    rows, each the list of its pixels, each the list of its channels (an
    array with no row does not record its other extents). *)
Module Transforms.
Section Transforms.
Context {A : Type}.

(** [np.flip(img, axis=1)] *)
Definition flip_axis1 (img : list (list (list A))) : list (list (list A)) :=
  map (@rev (list A)) img.

(** Constant padding of one axis: [pad] entries before and after. *)
Definition pad_axis {X : Type} (pad : nat) (fill : X) (l : list X) : list X :=
  replicate pad fill ++ l ++ replicate pad fill.

(** [np.pad(img, pad)]: [pad] zeros before and after, on every one of the
    three axes. *)
Definition np_pad (zero : A) (pad : nat) (img : list (list (list A)))
    : list (list (list A)) :=
  let W := length (hd [] img) in
  let C := length (hd [] (hd [] img)) in
  let zero_pixel := replicate (C + 2 * pad) zero in
  let zero_row := replicate (W + 2 * pad) zero_pixel in
  pad_axis pad zero_row
    (map (fun row => pad_axis pad zero_pixel (map (pad_axis pad zero) row))
       img).

End Transforms.
End Transforms.

Module RandomFlipHorizontal.
Import Transforms.
Section RandomFlipHorizontal.
Context {A : Type}.

Record t := mk { p : Q }.

(** [__call__]; [rand] is the draw of [np.random.rand()]. *)
Definition __call__ (rand : Q) (self : t) (img : list (list (list A)))
    : list (list (list A)) :=
  let flip_img := if Qlt_le_dec rand (p self) then true else false in
  if flip_img then flip_axis1 img else img.

End RandomFlipHorizontal.
End RandomFlipHorizontal.

Module RandomCrop.
Import Transforms Batching.
Section RandomCrop.
Context {A : Type}.

(** A natural [padding]; a negative one is refused by [np.pad]. *)
Record t := mk { padding : nat }.

(** [__call__]; [shift_x] and [shift_y] are the two draws of
    [np.random.randint(low=-padding, high=padding + 1, size=2)], and
    [zero] is the zero [np.pad] fills with. *)
Definition __call__ (zero : A) (shift_x shift_y : Z) (self : t)
    (img : list (list (list A))) : list (list (list A)) :=
  let pad := Z.of_nat (padding self) in
  let ret := np_pad zero (padding self) img in
  let H := Z.of_nat (length ret) in
  let W := Z.of_nat (length (hd [] ret)) in
  let C := Z.of_nat (length (hd [] (hd [] ret))) in
  map (fun row =>
         map (fun pixel => py_slice pixel pad (C - pad))
           (py_slice row (pad + shift_x) (W - (pad - shift_x))))
    (py_slice ret (pad + shift_y) (H - (pad - shift_y))).

End RandomCrop.
End RandomCrop.

(** ** Optimizers *)

Module Optim.
Import Py Tensor.
Section Optim.
Context {F : Type} `{Substrate F}.

(** What a Parameter holds, as far as the optimizers go: its value
    ([.data]) and the gradient backward left on it ([.grad]). *)
Record param := mk_param {
  data : tensor F;
  grad : option (tensor F)
}.

(** The store the optimizers work on: the Parameters are objects of it,
    named by the entries of [params], so that a Parameter listed twice is
    one object. *)
Local Abbreviation store := (heap param).

(** Modelled from the spec: elementwise arithmetic of the substrate
    between a Python number and a tensor, and between tensors. *)
Definition scale (q : Q) (t : tensor F) : tensor F :=
  tmap (fun a => fmul a (of_Q q)) t.
Definition over (t : tensor F) (q : Q) : tensor F :=
  tmap (fun a => fdiv a (of_Q q)) t.
Definition plus_number (q : Q) (t : tensor F) : tensor F :=
  tmap (fun a => fadd a (of_Q q)) t.

(** An entry of [self.u], [self.m] or [self.v]: the Python integer the
    constructor puts there, or the tensor a step has left. *)
Inductive buffer :=
| Num (q : Q)
| Ten (t : tensor F).

(** [q * b] and [b + t] for a buffer [b]. *)
Definition buffer_scale (q : Q) (b : buffer) : buffer :=
  match b with
  | Num x => Num (q * x)
  | Ten t => Ten (scale q t)
  end.
Definition buffer_plus (b : buffer) (t : tensor F) : tensor F :=
  match b with
  | Num x => plus_number x t
  | Ten s => tzip fadd s t
  end.

(** [Optimizer.reset_grad]: [for p in self.params: p.grad = None]; [None]
    where an entry of [params] is no Parameter of the store. *)
Definition reset_grad (params : list loc) (h : store) : option store :=
  foldl (fun acc p =>
           h ← acc;
           match h !! p with
           | Some (OParameter w) =>
               Some (<[p := OParameter {| data := data w; grad := None |}]> h)
           | _ => None
           end)
        (Some h) params.

(** [enumerate(self.params)] *)
Definition enumerate {X : Type} (l : list X) : list (nat * X) :=
  zip (seq 0 (length l)) l.

End Optim.
Arguments param : clear implicits.
Arguments buffer : clear implicits.
End Optim.

Module SGD.
Import Py Tensor Optim.
Section SGD.
Context {F : Type} `{Substrate F}.
Local Abbreviation store := (heap (param F)).
Local Abbreviation buffer := (buffer F).

Record t := mk {
  params : list loc;
  lr : Q;
  momentum : Q;
  u : list buffer;
  weight_decay : Q
}.

Definition __init__ (params : list loc) (lr momentum weight_decay : Q) : t :=
  {| params := params; lr := lr; momentum := momentum;
     u := replicate (length params) (Num 0); weight_decay := weight_decay |}.

(** The body of the loop of [step] for the entry [(i, w)]; [None] is the
    IndexError of [self.u[i]], or an entry that is no Parameter. *)
Definition step_one (lr momentum weight_decay : Q)
    (acc : option (list buffer * store)) (iw : nat * loc)
    : option (list buffer * store) :=
  '(u, h) ← acc;
  let '(i, w) := iw in
  match h !! w with
  | Some (OParameter p) =>
      match grad p with
      | None => Some (u, h)
      | Some g =>
          u_i ← u !! i;
          let grad := tzip fadd g (scale weight_decay (data p)) in
          let u_i' :=
            buffer_plus (buffer_scale momentum u_i)
              (scale (1 - momentum) grad) in
          let data' := tzip fsub (data p) (scale lr u_i') in
          Some (<[i := Ten u_i']> u,
                <[w := OParameter {| data := data'; grad := Some g |}]> h)
      end
  | _ => None
  end.

Definition step (self : t) (h : store) : option (t * store) :=
  '(u', h') ←
    foldl (step_one (lr self) (momentum self) (weight_decay self))
      (Some (u self, h)) (enumerate (params self));
  Some ({| params := params self; lr := lr self; momentum := momentum self;
           u := u'; weight_decay := weight_decay self |}, h').

End SGD.
Arguments t : clear implicits.
End SGD.

Module Adam.
Import Py Tensor Optim.
Section Adam.
Context {F : Type} `{Substrate F}.
Local Abbreviation store := (heap (param F)).
Local Abbreviation buffer := (buffer F).

Record t := mk {
  params : list loc;
  lr : Q;
  beta1 : Q;
  beta2 : Q;
  eps : Q;
  weight_decay : Q;
  t_ : Z;                      (* self.t *)
  m : list buffer;
  v : list buffer
}.

Definition __init__ (params : list loc) (lr beta1 beta2 eps weight_decay : Q)
    : t :=
  {| params := params; lr := lr; beta1 := beta1; beta2 := beta2; eps := eps;
     weight_decay := weight_decay; t_ := 0;
     m := replicate (length params) (Num 0);
     v := replicate (length params) (Num 0) |}.

(** The body of the loop of [step], [t] being [self.t] as already
    incremented. *)
Definition step_one (lr beta1 beta2 eps weight_decay : Q) (t : Z)
    (acc : option (list buffer * list buffer * store)) (iw : nat * loc)
    : option (list buffer * list buffer * store) :=
  '(m, v, h) ← acc;
  let '(i, w) := iw in
  match h !! w with
  | Some (OParameter p) =>
      match grad p with
      | None => Some (m, v, h)
      | Some g =>
          m_i ← m !! i;
          v_i ← v !! i;
          let grad := tzip fadd g (scale weight_decay (data p)) in
          let m_i' :=
            buffer_plus (buffer_scale beta1 m_i) (scale (1 - beta1) grad) in
          let v_i' :=
            buffer_plus (buffer_scale beta2 v_i)
              (scale (1 - beta2) (tmap (fun a => fpow a 2) grad)) in
          let m_hat := over m_i' (1 - beta1 ^ t) in
          let v_hat := over v_i' (1 - beta2 ^ t) in
          let data' :=
            tzip fsub (data p)
              (tzip fdiv (scale lr m_hat)
                 (plus_number eps (tmap (fun a => fpow a (1 # 2)) v_hat))) in
          Some (<[i := Ten m_i']> m, <[i := Ten v_i']> v,
                <[w := OParameter {| data := data'; grad := Some g |}]> h)
      end
  | _ => None
  end.

Definition step (self : t) (h : store) : option (t * store) :=
  let t := (t_ self + 1)%Z in
  '(m', v', h') ←
    foldl (step_one (lr self) (beta1 self) (beta2 self) (eps self)
             (weight_decay self) t)
      (Some (m self, v self, h)) (enumerate (params self));
  Some ({| params := params self; lr := lr self; beta1 := beta1 self;
           beta2 := beta2 self; eps := eps self;
           weight_decay := weight_decay self; t_ := t; m := m'; v := v' |},
        h').

End Adam.
Arguments t : clear implicits.
End Adam.


(** ** Sample data: exact rationals as elements *)

Module Sample.
Import Py Tensor.

(** Rational arithmetic for the element operations; [exp], [tanh] and
    fractional powers are coarse rational stand-ins, good enough to run the
    layers on small inputs. *)
Definition Qrelu (x : Q) : Q := if Qle_bool 0 x then x else 0%Q.
Definition Qabs' (x : Q) : Q := if Qle_bool 0 x then x else Qopp x.

#[export] Instance Qsubstrate : Substrate Q := {|
  of_Q q := q;
  fadd a b := Qred (a + b);
  fsub a b := Qred (a - b);
  fmul a b := Qred (a * b);
  fdiv a b := Qred (a / b);
  fneg a := Qred (- a);
  fpow a q := if decide (Qden q = 1%positive) then Qred (a ^ Qnum q) else a;
  fexp a := Qred (1 + a);
  ftanh a := Qred (a / (1 + Qabs' a));
  frelu a := Qrelu a
|}.

Definition Qis_zero (x : Q) : bool :=
  bool_decide (Qnum x = 0%Z) && bool_decide (Qden x = 1%positive).

#[export] Instance Qtruth : Truth Q := zero_is_false Qis_zero.

(** Sequential(Linear(bias=False), Dropout(), BatchNorm1d, Module()) with a
    dict and a list of further Parameters on the first layer. *)
Definition sample_heap : heap (tensor Q) :=
  list_to_map [
    (1%positive, OModule C_Sequential
       [("training", VBool true);
        ("modules", VTuple [VRef 2%positive; VRef 4%positive;
                            VRef 5%positive; VRef 8%positive])]);
    (2%positive, OModule C_Linear
       [("training", VBool true); ("in_features", VNum 2);
        ("out_features", VNum 1); ("weight", VRef 3%positive);
        ("bias", VNone);
        ("extra", VDict [("a", VRef 9%positive);
                         ("b", VList [VNum 7; VRef 10%positive])])]);
    (3%positive, OParameter (Mat [[1%Q]; [2%Q]]));
    (4%positive, OModule C_Dropout
       [("training", VBool true); ("p", VNum (1 # 2))]);
    (5%positive, OModule C_BatchNorm1d
       [("training", VBool true); ("dim", VNum 2); ("eps", VNum (1 # 100000));
        ("momentum", VNum (1 # 10)); ("weight", VRef 6%positive);
        ("bias", VRef 7%positive);
        ("running_mean", VTensor (Vec [0%Q; 0%Q]));
        ("running_var", VTensor (Vec [1%Q; 1%Q]))]);
    (6%positive, OParameter (Vec [1%Q; 1%Q]));
    (7%positive, OParameter (Vec [0%Q; 0%Q]));
    (8%positive, OModule C_Module [("training", VBool true)]);
    (9%positive, OParameter (Vec [5%Q]));
    (10%positive, OParameter (Vec [6%Q]))
  ].

(** Cells with one input feature and two hidden units. *)
Definition sample_rnn_cell : RNNCell.t Q :=
  {| RNNCell.input_size := 1; RNNCell.hidden_size := 2;
     RNNCell.bias := true; RNNCell.nonlin := RNNCell.relu;
     RNNCell.W_ih := [[1; 2]]%Q; RNNCell.W_hh := [[1; 0]; [0; 1]]%Q;
     RNNCell.bias_ih := [0; 1]%Q; RNNCell.bias_hh := [0; 0]%Q |}.

Definition sample_gru_cell : GRUCell.t Q :=
  {| GRUCell.input_size := 1; GRUCell.hidden_size := 2;
     GRUCell.bias := true;
     GRUCell.W_ih := [[1; 2; 3; 4; 5; 6]]%Q;
     GRUCell.W_hh := [[1; 0; 1; 0; 1; 0]; [0; 1; 0; 1; 0; 1]]%Q;
     GRUCell.bias_ih := [0; 1; 0; 1; 0; 1]%Q;
     GRUCell.bias_hh := [0; 0; 0; 0; 0; 0]%Q |}.

(** The four chunks of the input weights are told apart by their
    magnitude: units, tens, hundreds, thousands. *)
Definition sample_lstm_cell : LSTMCell.t Q :=
  {| LSTMCell.input_size := 1; LSTMCell.hidden_size := 2;
     LSTMCell.bias := true;
     LSTMCell.W_ih := [[1; 1; 10; 10; 100; 100; 1000; 1000]]%Q;
     LSTMCell.W_hh := [[0; 0; 0; 0; 0; 0; 0; 0]; [0; 0; 0; 0; 0; 0; 0; 0]]%Q;
     LSTMCell.bias_ih := [0; 1; 0; 1; 0; 1; 0; 1]%Q;
     LSTMCell.bias_hh := [0; 0; 0; 0; 0; 0; 0; 0]%Q |}.

(** Three timesteps, batch of one. *)
Definition sample_sequence : cube Q := [[[1%Q]]; [[2%Q]]; [[3%Q]]].

Definition sample_batchnorm : BatchNorm1d.t Q :=
  {| BatchNorm1d.training := true; BatchNorm1d.dim := 2;
     BatchNorm1d.eps := 1 # 100000; BatchNorm1d.momentum := 1 # 10;
     BatchNorm1d.weight := [1; 1]%Q; BatchNorm1d.bias := [0; 0]%Q;
     BatchNorm1d.running_mean := [0; 0]%Q;
     BatchNorm1d.running_var := [1; 1]%Q |}.

Definition sample_batch : mat Q := [[1; 2]; [3; 6]]%Q.

End Sample.

(** ** More sample data *)

Module SampleMore.
Import Py Tensor Optim Sample.

(** A Sequential whose only layer is a Residual around the Sequential
    itself. *)
Definition cyclic_heap : heap (tensor Q) :=
  list_to_map [
    (1%positive, OModule C_Sequential
       [("training", VBool true); ("modules", VTuple [VRef 2%positive])]);
    (2%positive, OModule C_Residual
       [("training", VBool true); ("fn", VRef 1%positive)])
  ].

(** Cell constructors for any input width, two hidden units. *)
Definition sample_rnn_cells (k n : nat) : RNNCell.t Q :=
  {| RNNCell.input_size := n; RNNCell.hidden_size := 2;
     RNNCell.bias := true; RNNCell.nonlin := RNNCell.relu;
     RNNCell.W_ih := replicate n [1; 2]%Q;
     RNNCell.W_hh := [[1; 0]; [0; 1]]%Q;
     RNNCell.bias_ih := [0; 1]%Q; RNNCell.bias_hh := [0; 0]%Q |}.

Definition sample_gru_cells (k n : nat) : GRUCell.t Q :=
  {| GRUCell.input_size := n; GRUCell.hidden_size := 2;
     GRUCell.bias := true;
     GRUCell.W_ih := replicate n [1; 2; 3; 4; 5; 6]%Q;
     GRUCell.W_hh := [[1; 0; 1; 0; 1; 0]; [0; 1; 0; 1; 0; 1]]%Q;
     GRUCell.bias_ih := [0; 1; 0; 1; 0; 1]%Q;
     GRUCell.bias_hh := [0; 0; 0; 0; 0; 0]%Q |}.

Definition sample_lstm_cells (k n : nat) : LSTMCell.t Q :=
  {| LSTMCell.input_size := n; LSTMCell.hidden_size := 2;
     LSTMCell.bias := true;
     LSTMCell.W_ih := replicate n [1; 1; 10; 10; 100; 100; 1000; 1000]%Q;
     LSTMCell.W_hh :=
       [[0; 0; 0; 0; 0; 0; 0; 0]; [0; 0; 0; 0; 0; 0; 0; 0]]%Q;
     LSTMCell.bias_ih := [0; 1; 0; 1; 0; 1; 0; 1]%Q;
     LSTMCell.bias_hh := [0; 0; 0; 0; 0; 0; 0; 0]%Q |}.

(** The sample BatchNorm1d, in evaluation mode. *)
Definition sample_batchnorm_eval : BatchNorm1d.t Q :=
  {| BatchNorm1d.training := false; BatchNorm1d.dim := 2;
     BatchNorm1d.eps := 1 # 100000; BatchNorm1d.momentum := 1 # 10;
     BatchNorm1d.weight := [1; 1]%Q; BatchNorm1d.bias := [0; 0]%Q;
     BatchNorm1d.running_mean := [0; 0]%Q;
     BatchNorm1d.running_var := [1; 1]%Q |}.

(** Two Parameters: one with a gradient, one frozen. *)
Definition sample_store : heap (param Q) :=
  list_to_map [
    (1%positive, OParameter {| data := Vec [1; 2]%Q;
                               grad := Some (Vec [1; 1]%Q) |});
    (2%positive, OParameter {| data := Vec [5]%Q; grad := None |})
  ].

Definition sample_sgd : SGD.t Q :=
  SGD.__init__ [1%positive; 2%positive] (1 # 10) (9 # 10) 0.

Definition sample_adam : Adam.t Q :=
  Adam.__init__ [1%positive; 2%positive] (1 # 100) (9 # 10) (999 # 1000)
    (1 # 100000000) 0.

(** A 2x3 image with one channel. *)
Definition sample_image : list (list (list nat)) :=
  [[[1]; [2]; [3]]; [[4]; [5]; [6]]].

End SampleMore.

(** * Properties *)

(** ** Tensors as nested rows *)

Module TensorFacts.
Import Tensor.
Section TensorFacts.
Context {F : Type} `{Substrate F}.
Implicit Types (A B : mat F) (u v : vec F).

Lemma map_fmap {X Y : Type} (f : X -> Y) (l : list X) : map f l = f <$> l.
Proof. reflexivity. Qed.

Lemma entry_mmap f A b j : entry (mmap f A) b j = f <$> entry A b j.
Proof.
  unfold entry, mmap, vmap. rewrite map_fmap, list_lookup_fmap.
  destruct (A !! b) as [r|]; simpl; [|done].
  by rewrite map_fmap, list_lookup_fmap.
Qed.

Lemma entry_mzip f A B b j x y :
  entry A b j = Some x -> entry B b j = Some y ->
  entry (mzip f A B) b j = Some (f x y).
Proof.
  unfold entry, mzip, vzip. rewrite lookup_zip_with.
  destruct (A !! b) as [r|]; simpl; [|done].
  destruct (B !! b) as [r'|]; simpl; [|done].
  rewrite lookup_zip_with. by intros -> ->.
Qed.

Lemma entry_chunk hs c A b j :
  j < hs -> entry (map (chunk hs c) A) b j = entry A b (c * hs + j).
Proof.
  intros Hj. unfold entry. rewrite map_fmap, list_lookup_fmap.
  destruct (A !! b) as [r|]; simpl; [|done]. unfold chunk.
  rewrite lookup_take_lt by done. by rewrite lookup_drop.
Qed.

Lemma split_chunks_nth k hs A c :
  c < k -> nth c (split_chunks k hs A) [] = map (chunk hs c) A.
Proof.
  intros Hc. unfold split_chunks.
  rewrite (nth_indep _ [] (map (chunk hs 0) A)) by (by rewrite length_map, length_seq).
  rewrite (map_nth (fun c => map (chunk hs c) A) (seq 0 k) 0 c).
  by rewrite seq_nth.
Qed.

Lemma split_chunks_length k hs A : length (split_chunks k hs A) = k.
Proof. unfold split_chunks. by rewrite length_map, length_seq. Qed.

(** Shapes. *)
Lemma has_shape_ncols m n A : has_shape m n A -> 0 < m \/ n = 0 -> ncols A = n.
Proof.
  intros [Hm Hrows] Hmn. destruct A as [|r A]; simpl in *.
  - lia.
  - by inversion Hrows.
Qed.

Lemma has_shape_mmap f m n A : has_shape m n A -> has_shape m n (mmap f A).
Proof.
  intros [Hm Hrows]. split.
  - unfold mmap. by rewrite length_map.
  - unfold mmap. apply Forall_fmap. eapply Forall_impl; [done|].
    intros r Hr; simpl. unfold vmap. by rewrite length_map.
Qed.

Lemma has_shape_mzip f m n A B :
  has_shape m n A -> has_shape m n B -> has_shape m n (mzip f A B).
Proof.
  intros [Hm Hrows] [Hm' Hrows']. split.
  - unfold mzip. rewrite length_zip_with. lia.
  - unfold mzip. apply Forall_forall. intros r [i Hi]%list_elem_of_lookup.
    apply lookup_zip_with_Some in Hi as (x & y & -> & Hx & Hy).
    rewrite Forall_lookup in Hrows, Hrows'. unfold vzip.
    rewrite length_zip_with, (Hrows _ _ Hx), (Hrows' _ _ Hy). lia.
Qed.

Lemma has_shape_matmul m A B : length A = m -> has_shape m (ncols B) (matmul A B).
Proof.
  intros Hm. split.
  - unfold matmul. by rewrite length_map.
  - unfold matmul. apply Forall_fmap, Forall_forall. intros r _; simpl.
    by rewrite length_map, length_seq.
Qed.

Lemma has_shape_broadcast_rows m v : has_shape m (length v) (broadcast_rows m v).
Proof.
  split.
  - unfold broadcast_rows. by rewrite length_replicate.
  - unfold broadcast_rows. by apply Forall_replicate.
Qed.

Lemma has_shape_chunk m n hs c A :
  has_shape m n A -> (c + 1) * hs <= n -> has_shape m hs (map (chunk hs c) A).
Proof.
  intros [Hm Hrows] Hc. split.
  - by rewrite length_map.
  - apply Forall_fmap. eapply Forall_impl; [done|]. intros r Hr; simpl.
    unfold chunk. rewrite length_take, length_drop. simpl in Hr. nia.
Qed.


Lemma has_shape_entry m n A b j :
  has_shape m n A -> b < m -> j < n -> is_Some (entry A b j).
Proof.
  intros [Hm Hrows] Hb Hj. unfold entry.
  destruct (lookup_lt_is_Some_2 A b) as [r Hr]; [lia|]. rewrite Hr. simpl.
  apply lookup_lt_is_Some_2.
  rewrite Forall_forall in Hrows. rewrite (Hrows r); [done|].
  by eapply list_elem_of_lookup_2.
Qed.

(** A zero tensor of a given shape is the one [init.zeros] builds. *)
Lemma zero_mat_is_zeros m n A :
  has_shape m n A -> Forall (Forall (eq (of_Q 0))) A -> A = zeros m n.
Proof.
  intros [Hm Hrows] Hz. unfold zeros. subst m.
  induction A as [|r A IH]; simpl; [done|].
  inversion Hrows; inversion Hz; subst. f_equal; [|by apply IH].
  unfold zeros1. clear -H6. induction r as [|a r IHr]; simpl; [done|].
  inversion H6; subst. f_equal. by apply IHr.
Qed.

(** Sums along axis 0, column by column. *)
Lemma column_lookup A j m n :
  has_shape m n A -> j < n -> Forall2 (fun r a => r !! j = Some a) A (column j A).
Proof.
  intros [_ Hrows] Hj. unfold column.
  induction Hrows as [|r A Hr Hrows IH]; simpl; constructor; [|done].
  destruct (lookup_lt_is_Some_2 r j) as [a Ha]; [lia|].
  rewrite Ha. f_equal. symmetry. by apply nth_lookup_Some.
Qed.

Lemma foldl_vzip_lookup f A : forall acc col j a0,
  acc !! j = Some a0 ->
  Forall2 (fun r a => r !! j = Some a) A col ->
  foldl (vzip f) acc A !! j = Some (foldl f a0 col).
Proof.
  induction A as [|r A IH]; intros acc col j a0 Hacc Hcol.
  - by inversion Hcol; subst.
  - inversion Hcol as [|? a ? col' Hr Hcol']; subst. simpl.
    apply IH; [|done]. unfold vzip. rewrite lookup_zip_with, Hacc. simpl.
    by rewrite Hr.
Qed.

Lemma sum_axis0_lookup A j m n :
  has_shape m n A -> j < n ->
  sum_axis0 n A !! j = Some (foldl fadd (of_Q 0) (column j A)).
Proof.
  intros HA Hj. unfold sum_axis0.
  apply foldl_vzip_lookup; [|by eapply column_lookup].
  unfold zeros1. by apply lookup_replicate_2.
Qed.

Lemma length_foldl_vzip f A n : forall acc,
  length acc = n -> Forall (fun r => length r = n) A ->
  length (foldl (vzip f) acc A) = n.
Proof.
  induction A as [|r A IH]; intros acc Hacc Hrows; simpl; [done|].
  inversion Hrows; subst. apply IH; [|done].
  unfold vzip. rewrite length_zip_with. lia.
Qed.

Lemma length_sum_axis0 A m n : has_shape m n A -> length (sum_axis0 n A) = n.
Proof.
  intros [_ Hrows]. unfold sum_axis0. apply length_foldl_vzip; [|done].
  unfold zeros1. by rewrite length_replicate.
Qed.

Lemma entry_broadcast_rows m v b j :
  b < m -> entry (broadcast_rows m v) b j = v !! j.
Proof.
  intros Hb. unfold entry, broadcast_rows.
  by rewrite lookup_replicate_2.
Qed.

(** The column of a centred and mapped matrix. *)
Lemma column_centred g A mu j mj m n :
  has_shape m n A -> j < n -> mu !! j = Some mj ->
  column j (mmap g (mzip fsub A (broadcast_rows m mu)))
  = map (fun a => g (fsub a mj)) (column j A).
Proof.
  intros [Hm Hrows] Hj Hmu. subst m. unfold column, mmap, mzip, broadcast_rows.
  induction Hrows as [|r A Hr Hrows IH]; simpl; [done|].
  f_equal; [|exact IH].
  destruct (lookup_lt_is_Some_2 r j) as [a Ha]; [lia|].
  rewrite (nth_lookup_Some r j _ a Ha).
  apply nth_lookup_Some. unfold vmap, vzip.
  rewrite map_fmap, list_lookup_fmap, lookup_zip_with, Ha. simpl.
  by rewrite Hmu.
Qed.

(** Both readings of Tensor truthiness make only all-zero tensors false. *)
Lemma always_true_falsy_only_zero : @falsy_only_zero F _ always_true.
Proof. intros t Ht. discriminate Ht. Qed.

Lemma zero_is_false_falsy_only_zero (is_zero : F -> bool) :
  (forall a, is_zero a = true -> of_Q 0 = a) ->
  @falsy_only_zero F _ (zero_is_false is_zero).
Proof.
  intros Hz.
  assert (Hv : forall v : vec F,
    forallb is_zero v = true -> Forall (eq (of_Q 0)) v).
  { intros v Hv. apply Forall_forall. intros a Ha.
    apply Hz. rewrite forallb_forall in Hv. apply Hv. by apply list_elem_of_In. }
  assert (Hm : forall A : mat F,
    forallb (forallb is_zero) A = true -> Forall (Forall (eq (of_Q 0))) A).
  { intros A HA. apply Forall_forall. intros r Hr.
    apply Hv. rewrite forallb_forall in HA. apply HA. by apply list_elem_of_In. }
  intros t Ht. unfold Tensor_bool, zero_is_false in Ht.
  apply negb_false_iff in Ht. destruct t; simpl in *; auto.
  apply Forall_forall. intros A HA.
  apply Hm. rewrite forallb_forall in Ht. apply Ht. by apply list_elem_of_In.
Qed.

End TensorFacts.
End TensorFacts.

(** ** The module composite *)

Module Composite.
Import Py.

Section Walks.
Context {T : Type}.
Implicit Types (h : heap T) (v : value T) (l m : loc).

Lemma for_extend_acc {A} (f : value T -> option (list A)) vs acc :
  foldl (fun acc v => ps ← acc; qs ← f v; Some (ps ++ qs)) (Some acc) vs
  = qs ← for_extend f vs; Some (acc ++ qs).
Proof.
  unfold for_extend. revert acc.
  induction vs as [|v vs IH]; intros acc; simpl.
  - by rewrite app_nil_r.
  - destruct (f v) as [ps|]; simpl.
    + rewrite (IH (acc ++ ps)), (IH ps).
      destruct (foldl _ (Some []) vs); simpl; [|done].
      by rewrite app_assoc.
    + clear IH. induction vs; simpl; auto.
Qed.

Lemma for_extend_nil {A} (f : value T -> option (list A)) :
  for_extend f [] = Some [].
Proof. reflexivity. Qed.

Lemma for_extend_cons {A} (f : value T -> option (list A)) v vs :
  for_extend f (v :: vs) = ps ← f v; qs ← for_extend f vs; Some (ps ++ qs).
Proof.
  unfold for_extend at 1. simpl.
  destruct (f v) as [ps|]; simpl.
  - apply for_extend_acc.
  - induction vs; simpl; auto.
Qed.

Lemma for_extend_ext {A} (f g : value T -> option (list A)) vs :
  (forall v, v ∈ vs -> f v = g v) -> for_extend f vs = for_extend g vs.
Proof.
  induction vs as [|v vs IH]; intros Hfg; [done|].
  rewrite !for_extend_cons, Hfg by left.
  rewrite IH; [done|]. intros w Hw. apply Hfg. by right.
Qed.

(** *** The recorded walk against [_unpack_params] *)

Lemma for_positions_forget {A} (f : value T -> option (list (path * A)))
    (g : value T -> option (list A)) vs : forall i ps,
  (forall v qs, v ∈ vs -> f v = Some qs -> g v = Some qs.*2) ->
  for_positions f i vs = Some ps -> for_extend g vs = Some ps.*2.
Proof.
  induction vs as [|v vs IH]; intros i ps Hfg Hps; simpl in *.
  - by simplify_eq.
  - rewrite for_extend_cons.
    destruct (f v) as [qs|] eqn:Hv; simpl in *; [|done].
    destruct (for_positions f (S i) vs) as [rs|] eqn:Hvs; simpl in *; [|done].
    simplify_eq.
    rewrite (Hfg v qs) by (done || left); simpl.
    rewrite (IH (S i) rs); [|intros; apply Hfg; by try right|done]. simpl.
    rewrite fmap_app. f_equal. f_equal.
    rewrite <- list_fmap_compose. by apply list_fmap_ext.
Qed.

Lemma param_positions_forget fuel h : forall v ps,
  param_positions fuel h v = Some ps -> _unpack_params fuel h v = Some ps.*2.
Proof.
  induction fuel as [|fuel IH]; intros v ps Hps; [done|].
  destruct v; simpl in *; try by simplify_eq.
  - destruct (h !! l) as [[]|]; try by simplify_eq. by apply IH.
  - eapply for_positions_forget; [|done]. auto.
  - eapply for_positions_forget; [|done]. auto.
  - eapply for_positions_forget; [|done]. auto.
Qed.

Lemma for_positions_is_Some {A} (f : value T -> option (list (path * A))) vs :
  forall i, Forall (fun v => is_Some (f v)) vs ->
  is_Some (for_positions f i vs).
Proof.
  induction vs as [|v vs IH]; intros i Hvs; simpl; [by eexists|].
  inversion Hvs as [|? ? [qs Hq] Hrest]; subst.
  destruct (IH (S i) Hrest) as [rs Hr]. rewrite Hq, Hr. by eexists.
Qed.

Lemma param_positions_total fuel h : forall n v,
  acyclic h n v -> n < fuel -> is_Some (param_positions fuel h v).
Proof.
  induction fuel as [|fuel IH]; intros n v Hv Hn; [lia|].
  inversion Hv; subst; simpl; try by eexists.
  - rewrite H. by eexists.
  - rewrite H. by eexists.
  - rewrite H. eapply IH; [done|lia].
  - apply for_positions_is_Some. eapply Forall_impl; [done|].
    intros w Hw. eapply IH; [done|lia].
  - apply for_positions_is_Some. eapply Forall_impl; [done|].
    intros w Hw. eapply IH; [done|lia].
  - apply for_positions_is_Some. eapply Forall_impl; [done|].
    intros w Hw. eapply IH; [done|lia].
Qed.

(** More budget changes nothing once the walk succeeds. *)
Lemma for_positions_ext_Some {A} (f g : value T -> option (list (path * A))) vs :
  forall i ps,
  (forall v qs, v ∈ vs -> f v = Some qs -> g v = Some qs) ->
  for_positions f i vs = Some ps -> for_positions g i vs = Some ps.
Proof.
  induction vs as [|v vs IH]; intros i ps Hfg Hps; simpl in *; [done|].
  destruct (f v) as [qs|] eqn:Hv; simpl in *; [|done].
  destruct (for_positions f (S i) vs) as [rs|] eqn:Hvs; simpl in *; [|done].
  rewrite (Hfg v qs) by (done || left); simpl.
  rewrite (IH (S i) rs); [done| |done]. intros; apply Hfg; by try right.
Qed.

Lemma param_positions_mono fuel h : forall fuel' v ps,
  fuel <= fuel' ->
  param_positions fuel h v = Some ps -> param_positions fuel' h v = Some ps.
Proof.
  induction fuel as [|fuel IH]; intros fuel' v ps Hle Hps; [done|].
  destruct fuel' as [|fuel']; [lia|].
  assert (fuel <= fuel') by lia.
  destruct v; simpl in *; try done.
  - destruct (h !! l) as [[]|]; try done. by apply IH.
  - eapply for_positions_ext_Some; [|done]. auto.
  - eapply for_positions_ext_Some; [|done]. auto.
  - eapply for_positions_ext_Some; [|done]. auto.
Qed.

(** *** What the recorded walk lists, and in which order *)

Lemma for_positions_elem {A} (f : value T -> option (list (path * A))) vs :
  forall i ps, for_positions f i vs = Some ps ->
  (forall j v, vs !! j = Some v ->
     exists qs, f v = Some qs /\
       forall p x, (p, x) ∈ qs -> ((i + j) :: p, x) ∈ ps) /\
  (forall p x, (p, x) ∈ ps ->
     exists j v qs p', vs !! j = Some v /\ f v = Some qs /\
       (p', x) ∈ qs /\ p = (i + j) :: p').
Proof.
  induction vs as [|v vs IH]; intros i ps Hps; simpl in *.
  - simplify_eq. split; [done|]. intros p x Hin. by inversion Hin.
  - destruct (f v) as [qs|] eqn:Hv; simpl in *; [|done].
    destruct (for_positions f (S i) vs) as [rs|] eqn:Hvs; simpl in *; [|done].
    simplify_eq. destruct (IH _ _ Hvs) as [IH1 IH2]. split.
    + intros [|j] w Hw; simpl in Hw.
      * simplify_eq. exists qs. split; [done|]. intros p x Hin.
        apply elem_of_app. left. apply list_elem_of_fmap.
        exists (p, x). by rewrite Nat.add_0_r.
      * destruct (IH1 j w Hw) as (qs' & Hq & Hall). exists qs'.
        split; [done|]. intros p x Hin. apply elem_of_app. right.
        replace (i + S j) with (S i + j) by lia. by apply Hall.
    + intros p x Hin. apply elem_of_app in Hin as [Hin|Hin].
      * apply list_elem_of_fmap in Hin as ([p' x'] & Heq & Hin).
        simpl in Heq. simplify_eq.
        exists 0, v, qs, p'. by rewrite Nat.add_0_r.
      * destruct (IH2 p x Hin) as (j & w & qs' & p' & ? & ? & ? & ->).
        exists (S j), w, qs', p'. repeat split; try done. f_equal. lia.
Qed.

Lemma param_positions_elem fuel h : forall v ps,
  param_positions fuel h v = Some ps ->
  forall p x, (p, x) ∈ ps <-> param_at h v p x.
Proof.
  induction fuel as [|fuel IH]; intros v ps Hps p x; [done|].
  assert (Hloop : forall (mk : list (value T) -> value T) vs,
    (forall q y, param_at h (mk vs) q y <->
       exists i w q', vs !! i = Some w /\ param_at h w q' y /\ q = i :: q') ->
    for_positions (param_positions fuel h) 0 vs = Some ps ->
    (p, x) ∈ ps <-> param_at h (mk vs) p x).
  { intros mk vs Hmk Hvs. destruct (for_positions_elem _ _ _ _ Hvs) as [H1 H2].
    rewrite Hmk. split.
    - intros Hin. destruct (H2 p x Hin) as (j & w & qs & p' & ? & Hq & ? & ->).
      exists j, w, p'. repeat split; try done. by eapply IH.
    - intros (i & w & q' & Hw & Hat & ->).
      destruct (H1 i w Hw) as (qs & Hq & Hall).
      apply (Hall q' x). by eapply IH. }
  destruct v; simpl in Hps; simplify_eq;
    try (split; by inversion 1).
  - destruct (h !! l) as [[]|] eqn:Hl; simplify_eq.
    + rewrite list_elem_of_singleton. split.
      * intros ?; simplify_eq. by econstructor.
      * inversion 1; simplify_eq. done.
    + rewrite (IH _ _ Hps). split.
      * intros. by econstructor.
      * inversion 1; simplify_eq. done.
    + split; inversion 1; simplify_eq.
  - apply (Hloop (fun vs => VDict items) (dict_values items)); [|done].
    intros q y. split.
    + inversion 1 as [| |? i k w q' ? Hi Hat| |]; simplify_eq.
      exists i, w, q'. repeat split; try done.
      unfold dict_values. rewrite list_lookup_fmap. by rewrite Hi.
    + intros (i & w & q' & Hw & Hat & ->).
      unfold dict_values in Hw. rewrite list_lookup_fmap in Hw.
      destruct (items !! i) as [[k w']|] eqn:Hi; simplify_eq. simpl in *.
      simplify_eq. by eapply at_dict.
  - apply (Hloop VList items); [|done]. intros q y. split.
    + inversion 1; simplify_eq. by eauto 8.
    + intros (i & w & q' & Hw & Hat & ->). by eapply at_list.
  - apply (Hloop VTuple items); [|done]. intros q y. split.
    + inversion 1; simplify_eq. by eauto 8.
    + intros (i & w & q' & Hw & Hat & ->). by eapply at_tuple.
Qed.

Lemma dfs_before_irrefl p : ~ dfs_before p p.
Proof. induction p; inversion 1; subst; [lia|auto]. Qed.

Lemma for_positions_sorted {A} (f : value T -> option (list (path * A))) vs :
  forall i ps,
  (forall v qs, v ∈ vs -> f v = Some qs -> StronglySorted dfs_before qs.*1) ->
  for_positions f i vs = Some ps ->
  StronglySorted dfs_before ps.*1 /\
  Forall (fun p => exists j p', p = j :: p' /\ i <= j) ps.*1.
Proof.
  induction vs as [|v vs IH]; intros i ps Hf Hps; simpl in *.
  - simplify_eq. split; constructor.
  - destruct (f v) as [qs|] eqn:Hv; simpl in *; [|done].
    destruct (for_positions f (S i) vs) as [rs|] eqn:Hvs; simpl in *; [|done].
    simplify_eq.
    destruct (IH (S i) rs) as [IHs IHb]; [intros; eapply Hf; by try right|done|].
    assert (Hq := Hf v qs ltac:(left) Hv).
    rewrite fmap_app, <- list_fmap_compose. split.
    + apply StronglySorted_app; repeat split; [| |done].
      * intros p q Hp Hin. apply list_elem_of_fmap in Hp as ([p0 a] & -> & _).
        rewrite Forall_forall in IHb.
        destruct (IHb q Hin) as (j & q' & -> & Hle). simpl.
        constructor. lia.
      * clear -Hq. induction qs as [|[p0 a] qs IHq]; simpl in *; [constructor|].
        apply StronglySorted_cons in Hq as [Hall Hq].
        apply StronglySorted_cons. split; [|by apply IHq].
        rewrite Forall_fmap in Hall |- *.
        eapply Forall_impl; [exact Hall|]. intros [q b] Hlt; simpl in *.
        by constructor.
    + apply Forall_app. split.
      * apply Forall_fmap, Forall_forall. intros [p0 a] _; simpl. eauto.
      * eapply Forall_impl; [exact IHb|]. intros p (j & p' & -> & Hle).
        exists j, p'. split; [done|lia].
Qed.

Lemma param_positions_sorted fuel h : forall v ps,
  param_positions fuel h v = Some ps -> StronglySorted dfs_before ps.*1.
Proof.
  induction fuel as [|fuel IH]; intros v ps Hps; [done|].
  destruct v; simpl in Hps; simplify_eq; try by constructor.
  - destruct (h !! l) as [[]|]; simplify_eq.
    + repeat constructor.
    + by eapply IH.
    + constructor.
  - eapply for_positions_sorted; [|done]. eauto.
  - eapply for_positions_sorted; [|done]. eauto.
  - eapply for_positions_sorted; [|done]. eauto.
Qed.

Lemma sorted_NoDup (ps : list path) :
  StronglySorted dfs_before ps -> NoDup ps.
Proof.
  induction ps as [|p ps IH]; [constructor|].
  intros [Hall Hs]%StronglySorted_cons. constructor; [|auto].
  intros Hin. rewrite Forall_forall in Hall.
  by apply (dfs_before_irrefl p), Hall.
Qed.

(** C1.  On a module tree (live references, no ownership cycle),
    [parameters()] returns, for any sufficient recursion budget, one and the
    same sequence: it lists exactly the Parameter leaves found below the
    module's attribute dictionary, one entry per leaf position (nothing but
    Parameters is listed), in depth-first order, attributes in declaration
    order and dict, list and tuple elements in their own order.  When no
    Parameter object sits at two positions, no Parameter is listed twice. *)
Theorem parameters_depth_first_once h self n :
  acyclic h n (VRef self) ->
  is_Some (self_dict h self) ->
  exists ps : list (path * loc),
    (forall fuel, n <= fuel -> parameters fuel h self = Some ps.*2) /\
    (forall p x, (p, x) ∈ ps <-> param_at h (VRef self) p x) /\
    StronglySorted dfs_before ps.*1 /\
    NoDup ps.*1 /\
    ((forall x p q, param_at h (VRef self) p x ->
        param_at h (VRef self) q x -> p = q) ->
     NoDup ps.*2).
Proof.
  intros Hwf [attrs Hself]. unfold self_dict in Hself.
  destruct (h !! self) as [[]|] eqn:Hl; simplify_eq.
  inversion Hwf as [| | | | | | |n' ? ? attrs' Hl' Hattrs| | |]; simplify_eq.
  destruct (param_positions_total (S n') h n' (VDict attrs) Hattrs) as [ps Hps];
    [lia|].
  assert (Hat : forall p x, (p, x) ∈ ps <-> param_at h (VRef self) p x).
  { intros p x. rewrite (param_positions_elem _ _ _ _ Hps). split.
    - intros. by eapply at_module.
    - inversion 1; simplify_eq. done. }
  assert (Hsorted := param_positions_sorted _ _ _ _ Hps).
  assert (Hnodup := sorted_NoDup _ Hsorted).
  exists ps. repeat split; try done.
  - intros fuel Hfuel. unfold parameters, self_dict. rewrite Hl. simpl.
    apply param_positions_forget.
    eapply param_positions_mono; [|exact Hps]. lia.
  - by apply Hat.
  - by apply Hat.
  - intros Huniq. apply NoDup_fmap_2_strong; [|by eapply NoDup_fmap_1].
    intros [p x] [q y] Hp Hq; simpl; intros <-.
    f_equal. eapply Huniq; by apply Hat.
Qed.

(** *** Attribute dictionaries *)

Lemma dict_get_set_eq k (x : value T) d : dict_get k (dict_set k x d) = Some x.
Proof.
  induction d as [|[k' y] d IH]; simpl.
  - by rewrite decide_True.
  - destruct (decide (k = k')); simpl.
    + by rewrite decide_True.
    + by rewrite decide_False.
Qed.

Lemma dict_get_set_ne k k' (x : value T) d :
  k <> k' -> dict_get k' (dict_set k x d) = dict_get k' d.
Proof.
  intros Hne. induction d as [|[k'' y] d IH]; simpl.
  - by rewrite decide_False.
  - destruct (decide (k = k'')); simpl; subst.
    + by rewrite !decide_False.
    + destruct (decide (k' = k'')); done.
Qed.

Lemma dict_set_idemp k (x : value T) d :
  dict_set k x (dict_set k x d) = dict_set k x d.
Proof.
  induction d as [|[k' y] d IH]; simpl.
  - by rewrite decide_True.
  - destruct (decide (k = k')); simpl.
    + by rewrite decide_True.
    + rewrite decide_False by done. by rewrite IH.
Qed.

Lemma with_training_idemp b (o : object T) :
  with_training b (with_training b o) = with_training b o.
Proof. destruct o; simpl; [done| |done]. by rewrite dict_set_idemp. Qed.

Lemma for_extend_dict_set {A} (g : value T -> option (list A)) k b b0 d :
  dict_get k d = Some (VBool b0) ->
  g (VBool b) = g (VBool b0) ->
  for_extend g (dict_values (dict_set k (VBool b) d))
  = for_extend g (dict_values d).
Proof.
  intros Hget Hg. unfold dict_values.
  induction d as [|[k' y] d IH]; simpl in *; [done|].
  destruct (decide (k = k')); simpl; rewrite !for_extend_cons; simplify_eq.
  - by rewrite Hg.
  - by rewrite IH.
Qed.

(** *** [_child_modules] *)

Lemma for_extend_elem {A} (f : value T -> option (list A)) vs : forall ps,
  for_extend f vs = Some ps ->
  (forall v, v ∈ vs -> exists qs, f v = Some qs /\ qs ⊆ ps) /\
  (forall x, x ∈ ps -> exists v qs, v ∈ vs /\ f v = Some qs /\ x ∈ qs).
Proof.
  induction vs as [|v vs IH]; intros ps Hps.
  - rewrite for_extend_nil in Hps. simplify_eq.
    split; intros ? Hin; by inversion Hin.
  - rewrite for_extend_cons in Hps.
    destruct (f v) as [qs|] eqn:Hv; simpl in *; [|done].
    destruct (for_extend f vs) as [rs|] eqn:Hvs; simpl in *; [|done].
    simplify_eq. destruct (IH rs eq_refl) as [IH1 IH2]. split.
    + intros w [->|Hw]%elem_of_cons.
      * exists qs. split; [done|]. intros y Hy. apply elem_of_app. by left.
      * destruct (IH1 w Hw) as (qs' & ? & Hsub). exists qs'. split; [done|].
        intros y Hy. apply elem_of_app. right. by apply Hsub.
    + intros x [Hx|Hx]%elem_of_app.
      * exists v, qs. split; [left|done].
      * destruct (IH2 x Hx) as (w & qs' & ? & ? & ?).
        exists w, qs'. split; [by right|done].
Qed.

Lemma for_extend_is_Some {A} (f : value T -> option (list A)) vs :
  Forall (fun v => is_Some (f v)) vs -> is_Some (for_extend f vs).
Proof.
  induction vs as [|v vs IH]; intros Hvs; [by eexists|].
  inversion Hvs as [|? ? [qs Hq] Hrest]; subst.
  destruct (IH Hrest) as [rs Hr].
  rewrite for_extend_cons, Hq, Hr. by eexists.
Qed.

Lemma child_modules_total fuel h : forall n v,
  acyclic h n v -> n < fuel -> is_Some (_child_modules fuel h v).
Proof.
  induction fuel as [|fuel IH]; intros n v Hv Hn; [lia|].
  inversion Hv; subst; simpl; try by eexists.
  - rewrite H. by eexists.
  - rewrite H. by eexists.
  - rewrite H. destruct (IH n0 (VDict attrs)) as [ms ->]; [done|lia|].
    by eexists.
  - apply for_extend_is_Some. eapply Forall_impl; [done|].
    intros w Hw. eapply IH; [done|lia].
  - apply for_extend_is_Some. eapply Forall_impl; [done|].
    intros w Hw. eapply IH; [done|lia].
  - apply for_extend_is_Some. eapply Forall_impl; [done|].
    intros w Hw. eapply IH; [done|lia].
Qed.

Lemma child_modules_elem fuel h : forall v ms,
  _child_modules fuel h v = Some ms ->
  forall m, m ∈ ms <-> module_in h v m.
Proof.
  induction fuel as [|fuel IH]; intros v ms Hms m; [done|].
  assert (Hloop : forall (u : value T) vs,
    (forall x, module_in h u x <-> exists w, w ∈ vs /\ module_in h w x) ->
    for_extend (_child_modules fuel h) vs = Some ms ->
    m ∈ ms <-> module_in h u m).
  { intros u vs Hu Hvs. destruct (for_extend_elem _ _ _ Hvs) as [H1 H2].
    rewrite Hu. split.
    - intros Hin. destruct (H2 m Hin) as (w & qs & ? & Hq & ?).
      exists w. split; [done|]. by eapply IH.
    - intros (w & Hw & Hin). destruct (H1 w Hw) as (qs & Hq & Hsub).
      apply Hsub. by eapply IH. }
  destruct v; simpl in Hms; simplify_eq; try (split; by inversion 1).
  - destruct (h !! l) as [[]|] eqn:Hl; simplify_eq.
    + split; inversion 1; simplify_eq.
    + destruct (_child_modules fuel h (VDict attrs)) as [ms'|] eqn:Hms';
        simpl in *; simplify_eq.
      rewrite elem_of_cons, (IH _ _ Hms'). split.
      * intros [->|Hin]; [by eapply in_self|by eapply in_attrs].
      * inversion 1; simplify_eq; auto.
    + split; inversion 1; simplify_eq.
  - apply (Hloop (VDict items) (dict_values items)); [|done].
    intros x. split; [inversion 1; simplify_eq; by eauto|].
    intros (w & ? & ?). by eapply in_dict.
  - apply (Hloop (VList items) items); [|done].
    intros x. split; [inversion 1; simplify_eq; by eauto|].
    intros (w & ? & ?). by eapply in_list.
  - apply (Hloop (VTuple items) items); [|done].
    intros x. split; [inversion 1; simplify_eq; by eauto|].
    intros (w & ? & ?). by eapply in_tuple.
Qed.

Lemma child_modules_mono fuel h : forall fuel' v ms,
  fuel <= fuel' ->
  _child_modules fuel h v = Some ms -> _child_modules fuel' h v = Some ms.
Proof.
  induction fuel as [|fuel IH]; intros fuel' v ms Hle Hms; [done|].
  destruct fuel' as [|fuel']; [lia|].
  assert (fuel <= fuel') by lia.
  assert (Hloop : forall vs,
    for_extend (_child_modules fuel h) vs = Some ms ->
    for_extend (_child_modules fuel' h) vs = Some ms).
  { intros vs Hvs. rewrite <- Hvs. symmetry. apply for_extend_ext.
    intros w Hw. destruct (for_extend_elem _ _ _ Hvs) as [H1 _].
    destruct (H1 w Hw) as (qs & Hq & _). rewrite Hq. symmetry. by eapply IH. }
  destruct v; simpl in *; try done; auto.
  destruct (h !! l) as [[]|]; try done.
  destruct (_child_modules fuel h (VDict attrs)) as [ms'|] eqn:Hms';
    simpl in *; simplify_eq.
  by rewrite (IH fuel' _ ms').
Qed.

(** Setting the flag of a module that already carries a boolean flag
    changes no walk. *)
Lemma child_modules_dict_set fuel h k b b0 d :
  dict_get k d = Some (VBool b0) ->
  _child_modules fuel h (VDict (dict_set k (VBool b) d))
  = _child_modules fuel h (VDict d).
Proof.
  intros Hget. destruct fuel as [|fuel]; [done|]. simpl.
  eapply for_extend_dict_set; [done|]. by destruct fuel.
Qed.

Lemma child_modules_set_training fuel h self c d b b0 :
  h !! self = Some (OModule c d) ->
  dict_get "training" d = Some (VBool b0) ->
  forall v,
  _child_modules fuel
    (<[self := OModule c (dict_set "training" (VBool b) d)]> h) v
  = _child_modules fuel h v.
Proof.
  intros Hself Hflag.
  induction fuel as [|fuel IH]; intros v; [done|].
  destruct v; simpl; try done.
  - destruct (decide (l = self)) as [->|Hne].
    + rewrite lookup_insert_eq, Hself, IH.
      by erewrite child_modules_dict_set.
    + rewrite lookup_insert_ne by done.
      destruct (h !! l) as [[]|]; try done. by rewrite IH.
  - apply for_extend_ext. auto.
  - apply for_extend_ext. auto.
  - apply for_extend_ext. auto.
Qed.

(** *** [train()] and [eval()] *)

Lemma module_in_is_module h v m :
  module_in h v m -> exists c d, h !! m = Some (OModule c d).
Proof. induction 1; eauto. Qed.

Lemma for_set_training_spec b ms : forall h,
  (forall m, m ∈ ms -> exists c d, h !! m = Some (OModule c d)) ->
  exists h', for_set_training b ms h = Some h' /\
    forall l, h' !! l
      = if decide (l ∈ ms) then with_training b <$> h !! l else h !! l.
Proof.
  induction ms as [|m ms IH]; intros h Hms.
  - exists h. split; [done|]. intros l. rewrite decide_False; [done|].
    by inversion 1.
  - destruct (Hms m) as (c & d & Hm); [left|].
    unfold for_set_training; simpl. unfold set_training at 2. rewrite Hm.
    set (h2 := <[m := OModule c (dict_set "training" (VBool b) d)]> h).
    destruct (IH h2) as (h' & Hh' & Hlook).
    { intros m' Hm'. destruct (decide (m' = m)) as [->|Hne].
      - unfold h2. rewrite lookup_insert_eq. eauto.
      - unfold h2. rewrite lookup_insert_ne by done. apply Hms. by right. }
    exists h'. split; [exact Hh'|]. intros l. rewrite Hlook.
    destruct (decide (l = m)) as [->|Hne].
    + unfold h2. rewrite lookup_insert_eq, Hm.
      rewrite (decide_True (P := m ∈ m :: ms)) by left.
      destruct (decide (m ∈ ms)); simpl; [|done].
      by rewrite dict_set_idemp.
    + unfold h2. rewrite lookup_insert_ne by done.
      destruct (decide (l ∈ ms)).
      * rewrite decide_True; [done|by right].
      * rewrite decide_False; [done|]. by intros [?|?]%elem_of_cons.
Qed.

Lemma set_mode_spec b fuel h self n c attrs b0 :
  acyclic h n (VRef self) ->
  h !! self = Some (OModule c attrs) ->
  dict_get "training" attrs = Some (VBool b0) ->
  n <= fuel ->
  exists h',
    (h1 ← set_training b h self; ms ← _children fuel h1 self;
     for_set_training b ms h1) = Some h' /\
    (forall m, module_in h (VRef self) m ->
       h' !! m = with_training b <$> h !! m) /\
    (forall l, ~ module_in h (VRef self) l -> h' !! l = h !! l) /\
    (forall l, module_in h (VRef self) l \/ ~ module_in h (VRef self) l).
Proof.
  intros Hwf Hself Hflag Hfuel.
  inversion Hwf as [| | | | | | |n' ? ? attrs' Hl' Hattrs| | |]; simplify_eq.
  destruct (child_modules_total (S n') h n' (VDict attrs) Hattrs) as [ms Hms];
    [lia|].
  apply (child_modules_mono _ _ fuel) in Hms; [|lia].
  unfold set_training at 1. rewrite Hself. simpl.
  set (h1 := <[self := OModule c (dict_set "training" (VBool b) attrs)]> h).
  assert (Hch : _children fuel h1 self = Some ms).
  { unfold _children, self_dict, h1. rewrite lookup_insert_eq. simpl.
    erewrite child_modules_set_training by done.
    by erewrite child_modules_dict_set. }
  rewrite Hch. simpl.
  assert (Hin : forall m, m ∈ ms <-> module_in h (VDict attrs) m)
    by (by apply child_modules_elem with (fuel := fuel)).
  destruct (for_set_training_spec b ms h1) as (h' & Hh' & Hlook).
  { intros m Hm. apply Hin, module_in_is_module in Hm as (c' & d' & Hm).
    destruct (decide (m = self)) as [->|Hne].
    - unfold h1. rewrite lookup_insert_eq. eauto.
    - unfold h1. rewrite lookup_insert_ne by done. eauto. }
  assert (Hdesc : forall m, module_in h (VRef self) m <-> m = self \/ m ∈ ms).
  { intros m. rewrite Hin. split.
    - inversion 1; simplify_eq; auto.
    - intros [->|Hm]; [by eapply in_self|by eapply in_attrs]. }
  exists h'. split; [exact Hh'|]. split; [|split].
  - intros m Hm. rewrite Hlook. apply Hdesc in Hm.
    destruct (decide (m = self)) as [->|Hne].
    + unfold h1. rewrite lookup_insert_eq, Hself.
      destruct (decide (self ∈ ms)); simpl; [|done].
      by rewrite dict_set_idemp.
    + unfold h1. rewrite lookup_insert_ne by done.
      destruct Hm as [?|Hm]; [done|]. by rewrite decide_True.
  - intros l Hl. rewrite Hlook.
    assert (l <> self /\ l ∉ ms) as [Hne Hnin].
    { split; intros ?; apply Hl, Hdesc; auto. }
    rewrite decide_False by done. unfold h1. by rewrite lookup_insert_ne.
  - intros l. destruct (decide (l = self)) as [->|Hne].
    + left. apply Hdesc. by left.
    + destruct (decide (l ∈ ms)) as [Hl|Hl].
      * left. apply Hdesc. by right.
      * right. intros [?|?]%Hdesc; done.
Qed.

(** *** Calling a Module that has no [forward] *)

(** C9.  Calling an instance of the base class [Module] that carries no
    [forward] of its own fails at once, whatever the arguments: the lookup
    of [forward] raises (AttributeError: the operation is not there), no
    body is run, and the outcome is that exception, not a result. *)
Theorem call_without_forward_raises {Args Res : Type}
    (run : callee T -> heap T -> loc -> Args -> exn + (heap T * Res))
    h self attrs (args : Args) :
  h !! self = Some (OModule C_Module attrs) ->
  dict_get "forward" attrs = None ->
  __call__ run h self args = Some (inl (AttributeError C_Module "forward")).
Proof.
  intros Hself Hnone. unfold __call__, getattr_forward.
  by rewrite Hself, Hnone.
Qed.

End Walks.

(** *** Mode-dependent layers after a mode switch *)

Section Modes.
Import Tensor.
Context {F : Type} `{Substrate F}.
Implicit Types (h : heap (tensor F)) (m l : loc).

Lemma load_vec_with_training h h' v :
  (forall l, h' !! l = h !! l \/ exists b, h' !! l = with_training b <$> h !! l) ->
  BatchNorm1d.load_vec h' v = BatchNorm1d.load_vec h v.
Proof.
  intros Hh. destruct v as [[]|]; simpl; try done.
  destruct (Hh l) as [->|[b ->]]; [done|].
  by destruct (h !! l) as [[]|].
Qed.

Lemma Dropout_load_with_training h h' m b d :
  h' !! m = with_training b <$> h !! m ->
  Dropout.load h m = Some d ->
  Dropout.load h' m = Some (Dropout.mk b (Dropout.p d)).
Proof.
  unfold Dropout.load. intros ->.
  destruct (h !! m) as [[|c attrs|]|]; simpl; try done.
  destruct c; try done.
  rewrite dict_get_set_eq, dict_get_set_ne by done.
  destruct (dict_get "training" attrs) as [[]|]; try done.
  destruct (dict_get "p" attrs) as [[]|]; try done.
  by intros [= <-].
Qed.

Lemma BatchNorm1d_load_with_training h h' m b s :
  (forall l, h' !! l = h !! l \/ exists b, h' !! l = with_training b <$> h !! l) ->
  h' !! m = with_training b <$> h !! m ->
  BatchNorm1d.load h m = Some s ->
  BatchNorm1d.load h' m
  = Some (BatchNorm1d.mk b (BatchNorm1d.dim s) (BatchNorm1d.eps s)
            (BatchNorm1d.momentum s) (BatchNorm1d.weight s)
            (BatchNorm1d.bias s) (BatchNorm1d.running_mean s)
            (BatchNorm1d.running_var s)).
Proof.
  unfold BatchNorm1d.load. intros Hh ->.
  destruct (h !! m) as [[|c attrs|]|]; simpl; try done.
  destruct (BatchNorm1d.is_instance c); [|done].
  rewrite dict_get_set_eq, !(dict_get_set_ne "training") by done.
  rewrite !(load_vec_with_training h h') by done.
  destruct (dict_get "training" attrs) as [[]|]; try done.
  destruct (dict_get "dim" attrs) as [[]|]; try done.
  destruct (dict_get "eps" attrs) as [[]|]; try done.
  destruct (dict_get "momentum" attrs) as [[]|]; try done.
  destruct (BatchNorm1d.load_vec h (dict_get "weight" attrs)); try done.
  destruct (BatchNorm1d.load_vec h (dict_get "bias" attrs)); try done.
  destruct (BatchNorm1d.load_vec h (dict_get "running_mean" attrs)); try done.
  destruct (BatchNorm1d.load_vec h (dict_get "running_var" attrs)); try done.
  simpl. by intros [= <-].
Qed.

(** C2.  On a module tree whose root carries its boolean flag, [train()]
    (resp. [eval()]) returns, and afterwards the receiver and every Module
    below it, at any depth and through dicts, lists and tuples, has
    [training] true (resp. false), every other attribute and the class of
    these Modules being as before, and every other object of the store
    untouched.  A Dropout, BatchNorm1d or BatchNorm2d among them then runs
    its next [forward] in the new mode: Dropout masks and rescales after
    [train()] and is the identity after [eval()]; the batch normalizations
    normalize with the batch statistics and store new running statistics
    after [train()], and normalize with the stored ones, leaving the store
    alone, after [eval()]. *)
Theorem train_eval_reach_every_module h self n c attrs b0 fuel (b : bool) :
  acyclic h n (VRef self) ->
  h !! self = Some (OModule c attrs) ->
  dict_get "training" attrs = Some (VBool b0) ->
  n <= fuel ->
  exists h',
    (if b then train fuel h self else eval fuel h self) = Some h' /\
    (forall m c' attrs', module_in h (VRef self) m ->
       h !! m = Some (OModule c' attrs') ->
       exists attrs'', h' !! m = Some (OModule c' attrs'') /\
         dict_get "training" attrs'' = Some (VBool b) /\
         forall k, k <> "training" -> dict_get k attrs'' = dict_get k attrs') /\
    (forall l, ~ module_in h (VRef self) l -> h' !! l = h !! l) /\
    (forall m d randb x, module_in h (VRef self) m ->
       Dropout.load h m = Some d ->
       Dropout.call randb h' m x
       = Some (if b
               then tmap (fun a => fdiv a (of_Q (1 - Dropout.p d)%Q))
                      (tzip fmul (randb (tshape x) (1 - Dropout.p d)%Q) x)
               else x)) /\
    (forall m s x, module_in h (VRef self) m ->
       BatchNorm1d.load h m = Some s ->
       BatchNorm1d.dim s = ncols x ->
       if b
       then
         BatchNorm1d.call h' m x
         = Some (inr (BatchNorm1d.store h' m (BatchNorm1d.after_training s x),
                      BatchNorm1d.normalize s x (BatchNorm1d.batch_mean x)
                        (BatchNorm1d.batch_var x)))
       else
         BatchNorm1d.call h' m x
         = Some (inr (h',
                      BatchNorm1d.normalize s x (BatchNorm1d.running_mean s)
                        (BatchNorm1d.running_var s)))) /\
    (forall (T4 : Type) (rows_of : T4 -> mat F) (nchw_of : T4 -> mat F -> T4)
            m s (x : T4),
       module_in h (VRef self) m ->
       BatchNorm1d.load h m = Some s ->
       BatchNorm1d.dim s = ncols (rows_of x) ->
       if b
       then
         BatchNorm2d.call rows_of nchw_of h' m x
         = Some (inr (BatchNorm1d.store h' m
                        (BatchNorm1d.after_training s (rows_of x)),
                      nchw_of x
                        (BatchNorm1d.normalize s (rows_of x)
                           (BatchNorm1d.batch_mean (rows_of x))
                           (BatchNorm1d.batch_var (rows_of x)))))
       else
         BatchNorm2d.call rows_of nchw_of h' m x
         = Some (inr (h',
                      nchw_of x
                        (BatchNorm1d.normalize s (rows_of x)
                           (BatchNorm1d.running_mean s)
                           (BatchNorm1d.running_var s))))).
Proof.
  intros Hwf Hself Hflag Hfuel.
  destruct (set_mode_spec b fuel h self n c attrs b0 Hwf Hself Hflag Hfuel)
    as (h' & Hrun & Hin & Hout & Hdec).
  assert (Hall : forall l,
    h' !! l = h !! l \/ exists b, h' !! l = with_training b <$> h !! l).
  { intros l. destruct (Hdec l) as [Hl|Hl].
    - right. exists b. by apply Hin.
    - left. by apply Hout. }
  exists h'. split; [by destruct b|]. split; [|split; [done|split; [|split]]].
  - intros m c' attrs' Hm Hobj. rewrite (Hin m Hm), Hobj. simpl.
    eexists. split; [done|]. split; [apply dict_get_set_eq|].
    intros k Hk. by apply dict_get_set_ne.
  - intros m d randb x Hm Hd. unfold Dropout.call.
    rewrite (Dropout_load_with_training h h' m b d (Hin m Hm) Hd). simpl.
    unfold Dropout.forward; simpl. by destruct b.
  - intros m s x Hm Hs Hdim. unfold BatchNorm1d.call.
    rewrite (BatchNorm1d_load_with_training h h' m b s Hall (Hin m Hm) Hs).
    simpl. unfold BatchNorm1d.forward; simpl.
    rewrite decide_True by done. by destruct b.
  - intros T4 rows_of nchw_of m s x Hm Hs Hdim. unfold BatchNorm2d.call.
    rewrite (BatchNorm1d_load_with_training h h' m b s Hall (Hin m Hm) Hs).
    simpl. unfold BatchNorm2d.forward, BatchNorm1d.forward; simpl.
    rewrite decide_True by done. by destruct b.
Qed.

End Modes.
End Composite.

(** ** Normalization and dropout *)

Module Layers.
Import Py Tensor TensorFacts.

Section BatchNorm1dFacts.
Context {F : Type} `{Substrate F}.

Lemma batch_mean_lookup (B : mat F) M n j :
  0 < M -> has_shape M n B -> j < n ->
  BatchNorm1d.batch_mean B !! j
  = Some (fdiv (foldl fadd (of_Q 0) (column j B))
            (of_Q (inject_Z (Z.of_nat M)))).
Proof.
  intros HM HB Hj. unfold BatchNorm1d.batch_mean, BatchNorm1d.over, vmap.
  rewrite (has_shape_ncols M n B HB) by lia.
  rewrite map_fmap, list_lookup_fmap, (sum_axis0_lookup B j M n HB Hj).
  unfold nrows. by rewrite (proj1 HB).
Qed.

Lemma batch_var_lookup (B : mat F) M n j mu :
  0 < M -> has_shape M n B -> j < n ->
  BatchNorm1d.batch_mean B !! j = Some mu ->
  BatchNorm1d.batch_var B !! j
  = Some (fdiv (foldl fadd (of_Q 0)
                  (map (fun a => fpow (fsub a mu) 2) (column j B)))
            (of_Q (inject_Z (Z.of_nat M)))).
Proof.
  intros HM HB Hj Hmu. unfold BatchNorm1d.batch_var, BatchNorm1d.over, vmap.
  rewrite (has_shape_ncols M n B HB) by lia.
  unfold nrows. rewrite (proj1 HB).
  rewrite map_fmap, list_lookup_fmap.
  erewrite (sum_axis0_lookup _ j M n); [|
    apply has_shape_mmap, has_shape_mzip; [done|] |done].
  - simpl. by erewrite (column_centred _ B _ j mu M n).
  - assert (Hlen : length (BatchNorm1d.batch_mean B) = n).
    { unfold BatchNorm1d.batch_mean, BatchNorm1d.over, vmap.
      rewrite length_map, (has_shape_ncols M n B HB) by lia.
      by eapply length_sum_axis0. }
    rewrite <- Hlen at 1. apply has_shape_broadcast_rows.
Qed.

Lemma scale_lookup q (v : vec F) j :
  BatchNorm1d.scale q v !! j = (fun a => fmul a (of_Q q)) <$> v !! j.
Proof. unfold BatchNorm1d.scale, vmap. by rewrite map_fmap, list_lookup_fmap. Qed.

Lemma moving_average_lookup q (old new : vec F) j o n :
  old !! j = Some o -> new !! j = Some n ->
  BatchNorm1d.moving_average q old new !! j
  = Some (fadd (fmul o (of_Q (1 - q))) (fmul n (of_Q q))).
Proof.
  intros Ho Hn. unfold BatchNorm1d.moving_average, vzip.
  by rewrite lookup_zip_with, !scale_lookup, Ho, Hn.
Qed.

Lemma normalize_entry (bn : BatchNorm1d.t F) (B : mat F) mean var b j
    x mu v w c :
  b < length B ->
  entry B b j = Some x -> mean !! j = Some mu -> var !! j = Some v ->
  BatchNorm1d.weight bn !! j = Some w -> BatchNorm1d.bias bn !! j = Some c ->
  entry (BatchNorm1d.normalize bn B mean var) b j
  = Some (fadd (fmul w (fdiv (fsub x mu)
                          (fpow (fadd v (of_Q (BatchNorm1d.eps bn))) (1 # 2))))
            c).
Proof.
  intros Hb Hx Hmu Hv Hw Hc. unfold BatchNorm1d.normalize, nrows.
  apply entry_mzip; [|by rewrite entry_broadcast_rows].
  apply entry_mzip; [by rewrite entry_broadcast_rows|].
  apply entry_mzip.
  - apply entry_mzip; [done|by rewrite entry_broadcast_rows].
  - by rewrite entry_mmap, entry_broadcast_rows, Hv.
Qed.

(** C4.  For a batch [B] of shape [(M, dim)], [M >= 1]: the per-feature
    batch mean is the sum of the feature's column over [M], the batch
    variance the sum of its squared deviations from that mean over [M].  In
    training mode one [forward] stores
    [running_mean' = (1-momentum)*running_mean + momentum*mean(B)] and
    [running_var' = (1-momentum)*running_var + momentum*var(B)], feature by
    feature, changes nothing else of the module, and normalizes [B] with the
    batch statistics; in eval mode it normalizes with the stored running
    statistics and returns the module as it was.  Normalizing with
    statistics [mean], [var] gives
    [weight * (x - mean) / (var + eps)**0.5 + bias] in every entry. *)
Theorem BatchNorm1d_forward_statistics (bn : BatchNorm1d.t F) (B : mat F)
    (M : nat) :
  let m := BatchNorm1d.momentum bn in
  let dim := BatchNorm1d.dim bn in
  0 < M ->
  has_shape M dim B ->
  length (BatchNorm1d.running_mean bn) = dim ->
  length (BatchNorm1d.running_var bn) = dim ->
  (forall j, j < dim ->
     exists mu var,
       BatchNorm1d.batch_mean B !! j = Some mu /\
       BatchNorm1d.batch_var B !! j = Some var /\
       mu = fdiv (foldl fadd (of_Q 0) (column j B))
              (of_Q (inject_Z (Z.of_nat M))) /\
       var = fdiv (foldl fadd (of_Q 0)
                     (map (fun a => fpow (fsub a mu) 2) (column j B)))
               (of_Q (inject_Z (Z.of_nat M)))) /\
  (BatchNorm1d.training bn = true ->
   let bn' := BatchNorm1d.after_training bn B in
   BatchNorm1d.forward bn B
   = inr (bn', BatchNorm1d.normalize bn B (BatchNorm1d.batch_mean B)
                 (BatchNorm1d.batch_var B)) /\
   length (BatchNorm1d.running_mean bn') = dim /\
   length (BatchNorm1d.running_var bn') = dim /\
   forall j rm rv mu var,
     BatchNorm1d.running_mean bn !! j = Some rm ->
     BatchNorm1d.running_var bn !! j = Some rv ->
     BatchNorm1d.batch_mean B !! j = Some mu ->
     BatchNorm1d.batch_var B !! j = Some var ->
     BatchNorm1d.running_mean bn' !! j
     = Some (fadd (fmul rm (of_Q (1 - m))) (fmul mu (of_Q m))) /\
     BatchNorm1d.running_var bn' !! j
     = Some (fadd (fmul rv (of_Q (1 - m))) (fmul var (of_Q m)))) /\
  (BatchNorm1d.training bn = false ->
   BatchNorm1d.forward bn B
   = inr (bn, BatchNorm1d.normalize bn B (BatchNorm1d.running_mean bn)
                (BatchNorm1d.running_var bn))) /\
  (forall mean var b j x mu v w c,
     b < M -> entry B b j = Some x ->
     mean !! j = Some mu -> var !! j = Some v ->
     BatchNorm1d.weight bn !! j = Some w ->
     BatchNorm1d.bias bn !! j = Some c ->
     entry (BatchNorm1d.normalize bn B mean var) b j
     = Some (fadd (fmul w (fdiv (fsub x mu)
                             (fpow (fadd v (of_Q (BatchNorm1d.eps bn)))
                                (1 # 2))))
               c)).
Proof.
  intros m dim HM HB Hrm Hrv.
  assert (Hcols : ncols B = dim) by (apply (has_shape_ncols M); [done|lia]).
  assert (Hmean : length (BatchNorm1d.batch_mean B) = dim).
  { unfold BatchNorm1d.batch_mean, BatchNorm1d.over, vmap.
    rewrite length_map, Hcols. by eapply length_sum_axis0. }
  assert (Hvar : length (BatchNorm1d.batch_var B) = dim).
  { unfold BatchNorm1d.batch_var, BatchNorm1d.over, vmap.
    rewrite length_map, Hcols. eapply length_sum_axis0.
    apply has_shape_mmap, has_shape_mzip; [done|].
    unfold nrows. rewrite (proj1 HB), <- Hmean at 1.
    apply has_shape_broadcast_rows. }
  split; [|split; [|split]].
  - intros j Hj. eexists _, _.
    split; [by eapply batch_mean_lookup|].
    split; [eapply batch_var_lookup; try done; by eapply batch_mean_lookup|].
    done.
  - intros Htrain bn'. unfold BatchNorm1d.forward.
    rewrite decide_True by done. rewrite Htrain.
    split; [reflexivity|]. unfold bn'; simpl.
    split; [|split].
    + unfold BatchNorm1d.moving_average, vzip, BatchNorm1d.scale, vmap.
      rewrite length_zip_with, !length_map. fold dim. lia.
    + unfold BatchNorm1d.moving_average, vzip, BatchNorm1d.scale, vmap.
      rewrite length_zip_with, !length_map. fold dim. lia.
    + intros j rm rv mu var Hj1 Hj2 Hj3 Hj4.
      split; by apply moving_average_lookup.
  - intros Heval. unfold BatchNorm1d.forward.
    rewrite decide_True by done. by rewrite Heval.
  - intros mean var b j x mu v w c Hb. apply normalize_entry.
    by rewrite (proj1 HB).
Qed.

End BatchNorm1dFacts.

Section DropoutFacts.
Context {F : Type} `{Substrate F}.

(** C10.  In training mode [forward] is [mask * x / (1 - p)] for whatever
    [p] the module holds: the keep-mask drawn with probability [1 - p],
    times [x], every entry divided by [1 - p], with no test on [p].  The
    divisor is not zero when [0 <= p < 1]; the constructor stores any [p]
    it is given, [p = 1] included, and for [p = 1] the divisor is zero:
    every entry is divided by the cast of [0].  In eval mode the input is
    returned as it is, for every [p]. *)
Theorem Dropout_forward_division (randb : list nat -> Q -> tensor F)
    (d : Dropout.t) (x : tensor F) :
  (Dropout.training d = true ->
   Dropout.forward randb d x
   = tmap (fun a => fdiv a (of_Q (1 - Dropout.p d)%Q))
       (tzip fmul (randb (tshape x) (1 - Dropout.p d)%Q) x)) /\
  ((0 <= Dropout.p d)%Q -> (Dropout.p d < 1)%Q ->
   ~ (1 - Dropout.p d == 0)%Q) /\
  ((Dropout.p d == 1)%Q -> (1 - Dropout.p d == 0)%Q) /\
  (forall p, Dropout.__init__ p = Dropout.mk true p) /\
  Dropout.forward randb (Dropout.__init__ 1) x
  = tmap (fun a => fdiv a (of_Q 0)) (tzip fmul (randb (tshape x) 0%Q) x) /\
  (Dropout.training d = false -> Dropout.forward randb d x = x).
Proof.
  unfold Dropout.forward. repeat split.
  - by intros ->.
  - intros Hge Hlt Hzero. lra.
  - intros Hone. lra.
  - by intros ->.
Qed.

End DropoutFacts.
End Layers.

(** ** The recurrent cells *)

Module Recurrent.
Import Tensor Activation TensorFacts.

Section LSTMCellFacts.
Context {F : Type} `{Substrate F}.

Lemma entry_Sigmoid (A : mat F) b j :
  entry (Sigmoid A) b j = sigmoid <$> entry A b j.
Proof. apply entry_mmap. Qed.

Lemma entry_Tanh (A : mat F) b j : entry (Tanh A) b j = ftanh <$> entry A b j.
Proof. apply entry_mmap. Qed.

Lemma LSTMCell_affine_shape (cell : LSTMCell.t F) X h0 bs :
  LSTMCell.well_shaped cell ->
  length X = bs -> length h0 = bs ->
  has_shape bs (4 * LSTMCell.hidden_size cell) (matmul X (LSTMCell.W_ih cell)) /\
  has_shape bs (4 * LSTMCell.hidden_size cell) (matmul h0 (LSTMCell.W_hh cell)) /\
  has_shape bs (4 * LSTMCell.hidden_size cell) (LSTMCell.affine cell X h0).
Proof.
  intros (Hin & Hih & Hhh & Hbi & Hbh) HX Hh0.
  assert (H1 : has_shape bs (4 * LSTMCell.hidden_size cell)
                 (matmul X (LSTMCell.W_ih cell))).
  { rewrite <- (has_shape_ncols _ _ _ Hih) by lia. by apply has_shape_matmul. }
  assert (H2 : has_shape bs (4 * LSTMCell.hidden_size cell)
                 (matmul h0 (LSTMCell.W_hh cell))).
  { rewrite <- (has_shape_ncols _ _ _ Hhh) by lia. by apply has_shape_matmul. }
  split; [exact H1|]. split; [exact H2|].
  unfold LSTMCell.affine. destruct (LSTMCell.bias cell).
  - apply has_shape_mzip; [by apply has_shape_mzip|].
    unfold nrows. rewrite HX.
    apply has_shape_mzip; [rewrite <- Hbi|rewrite <- Hbh];
      apply has_shape_broadcast_rows.
  - by apply has_shape_mzip.
Qed.

(** C3.  For a cell as the constructor shapes it, an input [X] of shape
    [(bs, input_size)] and states [h0], [c0] of shape [(bs, hidden)]:
    [X@W_ih] and [h0@W_hh] are each [4*hidden] wide and their sum, plus
    both broadcast biases when bias is enabled, is the affine output [A];
    the results [h'], [c'] have shape [(bs, hidden)]; and in every row, for
    every [j < hidden], the input gate reads column [j] of [A], the forget
    gate column [hidden + j], the cell gate column [2*hidden + j] and the
    output gate column [3*hidden + j], with sigmoid on i, f, o and tanh on
    g, giving [c' = f*c0 + i*g] and [h' = o * tanh(c')]. *)
Theorem LSTMCell_forward_gates (cell : LSTMCell.t F) X h0 c0 bs :
  let hs := LSTMCell.hidden_size cell in
  let A := LSTMCell.affine cell X h0 in
  let out := LSTMCell.forward cell X (Some (h0, c0)) in
  LSTMCell.well_shaped cell ->
  has_shape bs (LSTMCell.input_size cell) X ->
  has_shape bs hs h0 ->
  has_shape bs hs c0 ->
  has_shape bs (4 * hs) (matmul X (LSTMCell.W_ih cell)) /\
  has_shape bs (4 * hs) (matmul h0 (LSTMCell.W_hh cell)) /\
  A = (let XW := mzip fadd (matmul X (LSTMCell.W_ih cell))
                   (matmul h0 (LSTMCell.W_hh cell)) in
       if LSTMCell.bias cell
       then mzip fadd XW
              (mzip fadd (broadcast_rows bs (LSTMCell.bias_ih cell))
                 (broadcast_rows bs (LSTMCell.bias_hh cell)))
       else XW) /\
  has_shape bs (4 * hs) A /\
  has_shape bs hs out.1 /\
  has_shape bs hs out.2 /\
  forall b j ai af ag ao c,
    j < hs ->
    entry A b j = Some ai ->
    entry A b (hs + j) = Some af ->
    entry A b (2 * hs + j) = Some ag ->
    entry A b (3 * hs + j) = Some ao ->
    entry c0 b j = Some c ->
    let i := sigmoid ai in
    let f := sigmoid af in
    let g := ftanh ag in
    let o := sigmoid ao in
    entry out.2 b j = Some (fadd (fmul f c) (fmul i g)) /\
    entry out.1 b j = Some (fmul o (ftanh (fadd (fmul f c) (fmul i g)))).
Proof.
  intros hs A out Hcell [HX HXrows] Hh0 Hc0.
  destruct (LSTMCell_affine_shape cell X h0 bs Hcell HX (proj1 Hh0))
    as (H1 & H2 & HA).
  fold hs in H1, H2, HA. fold A in HA.
  assert (Hchunk : forall c, c < 4 ->
    nth c (split_chunks 4 hs A) [] = map (chunk hs c) A
    /\ has_shape bs hs (map (chunk hs c) A)).
  { intros c Hc. split; [by apply split_chunks_nth|].
    eapply has_shape_chunk; [exact HA|]. nia. }
  destruct (Hchunk 0) as [E0 S0]; [lia|].
  destruct (Hchunk 1) as [E1 S1]; [lia|].
  destruct (Hchunk 2) as [E2 S2]; [lia|].
  destruct (Hchunk 3) as [E3 S3]; [lia|].
  assert (Hout : out =
    (let i := Sigmoid (map (chunk hs 0) A) in
     let f := Sigmoid (map (chunk hs 1) A) in
     let g := Tanh (map (chunk hs 2) A) in
     let o := Sigmoid (map (chunk hs 3) A) in
     let c_out := mzip fadd (mzip fmul f c0) (mzip fmul i g) in
     (mzip fmul o (Tanh c_out), c_out))).
  { unfold out, LSTMCell.forward, LSTMCell.forward_from. cbv zeta.
    fold hs. fold A. by rewrite E0, E1, E2, E3. }
  assert (Hc' : has_shape bs hs out.2).
  { rewrite Hout. cbv zeta. cbn [fst snd].
    apply has_shape_mzip; apply has_shape_mzip; try done;
      by apply has_shape_mmap. }
  split; [exact H1|]. split; [exact H2|]. split.
  { unfold A, LSTMCell.affine, nrows. rewrite HX. by destruct (LSTMCell.bias cell). }
  split; [exact HA|]. split.
  { rewrite Hout. cbv zeta. cbn [fst snd].
    apply has_shape_mzip; [by apply has_shape_mmap|].
    apply has_shape_mmap. rewrite Hout in Hc'. exact Hc'. }
  split; [exact Hc'|].
  intros b j ai af ag ao c Hj Hi Hf Hg Ho Hc i f g o.
  assert (Ec : entry out.2 b j = Some (fadd (fmul f c) (fmul i g))).
  { rewrite Hout. cbv zeta. cbn [fst snd].
    apply entry_mzip; apply entry_mzip; try done.
    - rewrite entry_Sigmoid, entry_chunk by done.
      replace (1 * hs + j) with (hs + j) by lia. by rewrite Hf.
    - rewrite entry_Sigmoid, entry_chunk by done.
      simpl. by rewrite Hi.
    - rewrite entry_Tanh, entry_chunk by done. by rewrite Hg. }
  split; [exact Ec|].
  rewrite Hout in Ec |- *. cbv zeta in Ec |- *. cbn [fst snd] in Ec |- *.
  apply entry_mzip.
  - rewrite entry_Sigmoid, entry_chunk by done. by rewrite Ho.
  - rewrite entry_Tanh. by rewrite Ec.
Qed.

End LSTMCellFacts.
Section Defaulting.
Context {F : Type} `{Substrate F} `{Truth F}.

Lemma tensor_or_mat (h : mat F) m n :
  falsy_only_zero -> has_shape m n h ->
  tensor_or Mat (Some h) (zeros m n) = h.
Proof.
  intros Hz Hh. unfold tensor_or.
  destruct (Tensor_bool (Mat h)) eqn:Hb; [done|].
  symmetry. apply zero_mat_is_zeros; [done|]. exact (Hz _ Hb).
Qed.

Lemma tensor_or_cube1 (h : mat F) m n :
  falsy_only_zero -> has_shape m n h ->
  tensor_or Cube (Some [h]) (zeros3 1 m n) = [h].
Proof.
  intros Hz Hh. unfold tensor_or.
  destruct (Tensor_bool (Cube [h])) eqn:Hb; [done|].
  apply Hz in Hb. simpl in Hb. inversion Hb; subst.
  unfold zeros3; simpl. f_equal. symmetry. by apply zero_mat_is_zeros.
Qed.

(** C7.  When no state is passed, RNNCell, GRUCell and LSTMCell compute
    from the all-zero state of shape [(bs, hidden)] (a pair of them for
    LSTMCell).  When a state of that shape is passed, it is the state the
    update is computed from, an all-zero one included: a tensor that
    [h or zeros(...)] takes for false is all-zero, so that the zeros put in
    its place are the very values passed; LSTMCell receives a pair, which
    is never false. *)
Theorem cell_state_defaulting (rc : RNNCell.t F) (gc : GRUCell.t F)
    (lc : LSTMCell.t F) (X h c : mat F) (bs : nat) :
  falsy_only_zero ->
  length X = bs ->
  (RNNCell.forward rc X None
   = RNNCell.forward_from rc X (zeros bs (RNNCell.hidden_size rc)) /\
   GRUCell.forward gc X None
   = GRUCell.forward_from gc X (zeros bs (GRUCell.hidden_size gc)) /\
   LSTMCell.forward lc X None
   = LSTMCell.forward_from lc X (zeros bs (LSTMCell.hidden_size lc))
       (zeros bs (LSTMCell.hidden_size lc))) /\
  (has_shape bs (RNNCell.hidden_size rc) h ->
   RNNCell.forward rc X (Some h) = RNNCell.forward_from rc X h) /\
  (has_shape bs (GRUCell.hidden_size gc) h ->
   GRUCell.forward gc X (Some h) = GRUCell.forward_from gc X h) /\
  LSTMCell.forward lc X (Some (h, c)) = LSTMCell.forward_from lc X h c.
Proof.
  intros Hz HX. repeat split.
  - unfold RNNCell.forward, tensor_or, nrows. by rewrite HX.
  - unfold GRUCell.forward, tensor_or, nrows. by rewrite HX.
  - unfold LSTMCell.forward, nrows. by rewrite HX.
  - intros Hh. unfold RNNCell.forward, nrows. rewrite HX.
    by rewrite tensor_or_mat.
  - intros Hh. unfold GRUCell.forward, nrows. rewrite HX.
    by rewrite tensor_or_mat.
Qed.

(** *** One layer against the cell applied timestep by timestep *)

Lemma foldl_over_time {S : Type} (cell : mat F -> S -> S) (hidden : S -> mat F)
    (X : list (mat F)) : forall (acc : list (mat F)) (s : S),
  foldl (fun '(out, s) X_t => let s' := cell X_t s in (out ++ [hidden s'], s'))
    (acc, s) X
  = (acc ++ (timestep_by_timestep cell hidden X s).1,
     (timestep_by_timestep cell hidden X s).2).
Proof.
  induction X as [|X_t X IH]; intros acc s; simpl.
  - by rewrite app_nil_r.
  - rewrite IH.
    destruct (timestep_by_timestep cell hidden X (cell X_t s)) as [ys s_n].
    simpl. by rewrite <- app_assoc.
Qed.

Lemma foldl_pointwise {A B : Type} (f g : A -> B -> A) (l : list B) :
  (forall a x, f a x = g a x) -> forall a, foldl f a l = foldl g a l.
Proof.
  intros Hfg. induction l as [|x l IH]; intros a; simpl; [done|].
  by rewrite Hfg, IH.
Qed.

Lemma RNN_over_time cell (X : list (mat F)) h :
  RNN.over_time cell X h
  = timestep_by_timestep (fun X_t h => RNNCell.forward cell X_t (Some h))
      id X h.
Proof.
  unfold RNN.over_time.
  rewrite (surjective_pairing (timestep_by_timestep _ _ X h)).
  rewrite <- (app_nil_l (timestep_by_timestep _ _ X h).1).
  rewrite <- (foldl_over_time
                (fun X_t h => RNNCell.forward cell X_t (Some h)) id).
  apply foldl_pointwise. by intros [out h1] X_t.
Qed.

Lemma GRU_over_time cell (X : list (mat F)) h :
  GRU.over_time cell X h
  = timestep_by_timestep (fun X_t h => GRUCell.forward cell X_t (Some h))
      id X h.
Proof.
  unfold GRU.over_time.
  rewrite (surjective_pairing (timestep_by_timestep _ _ X h)).
  rewrite <- (app_nil_l (timestep_by_timestep _ _ X h).1).
  rewrite <- (foldl_over_time
                (fun X_t h => GRUCell.forward cell X_t (Some h)) id).
  apply foldl_pointwise. by intros [out h1] X_t.
Qed.

Lemma LSTM_over_time cell (X : list (mat F)) h c :
  LSTM.over_time cell X h c
  = timestep_by_timestep
      (fun X_t (s : mat F * mat F) => LSTMCell.forward cell X_t (Some s))
      fst X (h, c).
Proof.
  unfold LSTM.over_time.
  rewrite (surjective_pairing (timestep_by_timestep _ _ X (h, c))).
  rewrite <- (app_nil_l (timestep_by_timestep _ _ X (h, c)).1).
  rewrite <- (foldl_over_time
    (fun X_t (s : mat F * mat F) => LSTMCell.forward cell X_t (Some s)) fst).
  apply foldl_pointwise. intros [out [h1 c1]] X_t. cbv zeta.
  by destruct (LSTMCell.forward cell X_t (Some (h1, c1))).
Qed.

Lemma batch_of_first (X : cube F) bs n :
  X <> [] -> Forall (has_shape bs n) X -> nrows (hd [] X) = bs.
Proof.
  intros HX Hall. destruct X as [|X_0 X]; [done|]. simpl.
  inversion Hall as [|? ? [Hlen _] _]; subst. done.
Qed.

(** C5.  Built with [num_layers=1], RNN, GRU and LSTM return what their
    single cell returns when applied timestep by timestep: on a sequence
    [X] of [seq_len >= 1] inputs of shape [(bs, input_size)], started from
    the state passed (one layer of shape [(bs, hidden_size)]; a pair of
    them for LSTM) or, when none is passed, from zeros, [output] is the
    sequence of hidden states after each timestep, in time order, and the
    final state is the state after the last timestep (as a one-layer
    stack). *)
Theorem one_layer_is_cell_over_time
    (rnn_cell : nat -> nat -> RNNCell.t F)
    (gru_cell : nat -> nat -> GRUCell.t F)
    (lstm_cell : nat -> nat -> LSTMCell.t F)
    (input_size hidden_size bs : nat) (X : cube F)
    (h0 : option (mat F)) (hc0 : option (mat F * mat F)) :
  let start := default (zeros bs hidden_size) h0 in
  let start2 := default (zeros bs hidden_size, zeros bs hidden_size) hc0 in
  let by_rnn_cell :=
    timestep_by_timestep
      (fun X_t h => RNNCell.forward (rnn_cell 0 input_size) X_t (Some h))
      id X start in
  let by_gru_cell :=
    timestep_by_timestep
      (fun X_t h => GRUCell.forward (gru_cell 0 input_size) X_t (Some h))
      id X start in
  let by_lstm_cell :=
    timestep_by_timestep
      (fun X_t s => LSTMCell.forward (lstm_cell 0 input_size) X_t (Some s))
      fst X start2 in
  falsy_only_zero ->
  X <> [] ->
  Forall (has_shape bs input_size) X ->
  (forall h, h0 = Some h -> has_shape bs hidden_size h) ->
  RNN.forward (RNN.__init__ rnn_cell input_size hidden_size 1) X
    ((fun h => [h]) <$> h0)
  = (by_rnn_cell.1, [by_rnn_cell.2]) /\
  GRU.forward (GRU.__init__ gru_cell input_size hidden_size 1) X
    ((fun h => [h]) <$> h0)
  = (by_gru_cell.1, [by_gru_cell.2]) /\
  LSTM.forward (LSTM.__init__ lstm_cell input_size hidden_size 1) X
    ((fun hc => ([hc.1], [hc.2])) <$> hc0)
  = (by_lstm_cell.1, ([by_lstm_cell.2.1], [by_lstm_cell.2.2])).
Proof.
  intros start start2 by_rnn by_gru by_lstm Hz HX Hshape Hh0.
  assert (Hbs := batch_of_first X bs input_size HX Hshape).
  assert (Hstart :
    tensor_or Cube ((fun h => [h]) <$> h0) (zeros3 1 bs hidden_size) = [start]).
  { unfold start. destruct h0 as [h|]; simpl; [|done].
    apply tensor_or_cube1; auto. }
  split; [|split].
  - unfold RNN.forward, RNN.__init__. cbn [RNN.num_layers RNN.hidden_size RNN.rnn_cells].
    rewrite Hbs, Hstart. simpl. rewrite RNN_over_time. fold by_rnn.
    by destruct by_rnn.
  - unfold GRU.forward, GRU.__init__. cbn [GRU.num_layers GRU.hidden_size GRU.gru_cells].
    rewrite Hbs, Hstart. simpl. rewrite GRU_over_time. fold by_gru.
    by destruct by_gru.
  - unfold LSTM.forward, LSTM.__init__.
    cbn [LSTM.num_layers LSTM.hidden_size LSTM.lstm_cells].
    rewrite Hbs. unfold by_lstm, start2.
    destruct hc0 as [[h c]|]; simpl; rewrite LSTM_over_time;
      by destruct (timestep_by_timestep _ fst X _) as [out [h_n c_n]].
Qed.

End Defaulting.
End Recurrent.

(** ** Conv: spatial extents *)

Module ConvFacts.
Import Conv.
Open Scope Z_scope.

(** C6 as stated fails: with [stride=1] and an even [kernel_size] the
    padding [kernel_size // 2] makes each spatial extent one larger.  Here
    a 4x4 input and [kernel_size=2] give a 5x5 output. *)
Lemma Conv_even_kernel_grows :
  spatial (forward_shape (__init__ 3 8 (Int 2) (Int 1) true) [1; 3; 4; 4]) = (5, 5)
  /\ ~ (forall (self : Conv.t) (N C H W : Z),
          stride self = 1 -> 0 < kernel_size self ->
          0 < N -> 0 < C -> 0 < H -> 0 < W ->
          spatial (forward_shape self [N; C; H; W]) = (H, W)).
Proof.
  split; [reflexivity|].
  intros Hclaim.
  specialize (Hclaim (__init__ 3 8 (Int 2) (Int 1) true) 1 3 4 4).
  vm_compute in Hclaim.
  assert (Hfalse : (5, 5) = (4, 4)) by (apply Hclaim; reflexivity).
  discriminate Hfalse.
Qed.

Lemma forward_shape_stride1 (self : Conv.t) (N C H W : Z) :
  stride self = 1 ->
  forward_shape self [N; C; H; W]
  = [N; out_channels self;
     H + 2 * (kernel_size self / 2) - kernel_size self + 1;
     W + 2 * (kernel_size self / 2) - kernel_size self + 1].
Proof.
  intros Hs. unfold forward_shape, conv_shape, weight_shape, transpose.
  simpl. rewrite Hs, !Z.div_1_r. reflexivity.
Qed.

(** C6, amended.  With [stride=1] and an odd [kernel_size], the padding
    [kernel_size // 2] handed to the convolution makes the output of an
    NCHW input [(N, C, H, W)] the shape [(N, out_channels, H, W)]: the
    spatial extents are those of the input. *)
Theorem Conv_stride1_odd_kernel_same (self : Conv.t) (N C H W : Z) :
  stride self = 1 ->
  0 < kernel_size self ->
  kernel_size self mod 2 = 1 ->
  forward_shape self [N; C; H; W] = [N; out_channels self; H; W]
  /\ spatial (forward_shape self [N; C; H; W]) = (H, W).
Proof.
  intros Hs Hk Hodd.
  assert (Hshape : forward_shape self [N; C; H; W] = [N; out_channels self; H; W]).
  { rewrite forward_shape_stride1 by done.
    pose proof (Z.div_mod (kernel_size self) 2 ltac:(lia)) as Hdm.
    repeat f_equal; lia. }
  split; [exact Hshape|]. by rewrite Hshape.
Qed.

(** With an even [kernel_size] each spatial extent grows by one. *)
Lemma Conv_stride1_even_kernel_grows (self : Conv.t) (N C H W : Z) :
  stride self = 1 ->
  kernel_size self mod 2 = 0 ->
  spatial (forward_shape self [N; C; H; W]) = (H + 1, W + 1).
Proof.
  intros Hs Heven. rewrite forward_shape_stride1 by done.
  pose proof (Z.div_mod (kernel_size self) 2 ltac:(lia)) as Hdm.
  unfold spatial; simpl. f_equal; lia.
Qed.

Close Scope Z_scope.
End ConvFacts.

(** ** DataLoader: the batches of one pass *)

Module DataFacts.
Import Data.

(** C8 as stated fails: five samples in batches of two, not shuffled, come
    out as [[0;1]], [[2;3]] and the partial batch [[4]], which is not
    dropped. *)
Lemma DataLoader_keeps_partial_batch :
  (dl ← __init__ [10; 11; 12; 13; 14] 2 false; batches 10 id dl)
  = Some [[10; 11]; [12; 13]; [14]]
  /\ ~ (forall (ds : list nat) (bs fuel : nat) dl bat,
          length ds `mod` bs <> 0 ->
          __init__ ds bs false = Some dl ->
          batches fuel id dl = Some bat ->
          Forall (fun b => length b = bs) bat).
Proof.
  split; [reflexivity|].
  intros Hclaim.
  assert (Hall : Forall (fun b => length b = 2) [[10; 11]; [12; 13]; [14]]).
  { destruct (__init__ [10; 11; 12; 13; 14] 2 false) as [dl|] eqn:Hdl;
      [|by vm_compute in Hdl].
    apply (Hclaim [10; 11; 12; 13; 14] 2 10 dl); [by vm_compute|done|].
    vm_compute in Hdl. injection Hdl as <-. reflexivity. }
  inversion Hall as [|? ? _ H1]; subst.
  inversion H1 as [|? ? _ H2]; subst.
  inversion H2 as [|? ? Hlen _]; subst. discriminate Hlen.
Qed.

Section DataLoaderFacts.
Context {A : Type}.
Implicit Types (ds : list A) (ary : list nat).

Lemma sub_arys_range {B : Type} (l : list B) bs n : forall k st,
  sub_arys l st (range_from k (st + bs) bs ++ [n])
  = map (fun i => slice l (st + i * bs) (st + (i + 1) * bs)) (seq 0 k)
    ++ [slice l (st + k * bs) n].
Proof.
  induction k as [|k IH]; intros st; simpl.
  - by rewrite Nat.add_0_r.
  - rewrite IH. f_equal.
    + f_equal; lia.
    + rewrite <- seq_shift, map_map. f_equal.
      * apply map_ext. intros i. f_equal; lia.
      * do 2 f_equal. lia.
Qed.

Lemma range_count n bs :
  0 < bs -> n `mod` bs <> 0 -> (n - bs + bs - 1) / bs = n / bs.
Proof.
  intros Hbs Hmod.
  pose proof (Nat.div_mod_eq n bs) as Hn.
  pose proof (Nat.mod_upper_bound n bs ltac:(lia)) as Hr.
  destruct (decide (n / bs = 0)) as [Hq|Hq].
  - rewrite Hq in *. rewrite Nat.div_small by lia. done.
  - symmetry. apply (Nat.div_unique _ _ _ (n `mod` bs - 1)); nia.
Qed.

Lemma getitem_slice ds a b :
  getitem ds (slice (arange (length ds)) a b) = slice ds a b.
Proof.
  unfold getitem, slice, arange.
  assert (Hseq : forall c st, st + c <= length ds ->
    omap (fun i => ds !! i) (seq st c) = take c (drop st ds)).
  { induction c as [|c IH]; intros st Hle; simpl; [done|].
    destruct (lookup_lt_is_Some_2 ds st) as [x Hx]; [lia|].
    rewrite Hx, IH by lia.
    rewrite (drop_S _ _ _ Hx). done. }
  destruct (decide (a <= length ds)) as [Ha|Ha].
  - rewrite drop_seq, take_seq, Hseq by lia. simpl.
    rewrite <- take_take. f_equal. apply take_ge. rewrite length_drop. lia.
  - rewrite !drop_ge by (rewrite ?length_seq; lia). by rewrite !take_nil.
Qed.

Lemma drain_all ds sh bs ord : forall it fuel,
  length it < fuel ->
  drain fuel
    {| dataset := ds; shuffle := sh; batch_size := bs; ordering := ord;
       iterator := it |}
  = Some (map (getitem ds) it).
Proof.
  induction it as [|idx it IH]; intros fuel Hfuel;
    (destruct fuel as [|fuel]; [simpl in Hfuel; lia|]); simpl; [done|].
  rewrite IH by (simpl in Hfuel; lia). done.
Qed.

(** C8, amended.  For a dataset whose length [n] is not a multiple of
    [batch_size], one pass over a DataLoader built with [shuffle=False]
    yields [n // batch_size] batches of exactly [batch_size] samples, the
    samples of the dataset in order, followed by the trailing partial batch
    of the remaining [n mod batch_size] samples: it is yielded, not
    dropped. *)
Theorem DataLoader_partial_batch_last ds bs :
  0 < bs ->
  length ds `mod` bs <> 0 ->
  let n := length ds in
  let full :=
    map (fun i => slice ds (i * bs) ((i + 1) * bs)) (seq 0 (n / bs)) in
  let last := slice ds (n / bs * bs) n in
  exists dl,
    __init__ ds bs false = Some dl /\
    (forall fuel shuffled,
       n / bs + 1 < fuel -> batches fuel shuffled dl = Some (full ++ [last])) /\
    Forall (fun b => length b = bs) full /\
    length full = n / bs /\
    length last = n `mod` bs.
Proof.
  intros Hbs Hmod n full last.
  pose proof (Nat.div_mod_eq n bs) as Hn.
  pose proof (Nat.mod_upper_bound n bs ltac:(lia)) as Hr.
  assert (Hord :
    array_split (arange n) (range_from (n / bs) bs bs)
    = map (fun i => slice (arange n) (i * bs) ((i + 1) * bs)) (seq 0 (n / bs))
      ++ [slice (arange n) (n / bs * bs) n]).
  { unfold array_split, arange. rewrite length_seq.
    apply (sub_arys_range (seq 0 n) bs n (n / bs) 0). }
  eexists. split; [|split; [|split; [|split]]].
  - unfold __init__, range. rewrite decide_False by lia. simpl.
    fold n. rewrite range_count by done. reflexivity.
  - intros fuel shuffled Hfuel. unfold batches, __iter__. simpl.
    rewrite drain_all.
    + simpl. rewrite Hord, map_app, map_map. simpl. unfold full, last, n.
      rewrite getitem_slice. f_equal. f_equal.
      apply map_ext. intros i. apply getitem_slice.
    + rewrite Hord, length_app, length_map, length_seq. simpl. lia.
  - unfold full. apply Forall_forall. intros b Hb.
    apply list_elem_of_In, in_map_iff in Hb as (i & <- & Hi).
    apply in_seq in Hi. unfold slice.
    rewrite length_take, length_drop. fold n. nia.
  - unfold full. by rewrite length_map, length_seq.
  - unfold last, slice. rewrite length_take, length_drop. fold n. nia.
Qed.

End DataLoaderFacts.
End DataFacts.

(** * Further properties of the code *)

(** ** Module trees: mode switches, cycles, Sequential *)

Module Trees.
Import Py Ownership Composite.

Section Trees.
Context {T : Type}.
Implicit Types (h : heap T) (v : value T) (l m : loc).

(** *** Attribute dictionaries, continued *)

Lemma dict_set_override k (x y : value T) d :
  dict_set k x (dict_set k y d) = dict_set k x d.
Proof.
  induction d as [|[k' z] d IH]; simpl.
  - by rewrite decide_True.
  - destruct (decide (k = k')); simpl.
    + by rewrite decide_True.
    + rewrite decide_False by done. by rewrite IH.
Qed.

Lemma dict_set_same k (x : value T) d :
  dict_get k d = Some x -> dict_set k x d = d.
Proof.
  induction d as [|[k' z] d IH]; simpl; [done|].
  destruct (decide (k = k')); intros ?; simplify_eq; [done|].
  by rewrite IH.
Qed.

Lemma dict_values_set k (x y : value T) d w :
  dict_get k d = Some y ->
  w ∈ dict_values d -> w = y \/ w ∈ dict_values (dict_set k x d).
Proof.
  unfold dict_values.
  induction d as [|[k' z] d IH]; simpl; [done|].
  destruct (decide (k = k')); intros Hget Hw; simplify_eq.
  - apply elem_of_cons in Hw as [->|Hw]; [by left|].
    right. simpl. by right.
  - apply elem_of_cons in Hw as [->|Hw]; [right; simpl; by left|].
    destruct (IH Hget Hw) as [->|?]; [by left|]. right. simpl. by right.
Qed.

Lemma Forall_dict_values_set (P : value T -> Prop) k x d :
  P x -> Forall P (dict_values d) -> Forall P (dict_values (dict_set k x d)).
Proof.
  intros Hx. unfold dict_values.
  induction d as [|[k' z] d IH]; simpl; intros Hd.
  - by apply Forall_cons_2.
  - inversion Hd; subst. destruct (decide (k = k')); simpl.
    + by apply Forall_cons_2.
    + apply Forall_cons_2; auto.
Qed.

Lemma with_training_override b b' (o : object T) :
  with_training b (with_training b' o) = with_training b o.
Proof. destruct o; simpl; [done| |done]. by rewrite dict_set_override. Qed.

(** *** Walks that fail *)

Lemma for_extend_fails {A} (f : value T -> option (list A)) vs v :
  v ∈ vs -> f v = None -> for_extend f vs = None.
Proof.
  intros Hv Hf. induction vs as [|w vs IH]; [by inversion Hv|].
  rewrite for_extend_cons.
  apply elem_of_cons in Hv as [<-|Hv].
  - by rewrite Hf.
  - rewrite IH by done. by destruct (f w).
Qed.

Lemma unpack_params_cycle h m :
  on_cycle h m ->
  forall fuel v, module_in h v m -> _unpack_params fuel h v = None.
Proof.
  intros (c & attrs & Hm & Hcyc).
  induction fuel as [|fuel IH]; intros v Hin; [done|].
  destruct Hin as [l c' attrs' Hl|l c' attrs' m' Hl Hin|items w m' Hw Hin
                  |vs w m' Hw Hin|vs w m' Hw Hin]; simpl.
  - rewrite Hm. by apply IH.
  - rewrite Hl. by apply IH.
  - eapply for_extend_fails; [done|]. by apply IH.
  - eapply for_extend_fails; [done|]. by apply IH.
  - eapply for_extend_fails; [done|]. by apply IH.
Qed.

Lemma child_modules_cycle h m :
  on_cycle h m ->
  forall fuel v, module_in h v m -> _child_modules fuel h v = None.
Proof.
  intros (c & attrs & Hm & Hcyc).
  induction fuel as [|fuel IH]; intros v Hin; [done|].
  destruct Hin as [l c' attrs' Hl|l c' attrs' m' Hl Hin|items w m' Hw Hin
                  |vs w m' Hw Hin|vs w m' Hw Hin]; simpl.
  - rewrite Hm. by rewrite IH.
  - rewrite Hl. by rewrite IH.
  - eapply for_extend_fails; [done|]. by apply IH.
  - eapply for_extend_fails; [done|]. by apply IH.
  - eapply for_extend_fails; [done|]. by apply IH.
Qed.

Lemma module_in_below h self c attrs m :
  h !! self = Some (OModule c attrs) ->
  module_in h (VRef self) m -> on_cycle h m ->
  exists m', module_in h (VDict attrs) m' /\ on_cycle h m'.
Proof.
  intros Hself Hin Hcyc.
  inversion Hin as [? c1 a1 H1|? c1 a1 ? H1 H2| | |]; subst.
  - destruct Hcyc as (c' & attrs' & Hm & Hc).
    assert (attrs' = attrs) as -> by congruence.
    exists m. split; [done|]. by exists c', attrs.
  - assert (a1 = attrs) as -> by congruence. by exists m.
Qed.

(** *** Stores that differ in mode flags only *)

Lemma unpack_params_dict_set fuel h k b b0 d :
  dict_get k d = Some (VBool b0) ->
  _unpack_params fuel h (VDict (dict_set k (VBool b) d))
  = _unpack_params fuel h (VDict d).
Proof.
  intros Hget. destruct fuel as [|fuel]; [done|]. simpl.
  eapply for_extend_dict_set; [done|]. by destruct fuel.
Qed.

Lemma unpack_params_flags h h' :
  flags_apart h h' ->
  forall fuel v, _unpack_params fuel h' v = _unpack_params fuel h v.
Proof.
  intros Hfa. induction fuel as [|fuel IH]; intros v; [done|].
  destruct v; simpl; try done.
  - destruct (Hfa l) as [->|(c & d & b & b0 & Hl & Hflag & ->)].
    + destruct (h !! l) as [[]|]; auto.
    + rewrite Hl, IH. by eapply unpack_params_dict_set.
  - apply for_extend_ext. auto.
  - apply for_extend_ext. auto.
  - apply for_extend_ext. auto.
Qed.

Lemma child_modules_flags h h' :
  flags_apart h h' ->
  forall fuel v, _child_modules fuel h' v = _child_modules fuel h v.
Proof.
  intros Hfa. induction fuel as [|fuel IH]; intros v; [done|].
  destruct v; simpl; try done.
  - destruct (Hfa l) as [->|(c & d & b & b0 & Hl & Hflag & ->)].
    + destruct (h !! l) as [[]|]; auto. by rewrite IH.
    + rewrite Hl, IH. by erewrite child_modules_dict_set.
  - apply for_extend_ext. auto.
  - apply for_extend_ext. auto.
  - apply for_extend_ext. auto.
Qed.

Lemma flags_apart_sym h h' : flags_apart h h' -> flags_apart h' h.
Proof.
  intros Hfa l. destruct (Hfa l) as [->|(c & d & b & b0 & Hl & Hflag & Hl')];
    [by left|].
  right. exists c, (dict_set "training" (VBool b) d), b0, b.
  split; [done|]. split; [apply dict_get_set_eq|].
  by rewrite Hl, dict_set_override, dict_set_same.
Qed.

Lemma module_in_flags h h' v m :
  flags_apart h h' -> module_in h v m -> module_in h' v m.
Proof.
  intros Hfa. induction 1 as [l c attrs Hl|l c attrs m Hl Hin IH
    |items w m Hw Hin IH|vs w m Hw Hin IH|vs w m Hw Hin IH].
  - destruct (Hfa l) as [Hl'|(c' & d & b & b0 & _ & _ & Hl')].
    + eapply in_self. by rewrite Hl'.
    + by eapply in_self.
  - destruct (Hfa l) as [Hl'|(c' & d & b & b0 & Hl0 & Hflag & Hl')].
    + eapply in_attrs; [|done]. by rewrite Hl'.
    + assert (d = attrs) as -> by congruence.
      eapply in_attrs; [done|].
      inversion IH as [| |? w ? Hw Hin'| |]; subst.
      destruct (dict_values_set "training" (VBool b) (VBool b0) attrs w Hflag Hw)
        as [->|Hw']; [by inversion Hin'|].
      by eapply in_dict.
  - by eapply in_dict.
  - by eapply in_list.
  - by eapply in_tuple.
Qed.

Lemma acyclic_flags h h' :
  flags_apart h h' -> forall n v, acyclic h n v -> acyclic h' n v.
Proof.
  intros Hfa. induction n as [|n IH]; intros v Hv.
  - inversion Hv as [| | | | |? l t Hl|? l Hl| | | |]; subst;
      try by constructor.
    + destruct (Hfa l) as [Hl'|(c' & d & b & b0 & Hl0 & _)]; [|congruence].
      eapply acyclic_parameter. by rewrite Hl'.
    + destruct (Hfa l) as [Hl'|(c' & d & b & b0 & Hl0 & _)]; [|congruence].
      eapply acyclic_other. by rewrite Hl'.
  - inversion Hv as [| | | | |? l t Hl|? l Hl|? l c attrs Hl Hattrs
                    |? items Hitems|? vs Hvs|? vs Hvs]; subst;
      try by constructor.
    + destruct (Hfa l) as [Hl'|(c' & d & b & b0 & Hl0 & _)]; [|congruence].
      eapply acyclic_parameter. by rewrite Hl'.
    + destruct (Hfa l) as [Hl'|(c' & d & b & b0 & Hl0 & _)]; [|congruence].
      eapply acyclic_other. by rewrite Hl'.
    + destruct (Hfa l) as [Hl'|(c' & d & b & b0 & Hl0 & Hflag & Hl')].
      * eapply acyclic_module; [by rewrite Hl'|]. by apply IH.
      * assert (d = attrs) as -> by congruence.
        eapply acyclic_module; [done|].
        apply IH in Hattrs.
        inversion Hattrs as [| | | | | | | |n' ? Hall| |]; subst.
        apply acyclic_dict. apply Forall_dict_values_set; [constructor|done].
    + apply acyclic_dict. eapply Forall_impl; [done|]. auto.
    + apply acyclic_list. eapply Forall_impl; [done|]. auto.
    + apply acyclic_tuple. eapply Forall_impl; [done|]. auto.
Qed.

Lemma parameters_flags h h' :
  flags_apart h h' ->
  forall fuel root, parameters fuel h' root = parameters fuel h root.
Proof.
  intros Hfa fuel root. unfold parameters, self_dict.
  destruct (Hfa root) as [->|(c & d & b & b0 & Hl & Hflag & ->)].
  - destruct (h !! root) as [[]|]; simpl; try done.
    exact (unpack_params_flags h h' Hfa fuel _).
  - rewrite Hl. simpl. rewrite (unpack_params_flags h h' Hfa).
    by eapply unpack_params_dict_set.
Qed.

Lemma children_flags h h' :
  flags_apart h h' ->
  forall fuel root, _children fuel h' root = _children fuel h root.
Proof.
  intros Hfa fuel root. unfold _children, self_dict.
  destruct (Hfa root) as [->|(c & d & b & b0 & Hl & Hflag & ->)].
  - destruct (h !! root) as [[]|]; simpl; try done.
    exact (child_modules_flags h h' Hfa fuel _).
  - rewrite Hl. simpl. rewrite (child_modules_flags h h' Hfa).
    by erewrite child_modules_dict_set.
Qed.

(** What a mode switch does to the store, for a tree whose Modules all
    carry the boolean flag. *)
Lemma set_mode_flags b fuel h self n :
  acyclic h n (VRef self) ->
  module_in h (VRef self) self ->
  boolean_flags h (VRef self) ->
  n <= fuel ->
  exists h',
    (h1 ← set_training b h self; ms ← _children fuel h1 self;
     for_set_training b ms h1) = Some h' /\
    (forall m, module_in h (VRef self) m ->
       h' !! m = with_training b <$> h !! m) /\
    (forall l, ~ module_in h (VRef self) l -> h' !! l = h !! l) /\
    (forall l, module_in h (VRef self) l \/ ~ module_in h (VRef self) l) /\
    flags_apart h h'.
Proof.
  intros Hwf Hself Hflags Hfuel.
  destruct (module_in_is_module _ _ _ Hself) as (c & attrs & Hl).
  destruct (Hflags self c attrs Hself Hl) as [b0 Hb0].
  destruct (set_mode_spec b fuel h self n c attrs b0 Hwf Hl Hb0 Hfuel)
    as (h' & Hrun & Hin & Hout & Hdec).
  exists h'. split; [done|]. split; [done|]. split; [done|]. split; [done|].
  intros l. destruct (Hdec l) as [Hl'|Hl']; [|left; by apply Hout].
  right. destruct (module_in_is_module _ _ _ Hl') as (c' & d & Hd).
  destruct (Hflags l c' d Hl' Hd) as [b1 Hb1].
  exists c', d, b, b1. split; [done|]. split; [done|].
  by rewrite (Hin l Hl'), Hd.
Qed.

(** X1.  [train()] and [eval()] write mode flags and nothing else: on a
    tree of Modules that carry the boolean flag, the switch returns, every
    Parameter object is left as it was, and [parameters()] and [_children()]
    of any Module of the store return after the switch what they returned
    before it, for every recursion budget. *)
Theorem mode_switch_keeps_parameters h self n c attrs fuel (b : bool) :
  acyclic h n (VRef self) ->
  h !! self = Some (OModule c attrs) ->
  boolean_flags h (VRef self) ->
  n <= fuel ->
  exists h',
    (if b then train fuel h self else eval fuel h self) = Some h' /\
    (forall l t, h' !! l = Some (OParameter t) <-> h !! l = Some (OParameter t)) /\
    (forall fuel' root,
       parameters fuel' h' root = parameters fuel' h root /\
       _children fuel' h' root = _children fuel' h root).
Proof.
  intros Hwf Hself Hflags Hfuel.
  assert (Hin : module_in h (VRef self) self) by (by eapply in_self).
  destruct (set_mode_flags b fuel h self n Hwf Hin Hflags Hfuel)
    as (h' & Hrun & _ & _ & _ & Hfa).
  exists h'. split; [by destruct b|]. split.
  - intros l t. destruct (Hfa l) as [->|(c' & d & b1 & b0 & Hl & _ & Hl')];
      [done|].
    rewrite Hl, Hl'. split; congruence.
  - intros fuel' root. split.
    + by apply parameters_flags.
    + by apply children_flags.
Qed.

Lemma boolean_flags_after h h' v :
  flags_apart h h' -> boolean_flags h v -> boolean_flags h' v.
Proof.
  intros Hfa Hflags m c attrs Hin Hm.
  assert (Hin0 : module_in h v m)
    by (apply (module_in_flags h' h); [by apply flags_apart_sym|done]).
  destruct (module_in_is_module _ _ _ Hin0) as (c' & d & Hd).
  destruct (Hflags m c' d Hin0 Hd) as [b0 Hb0].
  destruct (Hfa m) as [Hm'|(c2 & d2 & b2 & b3 & Hl & _ & Hl')].
  - exists b0. congruence.
  - exists b2. assert (attrs = dict_set "training" (VBool b2) d2) as ->
      by congruence.
    apply dict_get_set_eq.
Qed.

(** X2.  Mode switches override one another.  On a tree of Modules that
    carry the boolean flag: [eval()] returns; a second [eval()] changes
    nothing; [train()] after [eval()] leaves the store that [train()] alone
    leaves; and when every Module of the tree was in training mode, that
    store is the one before [eval()], object for object. *)
Theorem train_after_eval h self n c attrs fuel :
  acyclic h n (VRef self) ->
  h !! self = Some (OModule c attrs) ->
  boolean_flags h (VRef self) ->
  n <= fuel ->
  exists h1 h2,
    eval fuel h self = Some h1 /\
    eval fuel h1 self = Some h1 /\
    train fuel h1 self = Some h2 /\
    train fuel h self = Some h2 /\
    (all_in_mode true h (VRef self) -> h2 = h).
Proof.
  intros Hwf Hself Hflags Hfuel.
  assert (Hin : module_in h (VRef self) self) by (by eapply in_self).
  destruct (set_mode_flags false fuel h self n Hwf Hin Hflags Hfuel)
    as (h1 & Hrun1 & Hin1 & Hout1 & Hdec & Hfa1).
  destruct (set_mode_flags true fuel h self n Hwf Hin Hflags Hfuel)
    as (h2 & Hrun2 & Hin2 & Hout2 & _ & _).
  assert (Hsame : forall l, module_in h1 (VRef self) l <-> module_in h (VRef self) l).
  { intros l. split; apply module_in_flags; [by apply flags_apart_sym|done]. }
  assert (Hwf1 : acyclic h1 n (VRef self)) by (by eapply acyclic_flags).
  assert (Hself1 : module_in h1 (VRef self) self) by (by apply Hsame).
  assert (Hflags1 : boolean_flags h1 (VRef self))
    by (by eapply boolean_flags_after).
  destruct (set_mode_flags false fuel h1 self n Hwf1 Hself1 Hflags1 Hfuel)
    as (h3 & Hrun3 & Hin3 & Hout3 & _ & _).
  destruct (set_mode_flags true fuel h1 self n Hwf1 Hself1 Hflags1 Hfuel)
    as (h4 & Hrun4 & Hin4 & Hout4 & _ & _).
  assert (E3 : h3 = h1).
  { apply map_eq. intros l. destruct (Hdec l) as [Hl|Hl].
    - rewrite Hin3 by (by apply Hsame). rewrite (Hin1 l Hl).
      rewrite <- option_fmap_compose. apply option_fmap_ext.
      intros o. apply with_training_idemp.
    - rewrite Hout3; [done|]. by rewrite Hsame. }
  assert (E4 : h4 = h2).
  { apply map_eq. intros l. destruct (Hdec l) as [Hl|Hl].
    - rewrite Hin4 by (by apply Hsame). rewrite (Hin1 l Hl), (Hin2 l Hl).
      rewrite <- option_fmap_compose. apply option_fmap_ext.
      intros o. apply with_training_override.
    - rewrite Hout4 by (by rewrite Hsame). by rewrite Hout1, Hout2. }
  subst h3 h4. exists h1, h2.
  split; [exact Hrun1|]. split; [exact Hrun3|]. split; [exact Hrun4|].
  split; [exact Hrun2|].
  intros Hall. apply map_eq. intros l. destruct (Hdec l) as [Hl|Hl].
  - rewrite (Hin2 l Hl).
    destruct (module_in_is_module _ _ _ Hl) as (c' & d & Hd).
    rewrite Hd. simpl. by rewrite (dict_set_same _ _ _ (Hall l c' d Hl Hd)).
  - by apply Hout2.
Qed.

(** X3.  A Module that owns itself, directly or through other Modules,
    makes every walk that reaches it fail: whatever the recursion budget,
    [parameters()] and [_children()] of a Module from which the cycle is
    reached do not return, and neither do [train()] and [eval()] of a
    receiver that carries the boolean flag (RecursionError, once the
    interpreter's limit is met). *)
Theorem cyclic_ownership_exhausts_recursion h self c attrs m fuel :
  h !! self = Some (OModule c attrs) ->
  module_in h (VRef self) m ->
  on_cycle h m ->
  parameters fuel h self = None /\
  _children fuel h self = None /\
  (forall b0, dict_get "training" attrs = Some (VBool b0) ->
     train fuel h self = None /\ eval fuel h self = None).
Proof.
  intros Hself Hin Hcyc.
  destruct (module_in_below h self c attrs m Hself Hin Hcyc)
    as (m' & Hin' & Hcyc').
  assert (Hch : _child_modules fuel h (VDict attrs) = None)
    by (by eapply child_modules_cycle).
  split; [|split].
  - unfold parameters, self_dict. rewrite Hself. simpl.
    by eapply unpack_params_cycle.
  - unfold _children, self_dict. by rewrite Hself.
  - intros b0 Hb0.
    assert (Hmode : forall b,
      (h1 ← set_training b h self; ms ← _children fuel h1 self;
       for_set_training b ms h1) = None).
    { intros b. unfold set_training. rewrite Hself. simpl.
      unfold _children, self_dict. rewrite lookup_insert_eq. simpl.
      erewrite child_modules_set_training by done.
      erewrite child_modules_dict_set by done. by rewrite Hch. }
    split; apply Hmode.
Qed.

(** X4.  On a tree without ownership cycles [_children()] returns, with
    any budget from the depth of the tree on, the same list: its members
    are exactly the Modules owned, at any depth, through the attributes of
    the receiver; the receiver itself is never among them. *)
Theorem children_are_the_modules_below h self n c attrs :
  acyclic h n (VRef self) ->
  h !! self = Some (OModule c attrs) ->
  exists ms,
    (forall fuel, n <= fuel -> _children fuel h self = Some ms) /\
    (forall m, m ∈ ms <-> module_in h (VDict attrs) m) /\
    self ∉ ms.
Proof.
  intros Hwf Hself.
  inversion Hwf as [| | | | | | |n' ? ? attrs' Hl' Hattrs| | |]; simplify_eq.
  destruct (child_modules_total (S n') h n' (VDict attrs) Hattrs) as [ms Hms];
    [lia|].
  assert (Hin : forall m, m ∈ ms <-> module_in h (VDict attrs) m)
    by (by apply child_modules_elem with (fuel := S n')).
  exists ms. split; [|split; [done|]].
  - intros fuel Hfuel. unfold _children, self_dict. rewrite Hself. simpl.
    by apply (child_modules_mono (S n')).
  - intros Hmem. apply Hin in Hmem.
    assert (Hcyc : on_cycle h self) by (by exists c, attrs).
    rewrite (child_modules_cycle h self Hcyc (S n') (VDict attrs) Hmem) in Hms.
    done.
Qed.

(** *** A Sequential over existing layers *)

Lemma unpack_params_total h n v :
  acyclic h n v ->
  exists ps, forall fuel, n < fuel -> _unpack_params fuel h v = Some ps.
Proof.
  intros Hwf.
  destruct (param_positions_total (S n) h n v Hwf) as [ps Hps]; [lia|].
  exists ps.*2. intros fuel Hfuel. apply param_positions_forget.
  by apply (param_positions_mono (S n)); [lia|].
Qed.

Lemma unpack_params_fresh h self o :
  h !! self = None ->
  forall fuel n v, acyclic h n v ->
  _unpack_params fuel (<[self := o]> h) v = _unpack_params fuel h v.
Proof.
  intros Hfresh. induction fuel as [|fuel IH]; intros n v Hv; [done|].
  assert (Hloop : forall k vs, Forall (acyclic h k) vs ->
    for_extend (_unpack_params fuel (<[self := o]> h)) vs
    = for_extend (_unpack_params fuel h) vs).
  { intros k vs Hvs. apply for_extend_ext. intros w Hw.
    eapply IH. by eapply (proj1 (Forall_forall _ _) Hvs). }
  inversion Hv as [| | | | |? l t Hl|? l Hl|? l c attrs Hl Hattrs
                  |? items Hitems|? vs Hvs|? vs Hvs]; subst; simpl; try done.
  - rewrite lookup_insert_ne by congruence. by rewrite Hl.
  - rewrite lookup_insert_ne by congruence. by rewrite Hl.
  - rewrite lookup_insert_ne by congruence. rewrite Hl. by eapply IH.
  - by eapply Hloop.
  - by eapply Hloop.
  - by eapply Hloop.
Qed.

(** X5.  The parameters of a new [Sequential] are those of its layers, in
    the order the layers were given: built over Modules without ownership
    cycles, [parameters()] of the Sequential returns the concatenation of
    what [parameters()] of each layer returns; the new Module starts in
    training mode and the objects already in the store are untouched. *)
Theorem Sequential_parameters_concat h self modules n :
  h !! self = None ->
  Forall (fun l => acyclic h n (VRef l) /\
                   exists c attrs, h !! l = Some (OModule c attrs)) modules ->
  let h' := Sequential.__init__ h self modules in
  exists pss,
    Forall2 (fun l ps => forall fuel, n <= fuel -> parameters fuel h l = Some ps)
      modules pss /\
    (forall fuel, n + 3 <= fuel -> parameters fuel h' self = Some (concat pss)) /\
    (exists attrs, h' !! self = Some (OModule C_Sequential attrs) /\
                   dict_get "training" attrs = Some (VBool true)) /\
    (forall l, l <> self -> h' !! l = h !! l).
Proof.
  intros Hfresh Hmods h'.
  assert (Hlayers : exists pss,
    Forall2 (fun l ps => forall fuel, n <= fuel -> parameters fuel h l = Some ps)
      modules pss /\
    forall o fuel, n < fuel ->
      for_extend (_unpack_params fuel (<[self := o]> h)) (VRef <$> modules)
      = Some (concat pss)).
  { clear h'. induction Hmods as [|l ls [Hwf (c & attrs & Hl)] Hrest IH].
    - exists []. split; [constructor|]. intros o fuel _. done.
    - destruct IH as (pss & Hpss & Hcat).
      inversion Hwf as [| | | | | | |n' ? ? attrs' Hl' Hattrs| | |];
        simplify_eq.
      destruct (unpack_params_total h n' (VDict attrs) Hattrs) as [ps Hps].
      exists (ps :: pss). split.
      + constructor; [|done]. intros fuel Hfuel.
        unfold parameters, self_dict. rewrite Hl. simpl. apply Hps. lia.
      + intros o fuel Hfuel. rewrite fmap_cons, for_extend_cons.
        rewrite Hcat by done.
        erewrite unpack_params_fresh by done.
        destruct fuel as [|fuel]; [lia|]. simpl. rewrite Hl.
        rewrite Hps by lia. done. }
  destruct Hlayers as (pss & Hpss & Hcat).
  exists pss. split; [done|]. split; [|split].
  - intros fuel Hfuel.
    destruct fuel as [|[|fuel]]; [lia|lia|].
    unfold parameters, self_dict, h', Sequential.__init__.
    rewrite lookup_insert_eq. simpl.
    rewrite !for_extend_cons, for_extend_nil. simpl.
    rewrite Hcat by lia. simpl. by rewrite app_nil_r.
  - eexists. unfold h', Sequential.__init__. rewrite lookup_insert_eq.
    split; [done|]. reflexivity.
  - intros l Hne. unfold h', Sequential.__init__.
    by rewrite lookup_insert_ne.
Qed.

End Trees.
End Trees.

(** ** Recurrent cells and stacks *)

Module Cells.
Import Tensor Activation TensorFacts Recurrent.

Section CellFacts.
Context {F : Type} `{Substrate F} `{Truth F}.

Lemma entry_ReLU (A : mat F) b j : entry (ReLU A) b j = frelu <$> entry A b j.
Proof. apply entry_mmap. Qed.

(** X6.  GRUCell, for weights of the shapes the constructor gives them, an
    input [X] of shape [(bs, input_size)] and a state [h] of shape
    [(bs, hidden)]: with [A] the input affine output [X@W_ih (+ bias_ih)]
    and [B] the hidden one [h@W_hh (+ bias_hh)], both [3*hidden] wide, the
    result has shape [(bs, hidden)] and, entry by entry, the reset gate
    reads column [j] of both, the update gate column [hidden + j] and the
    candidate column [2*hidden + j]:
    [r = sigmoid(hr + xr)], [z = sigmoid(hz + xz)],
    [n = tanh(r*hn + xn)], [h' = (1 - z)*n + z*h]. *)
Theorem GRUCell_forward_gates (cell : GRUCell.t F) X h bs :
  let hs := GRUCell.hidden_size cell in
  let A :=
    let XW := matmul X (GRUCell.W_ih cell) in
    if GRUCell.bias cell
    then mzip fadd XW (broadcast_rows bs (GRUCell.bias_ih cell)) else XW in
  let B :=
    let hW := matmul h (GRUCell.W_hh cell) in
    if GRUCell.bias cell
    then mzip fadd hW (broadcast_rows bs (GRUCell.bias_hh cell)) else hW in
  let out := GRUCell.forward_from cell X h in
  0 < GRUCell.input_size cell ->
  has_shape (GRUCell.input_size cell) (3 * hs) (GRUCell.W_ih cell) ->
  has_shape hs (3 * hs) (GRUCell.W_hh cell) ->
  length (GRUCell.bias_ih cell) = 3 * hs ->
  length (GRUCell.bias_hh cell) = 3 * hs ->
  has_shape bs (GRUCell.input_size cell) X ->
  has_shape bs hs h ->
  has_shape bs (3 * hs) A /\
  has_shape bs (3 * hs) B /\
  has_shape bs hs out /\
  forall b j xr xz xn hr hz hn h0,
    j < hs ->
    entry A b j = Some xr ->
    entry A b (hs + j) = Some xz ->
    entry A b (2 * hs + j) = Some xn ->
    entry B b j = Some hr ->
    entry B b (hs + j) = Some hz ->
    entry B b (2 * hs + j) = Some hn ->
    entry h b j = Some h0 ->
    let r := sigmoid (fadd hr xr) in
    let z := sigmoid (fadd hz xz) in
    let n := ftanh (fadd (fmul r hn) xn) in
    entry out b j = Some (fadd (fmul (fsub (of_Q 1) z) n) (fmul z h0)).
Proof.
  intros hs A B out Hin Hih Hhh Hbi Hbh [HX HXrows] Hh.
  assert (HA : has_shape bs (3 * hs) A).
  { unfold A. cbv zeta.
    assert (H1 : has_shape bs (3 * hs) (matmul X (GRUCell.W_ih cell))).
    { rewrite <- (has_shape_ncols _ _ _ Hih) by lia. by apply has_shape_matmul. }
    destruct (GRUCell.bias cell); [|done].
    apply has_shape_mzip; [done|]. rewrite <- Hbi.
    apply has_shape_broadcast_rows. }
  assert (HB : has_shape bs (3 * hs) B).
  { unfold B. cbv zeta.
    assert (H1 : has_shape bs (3 * hs) (matmul h (GRUCell.W_hh cell))).
    { rewrite <- (has_shape_ncols _ _ _ Hhh) by lia.
      apply has_shape_matmul. apply Hh. }
    destruct (GRUCell.bias cell); [|done].
    apply has_shape_mzip; [done|]. rewrite <- Hbh.
    apply has_shape_broadcast_rows. }
  assert (Hchunk : forall (M : mat F) c, has_shape bs (3 * hs) M -> c < 3 ->
    nth c (split_chunks 3 hs M) [] = map (chunk hs c) M
    /\ has_shape bs hs (map (chunk hs c) M)).
  { intros M c HM Hc. split; [by apply split_chunks_nth|].
    eapply has_shape_chunk; [exact HM|]. nia. }
  destruct (Hchunk A 0 HA) as [EA0 SA0]; [lia|].
  destruct (Hchunk A 1 HA) as [EA1 SA1]; [lia|].
  destruct (Hchunk A 2 HA) as [EA2 SA2]; [lia|].
  destruct (Hchunk B 0 HB) as [EB0 SB0]; [lia|].
  destruct (Hchunk B 1 HB) as [EB1 SB1]; [lia|].
  destruct (Hchunk B 2 HB) as [EB2 SB2]; [lia|].
  assert (Hout : out =
    (let r := Sigmoid (mzip fadd (map (chunk hs 0) B) (map (chunk hs 0) A)) in
     let z := Sigmoid (mzip fadd (map (chunk hs 1) B) (map (chunk hs 1) A)) in
     let n := Tanh (mzip fadd (mzip fmul r (map (chunk hs 2) B))
                      (map (chunk hs 2) A)) in
     mzip fadd (mzip fmul (mmap (fun a => fsub (of_Q 1) a) z) n)
       (mzip fmul z h))).
  { unfold out, GRUCell.forward_from. cbv zeta. unfold nrows. rewrite HX.
    fold hs. unfold A, B in EA0, EA1, EA2, EB0, EB1, EB2.
    cbv zeta in EA0, EA1, EA2, EB0, EB1, EB2.
    by rewrite EA0, EA1, EA2, EB0, EB1, EB2. }
  split; [exact HA|]. split; [exact HB|]. split.
  { rewrite Hout. cbv zeta.
    repeat first [apply has_shape_mzip | apply has_shape_mmap]; done. }
  intros b j xr xz xn hr hz hn h0 Hj Hxr Hxz Hxn Hhr Hhz Hhn Hh0 r z n.
  rewrite Hout. cbv zeta.
  assert (Er : entry (Sigmoid (mzip fadd (map (chunk hs 0) B)
                                 (map (chunk hs 0) A))) b j = Some r).
  { rewrite entry_Sigmoid.
    erewrite entry_mzip; [done| |]; rewrite entry_chunk by done; simpl; done. }
  assert (Ez : entry (Sigmoid (mzip fadd (map (chunk hs 1) B)
                                 (map (chunk hs 1) A))) b j = Some z).
  { rewrite entry_Sigmoid.
    erewrite entry_mzip; [done| |]; rewrite entry_chunk by done;
      by replace (1 * hs + j) with (hs + j) by lia. }
  apply entry_mzip; apply entry_mzip; try done.
  - by rewrite entry_mmap, Ez.
  - rewrite entry_Tanh.
    erewrite entry_mzip; [done| |].
    + apply entry_mzip; [done|]. by rewrite entry_chunk.
    + by rewrite entry_chunk.
Qed.

(** X7.  RNNCell, for weights of the shapes the constructor gives them, an
    input [X] of shape [(bs, input_size)] and a state [h] of shape
    [(bs, hidden)]: the result has shape [(bs, hidden)], and its entry in
    row [b], column [j] is the nonlinearity ([tanh] or [relu], as chosen at
    construction) of [(X@W_ih)[b,j] + (h@W_hh)[b,j]], to which
    [bias_ih[j] + bias_hh[j]] is added when bias is enabled. *)
Theorem RNNCell_forward_entries (cell : RNNCell.t F) X h bs :
  let hs := RNNCell.hidden_size cell in
  let out := RNNCell.forward_from cell X h in
  let act :=
    match RNNCell.nonlin cell with
    | RNNCell.tanh => ftanh
    | RNNCell.relu => frelu
    end in
  0 < RNNCell.input_size cell ->
  has_shape (RNNCell.input_size cell) hs (RNNCell.W_ih cell) ->
  has_shape hs hs (RNNCell.W_hh cell) ->
  length (RNNCell.bias_ih cell) = hs ->
  length (RNNCell.bias_hh cell) = hs ->
  has_shape bs (RNNCell.input_size cell) X ->
  has_shape bs hs h ->
  has_shape bs hs out /\
  forall b j x y bi bh,
    b < bs ->
    entry (matmul X (RNNCell.W_ih cell)) b j = Some x ->
    entry (matmul h (RNNCell.W_hh cell)) b j = Some y ->
    RNNCell.bias_ih cell !! j = Some bi ->
    RNNCell.bias_hh cell !! j = Some bh ->
    entry out b j
    = Some (act (if RNNCell.bias cell
                 then fadd (fadd x y) (fadd bi bh) else fadd x y)).
Proof.
  intros hs out act Hin Hih Hhh Hbi Hbh [HX HXrows] Hh.
  assert (H1 : has_shape bs hs (matmul X (RNNCell.W_ih cell))).
  { rewrite <- (has_shape_ncols _ _ _ Hih) by lia. by apply has_shape_matmul. }
  assert (H2 : has_shape bs hs (matmul h (RNNCell.W_hh cell))).
  { destruct (decide (hs = 0)) as [E|E].
    - rewrite <- (has_shape_ncols _ _ _ Hhh) by (right; exact E).
      apply has_shape_matmul, Hh.
    - rewrite <- (has_shape_ncols _ _ _ Hhh) by lia.
      apply has_shape_matmul, Hh. }
  split.
  - unfold out, RNNCell.forward_from. cbv zeta. unfold nrows. rewrite HX.
    assert (Hact : forall M : mat F, has_shape bs hs M ->
      has_shape bs hs (RNNCell.activation (RNNCell.nonlin cell) M)).
    { intros M HM. destruct (RNNCell.nonlin cell); by apply has_shape_mmap. }
    apply Hact. destruct (RNNCell.bias cell).
    + apply has_shape_mzip; [by apply has_shape_mzip|].
      apply has_shape_mzip; [rewrite <- Hbi|rewrite <- Hbh];
        apply has_shape_broadcast_rows.
    + by apply has_shape_mzip.
  - intros b j x y bi bh Hb Hx Hy Hi Hhb.
    unfold out, RNNCell.forward_from. cbv zeta. unfold nrows. rewrite HX.
    assert (Hact : forall (M : mat F) a, entry M b j = Some a ->
      entry (RNNCell.activation (RNNCell.nonlin cell) M) b j = Some (act a)).
    { intros M a HM. unfold act.
      destruct (RNNCell.nonlin cell); simpl.
      - by rewrite entry_Tanh, HM.
      - by rewrite entry_ReLU, HM. }
    apply Hact. destruct (RNNCell.bias cell).
    + apply entry_mzip; [by apply entry_mzip|].
      apply entry_mzip; by rewrite entry_broadcast_rows.
    + by apply entry_mzip.
Qed.

End CellFacts.
End Cells.

Module Stacks.
Import Tensor Activation TensorFacts Recurrent Shapes.

Section Stacks.
Context {F : Type} `{Substrate F} `{Truth F}.

Lemma cells_snoc {C : Type} (cell : nat -> nat -> C) n hs L :
  0 < L ->
  [cell 0 n] ++ map (fun k => cell (S k) hs) (seq 0 (S L - 1))
  = ([cell 0 n] ++ map (fun k => cell (S k) hs) (seq 0 (L - 1)))
    ++ [cell L hs].
Proof.
  intros HL. destruct L as [|L]; [lia|].
  replace (S (S L) - 1) with (S L) by lia.
  replace (S L - 1) with L by lia.
  rewrite seq_S, map_app. reflexivity.
Qed.

Lemma cells_length {C : Type} (cell : nat -> nat -> C) n hs L :
  0 < L ->
  length ([cell 0 n] ++ map (fun k => cell (S k) hs) (seq 0 (L - 1))) = L.
Proof. intros HL. rewrite length_app, length_map, length_seq. simpl. lia. Qed.

(** X8.  Layers are stacked bottom-up.  Built with [L+1 >= 2] layers and
    called without an initial state, RNN, GRU and LSTM return what the
    same network built with [L] layers returns on the same input, followed
    by one more pass: the cell of layer [L], constructed for inputs of
    width [hidden_size], is run timestep by timestep, from the zero state,
    over the output sequence of the [L] layers below; its hidden states are
    the output, and its last state is appended to the final states of the
    layers below. *)
Theorem top_layer_reads_the_stack_below
    (rnn_cell : nat -> nat -> RNNCell.t F)
    (gru_cell : nat -> nat -> GRUCell.t F)
    (lstm_cell : nat -> nat -> LSTMCell.t F)
    (input_size hidden_size L : nat) (X : cube F) :
  0 < L ->
  let z := zeros (nrows (hd [] X)) hidden_size in
  RNN.forward (RNN.__init__ rnn_cell input_size hidden_size (S L)) X None
  = (let below :=
       RNN.forward (RNN.__init__ rnn_cell input_size hidden_size L) X None in
     let top := RNN.over_time (rnn_cell L hidden_size) below.1 z in
     (top.1, below.2 ++ [top.2])) /\
  GRU.forward (GRU.__init__ gru_cell input_size hidden_size (S L)) X None
  = (let below :=
       GRU.forward (GRU.__init__ gru_cell input_size hidden_size L) X None in
     let top := GRU.over_time (gru_cell L hidden_size) below.1 z in
     (top.1, below.2 ++ [top.2])) /\
  LSTM.forward (LSTM.__init__ lstm_cell input_size hidden_size (S L)) X None
  = (let below :=
       LSTM.forward (LSTM.__init__ lstm_cell input_size hidden_size L) X None in
     let top := LSTM.over_time (lstm_cell L hidden_size) below.1 z z in
     (top.1, (below.2.1 ++ [top.2.1], below.2.2 ++ [top.2.2]))).
Proof.
  intros HL z. split; [|split].
  - unfold RNN.forward, RNN.__init__, tensor_or, zeros3.
    cbn [RNN.num_layers RNN.hidden_size RNN.rnn_cells].
    rewrite cells_snoc, replicate_S_end by done.
    rewrite zip_with_app
      by (by rewrite cells_length, length_replicate).
    rewrite foldl_app. fold z. cbn [zip_with foldl].
    destruct (foldl _ (X, []) _) as [Y hn]. cbn [fst snd].
    by destruct (RNN.over_time (rnn_cell L hidden_size) Y z).
  - unfold GRU.forward, GRU.__init__, tensor_or, zeros3.
    cbn [GRU.num_layers GRU.hidden_size GRU.gru_cells].
    rewrite cells_snoc, replicate_S_end by done.
    rewrite zip_with_app
      by (by rewrite cells_length, length_replicate).
    rewrite foldl_app. fold z. cbn [zip_with foldl].
    destruct (foldl _ (X, []) _) as [Y hn]. cbn [fst snd].
    by destruct (GRU.over_time (gru_cell L hidden_size) Y z).
  - unfold LSTM.forward, LSTM.__init__.
    cbn [LSTM.num_layers LSTM.hidden_size LSTM.lstm_cells].
    set (Z1 := zeros3 (S L) _ _). set (Z0 := zeros3 L _ _).
    cbn [nth replicate]. subst Z1 Z0. unfold zeros3.
    rewrite cells_snoc, replicate_S_end by done.
    rewrite !zip_with_app
      by (by rewrite ?length_zip_with, cells_length, ?length_replicate;
          try lia).
    rewrite foldl_app. fold z. cbn [zip_with foldl].
    destruct (foldl _ (X, [], []) _) as [[Y hn] cn]. cbn [fst snd].
    by destruct (LSTM.over_time (lstm_cell L hidden_size) Y z z) as [Z [h c]].
Qed.

(** *** Shapes through the stack *)














End Stacks.
End Stacks.

(** ** Normalisation layers, row by row *)

Module Normalization.
Import Py Tensor TensorFacts.

Section Normalization.
Context {F : Type} `{Substrate F}.

Lemma mzip_lookup f (A B : mat F) b :
  mzip f A B !! b = (r ← A !! b; r' ← B !! b; Some (vzip f r r')).
Proof. unfold mzip. apply lookup_zip_with. Qed.

Lemma mmap_lookup f (A : mat F) b : mmap f A !! b = vmap f <$> A !! b.
Proof. unfold mmap. by rewrite map_fmap, list_lookup_fmap. Qed.

Lemma broadcast_rows_lookup m (v : vec F) b :
  b < m -> broadcast_rows m v !! b = Some v.
Proof. intros Hb. unfold broadcast_rows. by apply lookup_replicate_2. Qed.

Lemma row_stat_lookup N (s : vec F) b :
  LayerNorm1d.row_stat N s !! b
  = (fun a => replicate N (fdiv a (of_Q (inject_Z (Z.of_nat N))))) <$> s !! b.
Proof. unfold LayerNorm1d.row_stat. by rewrite map_fmap, list_lookup_fmap. Qed.

Lemma sum_axis1_lookup (x : mat F) b :
  LayerNorm1d.sum_axis1 x !! b = foldl fadd (of_Q 0) <$> x !! b.
Proof. unfold LayerNorm1d.sum_axis1. by rewrite map_fmap, list_lookup_fmap. Qed.

Lemma LayerNorm1d_rows (ln : LayerNorm1d.t F) :
  exists g : vec F -> vec F,
    forall (x : mat F) M,
      has_shape M (LayerNorm1d.dim ln) x -> 0 < M ->
      LayerNorm1d.forward ln x = inr (g <$> x).
Proof.
  set (N := LayerNorm1d.dim ln).
  exists (fun r =>
    let mean :=
      replicate N (fdiv (foldl fadd (of_Q 0) r) (of_Q (inject_Z (Z.of_nat N)))) in
    let d := vzip fsub r mean in
    let var :=
      replicate N
        (fdiv (foldl fadd (of_Q 0) (vmap (fun a => fpow a 2) d))
           (of_Q (inject_Z (Z.of_nat N)))) in
    vzip fadd
      (vzip fmul
         (vzip fdiv d
            (vmap (fun a => fpow (fadd a (of_Q (LayerNorm1d.eps ln))) (1 # 2))
               var))
         (LayerNorm1d.weight ln))
      (LayerNorm1d.bias ln)).
  intros x M Hx HM. unfold LayerNorm1d.forward. cbv zeta.
  rewrite (has_shape_ncols _ _ _ Hx) by lia.
  rewrite decide_True by done. fold N. f_equal.
  destruct Hx as [Hlen _]. unfold nrows. rewrite Hlen.
  apply list_eq. intros b.
  rewrite list_lookup_fmap.
  rewrite !mzip_lookup, !mmap_lookup, !row_stat_lookup, !sum_axis1_lookup.
  rewrite !mmap_lookup, !mzip_lookup, !row_stat_lookup, !sum_axis1_lookup.
  destruct (x !! b) as [r|] eqn:Hr; simpl; [|done].
  assert (b < M) by (rewrite <- Hlen; by eapply lookup_lt_Some).
  by rewrite !broadcast_rows_lookup.
Qed.

(** X10.  LayerNorm1d treats every row on its own: on a batch of [M >= 1]
    rows of width [dim] the layer returns (the assertion on the width
    holds), the result has [M] rows, and row [b] of it is the row the layer
    returns when called on row [b] of the input alone, as a batch of one.
    No statistic is shared between the rows of a batch. *)
Theorem LayerNorm1d_row_by_row (ln : LayerNorm1d.t F) (x : mat F) M :
  has_shape M (LayerNorm1d.dim ln) x ->
  0 < M ->
  exists y,
    LayerNorm1d.forward ln x = inr y /\
    length y = M /\
    forall b r, x !! b = Some r ->
      exists yr, y !! b = Some yr /\ LayerNorm1d.forward ln [r] = inr [yr].
Proof.
  intros Hx HM. destruct (LayerNorm1d_rows ln) as [g Hg].
  exists (g <$> x). split; [by apply (Hg x M)|]. split.
  - rewrite length_fmap. apply Hx.
  - intros b r Hr. exists (g r). split.
    + by rewrite list_lookup_fmap, Hr.
    + apply (Hg [r] 1); [|lia]. split; [done|].
      constructor; [|constructor]. destruct Hx as [_ Hrows].
      rewrite Forall_forall in Hrows. apply Hrows.
      by eapply list_elem_of_lookup_2.
Qed.

Lemma BatchNorm1d_eval_rows (bn : BatchNorm1d.t F) :
  BatchNorm1d.training bn = false ->
  exists g : vec F -> vec F,
    forall (x : mat F) M,
      has_shape M (BatchNorm1d.dim bn) x -> 0 < M ->
      BatchNorm1d.forward bn x = inr (bn, g <$> x).
Proof.
  intros Heval.
  exists (fun r =>
    vzip fadd
      (vzip fmul (BatchNorm1d.weight bn)
         (vzip fdiv (vzip fsub r (BatchNorm1d.running_mean bn))
            (vmap (fun a => fpow (fadd a (of_Q (BatchNorm1d.eps bn))) (1 # 2))
               (BatchNorm1d.running_var bn))))
      (BatchNorm1d.bias bn)).
  intros x M Hx HM. unfold BatchNorm1d.forward. cbv zeta.
  rewrite (has_shape_ncols _ _ _ Hx) by lia.
  rewrite decide_True by done. rewrite Heval. do 2 f_equal.
  unfold BatchNorm1d.normalize. cbv zeta.
  destruct Hx as [Hlen _]. unfold nrows. rewrite Hlen.
  apply list_eq. intros b.
  rewrite list_lookup_fmap.
  rewrite !mzip_lookup, !mmap_lookup.
  destruct (x !! b) as [r|] eqn:Hr; simpl.
  - assert (b < M) by (rewrite <- Hlen; by eapply lookup_lt_Some).
    by rewrite !broadcast_rows_lookup.
  - destruct (broadcast_rows M (BatchNorm1d.weight bn) !! b); done.
Qed.

(** X11.  In evaluation mode BatchNorm1d treats every row on its own and
    keeps no trace of the call: on a batch of [M >= 1] rows of width [dim]
    the layer returns, the module is the one before the call (the running
    statistics included), the result has [M] rows, and row [b] of it is the
    row the layer returns when called on row [b] of the input alone. *)
Theorem BatchNorm1d_eval_row_by_row (bn : BatchNorm1d.t F) (x : mat F) M :
  BatchNorm1d.training bn = false ->
  has_shape M (BatchNorm1d.dim bn) x ->
  0 < M ->
  exists y,
    BatchNorm1d.forward bn x = inr (bn, y) /\
    length y = M /\
    forall b r, x !! b = Some r ->
      exists yr, y !! b = Some yr /\ BatchNorm1d.forward bn [r] = inr (bn, [yr]).
Proof.
  intros Heval Hx HM. destruct (BatchNorm1d_eval_rows bn Heval) as [g Hg].
  exists (g <$> x). split; [by apply (Hg x M)|]. split.
  - rewrite length_fmap. apply Hx.
  - intros b r Hr. exists (g r). split.
    + by rewrite list_lookup_fmap, Hr.
    + apply (Hg [r] 1); [|lia]. split; [done|].
      constructor; [|constructor]. destruct Hx as [_ Hrows].
      rewrite Forall_forall in Hrows. apply Hrows.
      by eapply list_elem_of_lookup_2.
Qed.

End Normalization.
End Normalization.

(** ** Conv: strides *)

Module ConvStrides.
Import Conv.
Open Scope Z_scope.

(** X26.  With an odd [kernel_size] and a [stride] of at least one, the
    padding [kernel_size // 2] handed to the convolution makes the output
    of an NCHW input [(N, C, H, W)] with [H, W >= 1] the shape
    [(N, out_channels, ceil(H / stride), ceil(W / stride))]: the channel
    extent is [out_channels] whatever the input holds there, and the two
    transposes before and the two after the convolution put the extents
    back in NCHW order. *)
Theorem Conv_odd_kernel_strided_extent (self : Conv.t) (N C H W : Z) :
  0 < stride self ->
  0 < kernel_size self ->
  kernel_size self mod 2 = 1 ->
  0 < H -> 0 < W ->
  forward_shape self [N; C; H; W]
  = [N; out_channels self;
     (H + stride self - 1) / stride self;
     (W + stride self - 1) / stride self].
Proof.
  intros Hs Hk Hodd HH HW.
  pose proof (Z.div_mod (kernel_size self) 2 ltac:(lia)) as Hdm.
  assert (Hext : forall E, 0 < E ->
    (E + 2 * (kernel_size self / 2) - kernel_size self) / stride self + 1
    = (E + stride self - 1) / stride self).
  { intros E HE.
    replace (E + 2 * (kernel_size self / 2) - kernel_size self)
      with (E - 1) by lia.
    replace (E + stride self - 1) with (E - 1 + 1 * stride self) by lia.
    rewrite Z.div_add by lia. reflexivity. }
  unfold forward_shape, conv_shape, weight_shape, transpose. simpl.
  by rewrite !Hext.
Qed.

Close Scope Z_scope.
End ConvStrides.

(** ** Token corpus, column batches and the loader *)

Module TextFacts.
Import Dictionary Corpus.

Lemma consistent_index_bound (d : Dictionary.t) w i :
  consistent d -> word2idx d !! w = Some i -> i < __len__ d.
Proof.
  intros Hd Hw. apply Hd in Hw. unfold __len__. by eapply lookup_lt_Some.
Qed.

Lemma add_word_known (d : Dictionary.t) w i :
  consistent d -> word2idx d !! w = Some i -> add_word d w = Some (i, d).
Proof.
  intros Hd Hw. pose proof (consistent_index_bound d w i Hd Hw) as Hlt.
  unfold add_word, setdefault. rewrite Hw.
  rewrite decide_False by lia. rewrite Hw. simpl. by destruct d.
Qed.

Lemma add_word_new (d : Dictionary.t) w :
  word2idx d !! w = None ->
  add_word d w
  = Some (__len__ d, {| word2idx := <[w := __len__ d]> (word2idx d);
                        idx2word := idx2word d ++ [w] |}).
Proof.
  intros Hw. unfold add_word, setdefault. rewrite Hw.
  rewrite decide_True by done. by rewrite lookup_insert_eq.
Qed.

Lemma consistent_new (d : Dictionary.t) w :
  consistent d -> word2idx d !! w = None ->
  consistent {| word2idx := <[w := __len__ d]> (word2idx d);
                idx2word := idx2word d ++ [w] |}.
Proof.
  intros Hd Hw w' i. simpl. unfold __len__.
  destruct (decide (w' = w)) as [->|Hne].
  - rewrite lookup_insert_eq. split.
    + intros [= <-]. by rewrite list_lookup_middle.
    + intros Hi. f_equal.
      destruct (decide (i < length (idx2word d))) as [Hlt|Hge].
      * rewrite lookup_app_l in Hi by done. apply Hd in Hi. congruence.
      * apply lookup_lt_Some in Hi as Hlt. rewrite length_app in Hlt.
        simpl in Hlt. lia.
  - rewrite lookup_insert_ne by done. rewrite (Hd w' i). split.
    + intros Hi. by apply lookup_app_l_Some.
    + intros Hi.
      destruct (decide (i < length (idx2word d))) as [Hlt|Hge].
      * by rewrite lookup_app_l in Hi.
      * rewrite lookup_app_r in Hi by lia.
        destruct (i - length (idx2word d)) as [|k]; simpl in Hi;
          [congruence|done].
Qed.

(** X12.  [Dictionary.add_word] keeps the two attributes one numbering.
    On a dictionary in which [word2idx] and [idx2word] are inverse to each
    other, the call returns (the final lookup cannot miss) an id under
    which [idx2word] holds the word, and the attributes are again inverse
    to each other, so no word is listed twice.  A word already known gets
    the id it had and the dictionary is unchanged; a new word gets the
    number of words known so far and is appended, the ids given out before
    staying as they were. *)
Theorem add_word_keeps_numbering (d : Dictionary.t) (w : string) :
  consistent d ->
  exists i d',
    add_word d w = Some (i, d') /\
    consistent d' /\
    idx2word d' !! i = Some w /\
    NoDup (idx2word d') /\
    (forall j, word2idx d !! w = Some j -> i = j /\ d' = d) /\
    (word2idx d !! w = None ->
     i = __len__ d /\ idx2word d' = idx2word d ++ [w]).
Proof.
  intros Hd.
  assert (Hnodup : forall d0, consistent d0 -> NoDup (idx2word d0)).
  { intros d0 Hd0. apply NoDup_alt. intros i j x Hi Hj.
    apply Hd0 in Hi, Hj. congruence. }
  destruct (word2idx d !! w) as [j|] eqn:Hw.
  - exists j, d. split; [by apply add_word_known|]. split; [done|].
    split; [by apply Hd|]. split; [by apply Hnodup|].
    split; [by intros ? [= <-]|done].
  - eexists _, _. split; [by apply add_word_new|].
    pose proof (consistent_new d w Hd Hw) as Hd'.
    split; [done|]. split; [|split; [by apply Hnodup|split; [done|done]]].
    simpl. unfold __len__. by rewrite list_lookup_middle.
Qed.

(** *** tokenize *)

Lemma add_word_spec (d : Dictionary.t) w :
  consistent d ->
  exists i d',
    add_word d w = Some (i, d') /\ consistent d' /\
    idx2word d' !! i = Some w /\ idx2word d `prefix_of` idx2word d'.
Proof.
  intros Hd. destruct (word2idx d !! w) as [j|] eqn:Hw.
  - exists j, d. split; [by apply add_word_known|]. split; [done|].
    split; [by apply Hd|done].
  - eexists _, _. split; [by apply add_word_new|].
    split; [by apply consistent_new|]. simpl. split.
    + unfold __len__. by rewrite list_lookup_middle.
    + by apply prefix_app_r.
Qed.

Lemma add_words_spec ws : forall d : Dictionary.t,
  consistent d ->
  exists ids d',
    add_words d ws = Some (ids, d') /\ consistent d' /\
    idx2word d `prefix_of` idx2word d' /\
    Forall2 (fun i w => idx2word d' !! i = Some w) ids ws.
Proof.
  induction ws as [|w ws IH]; intros d Hd.
  - exists [], d. split; [done|]. split; [done|]. split; [done|constructor].
  - destruct (add_word_spec d w Hd) as (i & d1 & Hadd & Hd1 & Hi & Hpre).
    destruct (IH d1 Hd1) as (ids & d2 & Hrest & Hd2 & Hpre' & Hall).
    exists (i :: ids), d2. simpl. rewrite Hadd. simpl. rewrite Hrest. simpl.
    split; [done|]. split; [done|]. split; [by etrans|].
    constructor; [|done]. by eapply prefix_lookup_Some.
Qed.

Lemma initial_consistent : consistent Dictionary.__init__.
Proof. intros w i. simpl. by rewrite lookup_empty, lookup_nil. Qed.

(** X13.  A corpus is decoded by its dictionary.  [Corpus(...)] returns,
    its dictionary numbers every word once ([word2idx] and [idx2word] are
    inverse to each other), and looking the ids of [train] and of [test] up
    in [idx2word] gives back, word for word and in file order, the words of
    the lines read from train.txt and from test.txt: the ids handed out
    while reading train.txt are still valid after test.txt has added its
    words. *)
Theorem Corpus_ids_decode (train_lines test_lines : list string)
    (max_lines : option Z) :
  exists c,
    Corpus.__init__ train_lines test_lines max_lines = Some c /\
    consistent (dictionary c) /\
    (fun i => idx2word (dictionary c) !! i) <$> train c
      = Some <$> words_of train_lines max_lines /\
    (fun i => idx2word (dictionary c) !! i) <$> test c
      = Some <$> words_of test_lines max_lines.
Proof.
  assert (Hdecode : forall (l : list string) ids ws,
    Forall2 (fun i w => l !! i = Some w) ids ws ->
    (fun i => l !! i) <$> ids = Some <$> ws).
  { intros l ids ws Hall. induction Hall as [|i w ids ws Hi _ IH]; [done|].
    rewrite !fmap_cons, Hi. by f_equal. }
  destruct (add_words_spec (words_of train_lines max_lines)
              Dictionary.__init__ initial_consistent)
    as (tr & d1 & Htr & Hd1 & _ & Htrain).
  destruct (add_words_spec (words_of test_lines max_lines) d1 Hd1)
    as (te & d2 & Hte & Hd2 & Hpre & Htest).
  exists {| dictionary := d2; train := tr; test := te |}.
  split.
  { unfold Corpus.__init__, tokenize. rewrite Htr. simpl. by rewrite Hte. }
  split; [exact Hd2|]. simpl. split.
  - apply Hdecode. eapply Forall2_impl; [exact Htrain|].
    intros i w Hi. exact (prefix_lookup_Some _ _ _ _ Hi Hpre).
  - by apply Hdecode.
Qed.

(** *** The words of a line *)

Lemma append_cons x (a b : string) : String x a +:+ b = String x (a +:+ b).
Proof. reflexivity. Qed.

Lemma append_nil_l (a : string) : EmptyString +:+ a = a.
Proof. reflexivity. Qed.

Lemma append_assoc (a b c : string) : (a +:+ b) +:+ c = a +:+ b +:+ c.
Proof.
  induction a as [|x a IH]; [done|]. by rewrite !append_cons, IH.
Qed.

Lemma append_empty_r (a : string) : a +:+ EmptyString = a.
Proof. induction a as [|x a IH]; [done|]. by rewrite append_cons, IH. Qed.

Lemma replace_newline_append (a b : string) :
  replace_newline (a +:+ b) = replace_newline a +:+ replace_newline b.
Proof.
  induction a as [|x a IH]; [done|]. rewrite append_cons. simpl.
  destruct (decide (x = newline)); rewrite IH.
  - by rewrite append_assoc.
  - by rewrite append_cons.
Qed.

Lemma replace_newline_none (a : string) :
  Forall (fun c => c <> newline) (String.list_ascii_of_string a) ->
  replace_newline a = a.
Proof.
  induction a as [|x a IH]; simpl; [done|]. intros Ha.
  inversion Ha; subst. rewrite decide_False by done. by rewrite IH.
Qed.

Lemma split_from_word (w : string) : forall cur rest,
  Forall (fun c => is_space c = false) (String.list_ascii_of_string w) ->
  split_from cur (w +:+ rest) = split_from (cur +:+ w) rest.
Proof.
  induction w as [|x w IH]; intros cur rest Hw.
  - by rewrite append_nil_l, append_empty_r.
  - rewrite append_cons. simpl in *.
    inversion Hw as [|? ? Hx Hrest]; subst. rewrite Hx.
    rewrite IH by done. by rewrite append_assoc, append_cons, append_nil_l.
Qed.

Lemma split_from_space (p : string) : forall cur c rest,
  is_space c = true ->
  split_from cur (p +:+ String c rest)
  = split_from cur (p +:+ String c EmptyString) ++ split_from EmptyString rest.
Proof.
  induction p as [|x p IH]; intros cur c rest Hc.
  - rewrite !append_nil_l. simpl. rewrite Hc.
    by destruct (decide (cur = EmptyString)).
  - rewrite !append_cons. simpl. destruct (is_space x).
    + destruct (decide (cur = EmptyString)); simpl; by rewrite IH.
    + by apply IH.
Qed.

(** X14.  The end-of-sentence marker is a token of its own only after
    white space.  [tokenize] replaces the newline of a line by [<eos>]
    before splitting at white space, so for a line made of a part [pre]
    that is empty or ends in white space, a last run [w] of characters
    that are not white space, and the newline, the tokens are those of
    [pre] followed by the single token [w<eos>]: the marker alone when
    white space came before the newline ([w] empty), and otherwise the
    last word of the line with the marker appended to it. *)
Theorem eos_joins_the_last_word (pre w : string) :
  pre = EmptyString \/ (exists p c, pre = p +:+ String c EmptyString /\ is_space c = true) ->
  Forall (fun c => c <> newline) (String.list_ascii_of_string pre) ->
  Forall (fun c => is_space c = false) (String.list_ascii_of_string w) ->
  split (replace_newline (pre +:+ w +:+ String newline EmptyString))
  = split pre ++ [w +:+ "<eos>"].
Proof.
  intros Hpre Hnl Hw.
  assert (Hwnl : Forall (fun c => c <> newline) (String.list_ascii_of_string w)).
  { eapply Forall_impl; [exact Hw|]. intros c Hc ->. by vm_compute in Hc. }
  rewrite !replace_newline_append, !replace_newline_none by done.
  assert (Heos : replace_newline (String newline EmptyString) = "<eos>") by reflexivity.
  rewrite Heos.
  assert (Hlast : split_from EmptyString (w +:+ "<eos>") = [w +:+ "<eos>"]).
  { rewrite <- (append_empty_r (w +:+ "<eos>")) at 1.
    rewrite split_from_word.
    - simpl. rewrite append_nil_l, decide_False; [done|]. by destruct w.
    - clear -Hw. induction w as [|x w IH].
      + rewrite append_nil_l. by repeat constructor.
      + rewrite append_cons. simpl in *. inversion Hw; subst.
        constructor; auto. }
  destruct Hpre as [->|(p & c & -> & Hc)].
  - rewrite append_nil_l. exact Hlast.
  - unfold split. rewrite append_assoc, append_cons, append_nil_l.
    rewrite split_from_space by done. by rewrite Hlast.
Qed.

End TextFacts.

Module BatchingFacts.
Import Batching.

Section BatchingFacts.
Context {A : Type}.
Implicit Types (data : list A) (B : list (list A)).






(** *** Windows *)

Lemma concat_lookup_uniform (rows : list (list A)) bs :
  Forall (fun row => length row = bs) rows ->
  forall t j, j < bs ->
    concat rows !! (t * bs + j) = rows !! t ≫= (fun row => row !! j).
Proof.
  induction 1 as [|row rows Hrow _ IH]; intros t j Hj; [done|].
  simpl. destruct t as [|t]; simpl.
  - rewrite lookup_app_l by lia. done.
  - rewrite lookup_app_r by lia.
    replace (bs + t * bs + j - length row) with (t * bs + j) by lia.
    by apply IH.
Qed.

Lemma concat_length_uniform (rows : list (list A)) bs :
  Forall (fun row => length row = bs) rows ->
  length (concat rows) = length rows * bs.
Proof.
  induction 1 as [|row rows Hrow _ IH]; [done|].
  simpl. rewrite length_app, IH. lia.
Qed.

Lemma py_slice_window B (lo n : nat) :
  lo + n <= length B ->
  py_slice B (Z.of_nat lo) (Z.of_nat lo + Z.of_nat n) = take n (drop lo B).
Proof.
  intros Hfit. unfold py_slice, clamp_index.
  rewrite !decide_False by lia.
  rewrite !Z.min_l by lia.
  f_equal; [|f_equal]; lia.
Qed.

(** What [get_batch] returns on an array of [nbatch] rows of [bs]
    entries. *)
Lemma get_batch_spec B nbatch bs i bptt :
  length B = nbatch ->
  Forall (fun row => length row = bs) B ->
  i < nbatch ->
  let k := bptt `min` (nbatch - i - 1) in
  get_batch B (Z.of_nat i) (Z.of_nat bptt)
  = Some (take k (drop i B), concat (take k (drop (i + 1) B))).
Proof.
  intros Hlen Hrows Hi k. unfold get_batch.
  assert (Hshape : shape2 B = (Z.of_nat nbatch, Z.of_nat bs)).
  { unfold shape2. rewrite Hlen. f_equal. f_equal.
    destruct B as [|row B]; [simpl in Hlen; lia|]. by inversion Hrows. }
  rewrite Hshape.
  replace (Z.of_nat bptt `min` (Z.of_nat nbatch - Z.of_nat i - 1))%Z
    with (Z.of_nat k) by (unfold k; lia).
  rewrite py_slice_window by (unfold k; lia).
  replace (Z.of_nat i + Z.of_nat k + 1)%Z
    with (Z.of_nat (i + 1) + Z.of_nat k)%Z by lia.
  replace (Z.of_nat i + 1)%Z with (Z.of_nat (i + 1)) by lia.
  rewrite py_slice_window by (unfold k; lia).
  unfold reshape1. rewrite decide_True; [done|].
  rewrite (concat_length_uniform _ bs).
  - rewrite length_take, length_drop. unfold k. lia.
  - apply Forall_take, Forall_drop, Hrows.
Qed.

(** X16.  [get_batch] cuts two windows, one row apart.  On an array of
    [nbatch] rows of [bs] entries and for a row index [i < nbatch], with
    [k = min(bptt, nbatch - i - 1)]: the call returns, [data] is the [k]
    rows from row [i] on, and [target] has [k*bs] entries, the rows from
    row [i + 1] on laid end to end, so that the entry of [target] for row
    [t], column [j] of [data] is the entry one row further down, in the
    same column.  The window is shortened at the end of the array, and at
    the last row ([i = nbatch - 1]) both parts are empty. *)
Theorem get_batch_windows B nbatch bs i bptt :
  length B = nbatch ->
  Forall (fun row => length row = bs) B ->
  i < nbatch ->
  let k := bptt `min` (nbatch - i - 1) in
  exists X Y,
    get_batch B (Z.of_nat i) (Z.of_nat bptt) = Some (X, Y) /\
    length X = k /\
    length Y = k * bs /\
    forall t j, t < k -> j < bs ->
      X !! t = B !! (i + t) /\
      exists x, B !! (i + t + 1) ≫= (fun row => row !! j) = Some x /\
                Y !! (t * bs + j) = Some x.
Proof.
  intros Hlen Hrows Hi k.
  exists (take k (drop i B)), (concat (take k (drop (i + 1) B))).
  split; [by eapply get_batch_spec|].
  assert (Hwin : Forall (fun row => length row = bs) (take k (drop (i + 1) B)))
    by apply Forall_take, Forall_drop, Hrows.
  split; [rewrite length_take, length_drop; unfold k; lia|].
  split.
  { rewrite (concat_length_uniform _ bs) by done.
    rewrite length_take, length_drop. unfold k. lia. }
  intros t j Ht Hj. split.
  - rewrite lookup_take_lt by done. by rewrite lookup_drop.
  - rewrite (concat_lookup_uniform _ bs) by done.
    rewrite lookup_take_lt by done. rewrite lookup_drop.
    replace (i + 1 + t) with (i + t + 1) by lia.
    destruct (lookup_lt_is_Some_2 B (i + t + 1)) as [row Hrow];
      [unfold k in Ht; lia|].
    rewrite Hrow. simpl.
    rewrite Forall_forall in Hrows.
    destruct (lookup_lt_is_Some_2 row j) as [x Hx].
    { rewrite (Hrows row); [done|]. by eapply list_elem_of_lookup_2. }
    by exists x.
Qed.


End BatchingFacts.
End BatchingFacts.

Module LoaderFacts.
Import Data DataFacts.

Section LoaderFacts.
Context {A : Type}.
Implicit Types (ds : list A) (ary : list nat).

Lemma concat_slices {B : Type} (l : list B) bs k :
  concat (map (fun i => slice l (i * bs) ((i + 1) * bs)) (seq 0 k))
  = take (k * bs) l.
Proof.
  induction k as [|k IH]; [by rewrite take_0|].
  rewrite seq_S, map_app, concat_app, IH. simpl. rewrite app_nil_r.
  unfold slice. replace ((k + 1) * bs - k * bs) with bs by lia.
  rewrite take_take_drop. f_equal. lia.
Qed.

(** The parts [np.array_split] cuts at [range(bs, n, bs)], put end to end,
    are the array. *)
Lemma array_split_concat {B : Type} (l : list B) bs :
  0 < bs ->
  let k := (length l - bs + bs - 1) / bs in
  array_split l (range_from k bs bs)
  = map (fun i => slice l (i * bs) ((i + 1) * bs)) (seq 0 k)
    ++ [slice l (k * bs) (length l)]
  /\ concat (array_split l (range_from k bs bs)) = l
  /\ k * bs <= length l.
Proof.
  intros Hbs k.
  assert (Hk : k * bs <= length l).
  { unfold k. destruct (decide (length l < bs)) as [Hlt|Hge].
    - replace (length l - bs + bs - 1) with (bs - 1) by lia.
      rewrite Nat.div_small by lia. lia.
    - replace (length l - bs + bs - 1) with (length l - 1) by lia.
      pose proof (Nat.div_mod_eq (length l - 1) bs). nia. }
  assert (Hsplit : array_split l (range_from k bs bs)
    = map (fun i => slice l (i * bs) ((i + 1) * bs)) (seq 0 k)
      ++ [slice l (k * bs) (length l)]).
  { unfold array_split. apply (sub_arys_range l bs (length l) k 0). }
  split; [done|]. split; [|done].
  rewrite Hsplit, concat_app, concat_slices. simpl. rewrite app_nil_r.
  unfold slice. rewrite take_take_drop. apply take_ge. lia.
Qed.

Lemma omap_length_le {X Y : Type} (f : X -> option Y) (l : list X) :
  length (omap f l) <= length l.
Proof.
  induction l as [|x l IH]; [done|].
  change (omap f (x :: l))
    with (match f x with Some y => y :: omap f l | None => omap f l end).
  destruct (f x); simpl; lia.
Qed.

Lemma getitem_concat ds (parts : list (list nat)) :
  concat (map (getitem ds) parts) = getitem ds (concat parts).
Proof.
  unfold getitem. induction parts as [|p parts IH]; [done|].
  simpl. by rewrite omap_app, IH.
Qed.

Lemma getitem_arange ds : getitem ds (arange (length ds)) = ds.
Proof.
  pose proof (getitem_slice ds 0 (length ds)) as Hs. unfold slice in Hs.
  rewrite !drop_0, Nat.sub_0_r in Hs.
  rewrite take_ge in Hs by (unfold arange; by rewrite length_seq).
  by rewrite take_ge in Hs.
Qed.

(** X18.  One pass yields every sample once.  For a positive
    [batch_size], shuffled or not: the loader is built, a pass over it
    ends, no batch has more than [batch_size] samples, and the batches put
    end to end are the samples at the indices of the pass, in its order:
    the dataset itself when not shuffled and, when the shuffle returns a
    permutation of the indices it is given, a permutation of the
    dataset. *)
Theorem DataLoader_pass_covers_dataset ds bs (sh : bool)
    (shuffled : list nat -> list nat) :
  0 < bs ->
  (forall ary, shuffled ary ≡ₚ ary) ->
  let n := length ds in
  let order := if sh then shuffled (arange n) else arange n in
  exists dl bat,
    __init__ ds bs sh = Some dl /\
    (forall fuel, n + 1 < fuel -> batches fuel shuffled dl = Some bat) /\
    Forall (fun b => length b <= bs) bat /\
    concat bat = getitem ds order /\
    concat bat ≡ₚ ds /\
    (sh = false -> concat bat = ds).
Proof.
  intros Hbs Hperm n order.
  assert (Horder : order ≡ₚ arange n).
  { unfold order. destruct sh; [apply Hperm|done]. }
  assert (Hlen : length order = n).
  { rewrite Horder. unfold arange. by rewrite length_seq. }
  destruct (array_split_concat order bs Hbs) as (Hsplit & Hcat & Hk).
  rewrite Hlen in Hsplit, Hcat, Hk.
  set (k := (n - bs + bs - 1) / bs) in *.
  set (parts := array_split order (range_from k bs bs)) in *.
  assert (Hcount : length parts <= n + 1).
  { rewrite Hsplit, length_app, length_map, length_seq. simpl. nia. }
  assert (Hrun : forall dl, dataset dl = ds -> batch_size dl = bs ->
    shuffle dl = sh -> (sh = false -> ordering dl = parts) ->
    forall fuel, n + 1 < fuel ->
      batches fuel shuffled dl = Some (map (getitem ds) parts)).
  { intros [ds' sh' bs' ord it] Hds Hb Hs Hord fuel Hfuel.
    simpl in Hds, Hb, Hs, Hord. subst ds' sh' bs'.
    unfold batches, __iter__. simpl. destruct sh.
    - unfold range. rewrite decide_False by lia. simpl.
      fold n. fold k. fold order. fold parts.
      rewrite drain_all by lia. done.
    - rewrite (Hord eq_refl). simpl. rewrite drain_all by lia. done. }
  assert (Hinit : exists dl, __init__ ds bs sh = Some dl /\
    dataset dl = ds /\ batch_size dl = bs /\ shuffle dl = sh /\
    (sh = false -> ordering dl = parts)).
  { unfold __init__. destruct sh.
    - eexists. split; [done|]. simpl. repeat split; done.
    - unfold range. rewrite decide_False by lia. simpl.
      eexists. split; [done|]. simpl. by repeat split. }
  destruct Hinit as (dl & Hdl & Hds & Hb & Hs & Hord).
  exists dl, (map (getitem ds) parts).
  split; [done|]. split; [by apply Hrun|].
  assert (Hdecode : concat (map (getitem ds) parts) = getitem ds order)
    by (by rewrite getitem_concat, Hcat).
  split; [|split; [done|split]].
  - apply Forall_forall. intros b Hb'.
    apply list_elem_of_In, in_map_iff in Hb' as (idx & <- & Hidx).
    assert (length idx <= bs).
    { rewrite Hsplit in Hidx. apply in_app_iff in Hidx as [Hidx|Hidx].
      - apply in_map_iff in Hidx as (i & <- & _). unfold slice.
        rewrite length_take. lia.
      - destruct Hidx as [<-|[]]. unfold slice.
        rewrite length_take, length_drop, Hlen.
        unfold k. destruct (decide (n < bs)) as [Hlt|Hge].
        + lia.
        + replace (n - bs + bs - 1) with (n - 1) by lia.
          pose proof (Nat.div_mod_eq (n - 1) bs).
          pose proof (Nat.mod_upper_bound (n - 1) bs). nia. }
    unfold getitem. etrans; [apply omap_length_le|done].
  - rewrite Hdecode. unfold getitem. rewrite Horder.
    fold (getitem ds (arange n)). unfold n. by rewrite getitem_arange.
  - intros ->. rewrite Hdecode. unfold order, n. apply getitem_arange.
Qed.

(** X19.  When [batch_size] divides the length of the dataset, a pass
    without shuffling over a dataset that is not empty yields
    [n // batch_size] batches, each of exactly [batch_size] samples, and no
    further batch.  Over an empty dataset the pass is not empty: it yields
    one batch, with no sample in it. *)
Theorem DataLoader_exact_multiple ds bs :
  0 < bs ->
  length ds `mod` bs = 0 ->
  let n := length ds in
  let full :=
    map (fun i => slice ds (i * bs) ((i + 1) * bs)) (seq 0 (n / bs)) in
  exists dl,
    __init__ ds bs false = Some dl /\
    (forall fuel shuffled,
       n + 1 < fuel ->
       batches fuel shuffled dl = Some (if decide (n = 0) then [[]] else full)) /\
    Forall (fun b => length b = bs) full /\
    length full = n / bs.
Proof.
  intros Hbs Hmod n full.
  pose proof (Nat.div_mod_eq n bs) as Hn. fold n in Hmod.
  destruct (array_split_concat (arange n) bs Hbs) as (Hsplit & _ & Hkle).
  assert (Hlen : length (arange n) = n) by apply length_seq.
  rewrite Hlen in Hsplit, Hkle.
  set (k := (n - bs + bs - 1) / bs) in *.
  eexists. split; [|split; [|split]].
  - unfold __init__, range. rewrite decide_False by lia. simpl. reflexivity.
  - intros fuel shuffled Hfuel. unfold batches, __iter__. simpl.
    fold n. fold k. rewrite Hsplit.
    rewrite drain_all
      by (rewrite length_app, length_map, length_seq; simpl; nia).
    f_equal. rewrite map_app, map_map. simpl.
    destruct (decide (n = 0)) as [Hz|Hnz].
    + assert (k = 0) as -> by (unfold k; rewrite Hz; apply Nat.div_small; lia).
      simpl. unfold n in *. rewrite getitem_slice.
      apply length_zero_iff_nil in Hz. rewrite Hz. reflexivity.
    + rewrite Hmod, Nat.add_0_r in Hn.
      assert (Hq0 : 0 < n / bs) by (destruct (n / bs); lia).
      assert (Hge : bs <= n) by nia.
      assert (Hk : n / bs = S k).
      { unfold k. replace (n - bs + bs - 1) with (n - 1) by lia.
        assert (Hq : (n - 1) / bs = n / bs - 1).
        { symmetry. apply (Nat.div_unique _ _ _ (bs - 1)); nia. }
        rewrite Hq. lia. }
      unfold full. rewrite Hk, seq_S, map_app. simpl. f_equal.
      * apply map_ext. intros i. unfold n. apply getitem_slice.
      * f_equal. unfold n. rewrite getitem_slice. f_equal. fold n. nia.
  - unfold full. apply Forall_forall. intros b Hb.
    apply list_elem_of_In, in_map_iff in Hb as (i & <- & Hi).
    apply in_seq in Hi. unfold slice.
    rewrite length_take, length_drop. fold n. nia.
  - unfold full. by rewrite length_map, length_seq.
Qed.

(** X20.  A [batch_size] of zero is refused where the batch boundaries are
    computed: by the constructor when [shuffle] is off, and only by the
    first [__iter__] when it is on (the constructor then returns a
    loader, and every pass over it fails). *)
Theorem DataLoader_zero_batch_size ds (shuffled : list nat -> list nat)
    (fuel : nat) :
  __init__ ds 0 false = None /\
  exists dl, __init__ ds 0 true = Some dl /\ batches fuel shuffled dl = None.
Proof.
  split; [done|]. eexists. split; [done|]. done.
Qed.

End LoaderFacts.
End LoaderFacts.

(** ** Optimizers *)

Module OptimFacts.
Import Py Tensor Optim.

Section OptimFacts.
Context {F : Type} `{Substrate F}.
Implicit Types (h : heap (param F)) (u : list (buffer F)) (l w : loc).

Lemma enumerate_elem {X : Type} (xs : list X) i x :
  (i, x) ∈ enumerate xs <-> xs !! i = Some x.
Proof.
  unfold enumerate. rewrite list_elem_of_lookup. split.
  - intros [k Hk]. apply lookup_zip_with_Some in Hk as (a & b & Heq & Ha & Hb).
    simplify_eq. apply lookup_seq in Ha as [-> _]. done.
  - intros Hx. exists i. apply lookup_zip_with_Some. exists i, x.
    split; [done|]. split; [|done].
    apply lookup_seq. split; [done|]. by eapply lookup_lt_Some.
Qed.

(** *** reset_grad *)

Lemma reset_grad_spec (params : list loc) : forall h,
  Forall (fun w => exists p, h !! w = Some (OParameter p)) params ->
  exists h',
    reset_grad params h = Some h' /\
    (forall l, l ∉ params -> h' !! l = h !! l) /\
    (forall l p, l ∈ params -> h !! l = Some (OParameter p) ->
       h' !! l = Some (OParameter {| data := data p; grad := None |})).
Proof.
  induction params as [|w params IH]; intros h Hall.
  - exists h. split; [done|]. split; [done|]. intros l p Hl. by inversion Hl.
  - inversion Hall as [|? ? [p Hw] Hrest]; subst.
    unfold reset_grad. simpl. rewrite Hw.
    set (h1 := <[w := OParameter {| data := data p; grad := None |}]> h).
    destruct (IH h1) as (h' & Hrun & Hout & Hin).
    { eapply Forall_impl; [exact Hrest|]. intros l [q Hq]. unfold h1.
      destruct (decide (l = w)) as [->|Hne].
      - rewrite lookup_insert_eq. by eexists.
      - rewrite lookup_insert_ne by done. by eexists. }
    exists h'. split; [exact Hrun|]. split.
    + intros l Hl. rewrite Hout by (intros ?; apply Hl; by right).
      unfold h1. rewrite lookup_insert_ne; [done|].
      intros ->. apply Hl. by left.
    + intros l q Hl Hq. destruct (decide (l ∈ params)) as [Hmem|Hmem].
      * destruct (decide (l = w)) as [->|Hne].
        -- rewrite (Hin w {| data := data p; grad := None |} Hmem);
             [simpl; congruence|].
           unfold h1. by rewrite lookup_insert_eq.
        -- apply Hin; [done|]. unfold h1. by rewrite lookup_insert_ne.
      * apply elem_of_cons in Hl as [->|Hl]; [|done].
        rewrite Hout by done. unfold h1. rewrite lookup_insert_eq.
        congruence.
Qed.

(** *** SGD *)

Lemma SGD_loop lr momentum wd (iws : list (nat * loc)) : forall u h,
  Forall (fun iw => iw.1 < length u /\
                    exists p, h !! iw.2 = Some (OParameter p)) iws ->
  exists u' h',
    foldl (SGD.step_one lr momentum wd) (Some (u, h)) iws = Some (u', h') /\
    length u' = length u /\
    (forall l p, h !! l = Some (OParameter p) ->
       exists p', h' !! l = Some (OParameter p') /\ grad p' = grad p /\
                  (grad p = None -> p' = p)) /\
    (forall l, (forall i, (i, l) ∉ iws) -> h' !! l = h !! l) /\
    (forall i,
       (forall w p, (i, w) ∈ iws -> h !! w = Some (OParameter p) ->
                    grad p = None) ->
       u' !! i = u !! i).
Proof.
  induction iws as [|[i w] iws IH]; intros u h Hall.
  - exists u, h. split; [done|]. split; [done|]. split; [|done].
    intros l p Hl. by exists p.
  - inversion Hall as [|? ? [Hi [p Hw]] Hrest]; subst. simpl in Hi, Hw.
    cbn [foldl]. unfold SGD.step_one at 2. cbn [mbind option_bind].
    rewrite Hw. destruct (grad p) as [g|] eqn:Hg.
    + destruct (lookup_lt_is_Some_2 u i Hi) as [b Hb]. rewrite Hb.
      cbn [mbind option_bind].
      set (u1 := <[i := Ten _]> u). set (h1 := <[w := _]> h).
      destruct (IH u1 h1) as (u' & h' & Hrun & Hlen & Hpar & Hout & Hbuf).
      { eapply Forall_impl; [exact Hrest|]. intros [j l] [Hj [q Hq]].
        simpl in *. split; [unfold u1; by rewrite length_insert|].
        unfold h1. destruct (decide (l = w)) as [->|Hne].
        - rewrite lookup_insert_eq. by eexists.
        - rewrite lookup_insert_ne by done. by eexists. }
      exists u', h'. split; [exact Hrun|].
      split; [unfold u1 in Hlen; by rewrite length_insert in Hlen|].
      split; [|split].
      * intros l q Hq. destruct (decide (l = w)) as [->|Hne].
        -- assert (q = p) as -> by congruence.
           edestruct (Hpar w) as (p' & Hp' & Hgp & _).
           { unfold h1. by rewrite lookup_insert_eq. }
           simpl in Hgp.
           exists p'. split; [done|]. split; [by rewrite Hgp, Hg|].
           rewrite Hg. done.
        -- apply Hpar. unfold h1. by rewrite lookup_insert_ne.
      * intros l Hl. rewrite Hout by (intros j ?; apply (Hl j); by right).
        unfold h1. rewrite lookup_insert_ne; [done|].
        intros ->. apply (Hl i). by left.
      * intros j Hj. destruct (decide (j = i)) as [->|Hne].
        { rewrite (Hj w p) in Hg; [done|by left|done]. }
        rewrite Hbuf.
        -- unfold u1. by rewrite list_lookup_insert_ne.
        -- intros w' q Hmem Hq. unfold h1 in Hq.
           destruct (decide (w' = w)) as [->|Hne'].
           ++ rewrite lookup_insert_eq in Hq. simplify_eq. simpl.
              assert (Hnone : grad p = None)
                by (apply (Hj w p); [by right|done]).
              congruence.
           ++ rewrite lookup_insert_ne in Hq by done.
              apply (Hj w' q); [by right|done].
    + destruct (IH u h Hrest) as (u' & h' & Hrun & Hlen & Hpar & Hout & Hbuf).
      exists u', h'. split; [exact Hrun|]. split; [done|]. split; [done|].
      split.
      * intros l Hl. apply Hout. intros j ?. apply (Hl j). by right.
      * intros j Hj. apply Hbuf. intros w' q Hmem. apply Hj. by right.
Qed.

Lemma frozen_loop_SGD lr momentum wd (iws : list (nat * loc)) u h :
  Forall (fun iw => exists p, h !! iw.2 = Some (OParameter p) /\
                              grad p = None) iws ->
  foldl (SGD.step_one lr momentum wd) (Some (u, h)) iws = Some (u, h).
Proof.
  induction 1 as [|[i w] iws (p & Hw & Hg) _ IH]; [done|].
  cbn [foldl]. unfold SGD.step_one at 2. cbn [mbind option_bind].
  simpl in Hw. by rewrite Hw, Hg.
Qed.

Lemma frozen_loop_Adam lr b1 b2 eps wd t (iws : list (nat * loc))
    (m v : list (buffer F)) h :
  Forall (fun iw => exists p, h !! iw.2 = Some (OParameter p) /\
                              grad p = None) iws ->
  foldl (Adam.step_one lr b1 b2 eps wd t) (Some (m, v, h)) iws
  = Some (m, v, h).
Proof.
  induction 1 as [|[i w] iws (p & Hw & Hg) _ IH]; [done|].
  cbn [foldl]. unfold Adam.step_one at 2. cbn [mbind option_bind].
  simpl in Hw. by rewrite Hw, Hg.
Qed.

(** X21.  [SGD.step] leaves alone what has no gradient.  For an optimizer
    whose [params] are Parameters of the store and whose [u] has one entry
    per entry of [params] (as the constructor builds it): the step
    returns; the hyper-parameters and [params] are unchanged and [u] keeps
    its length; no gradient is changed; an object that is not listed in
    [params] is unchanged; a Parameter whose gradient is [None] is
    unchanged, and so is its entry of [u]: a frozen parameter does not
    coast on the momentum it has accumulated. *)
Theorem SGD_step_skips_frozen (self : SGD.t F) h :
  Forall (fun w => exists p, h !! w = Some (OParameter p)) (SGD.params self) ->
  length (SGD.u self) = length (SGD.params self) ->
  exists u' h',
    SGD.step self h
    = Some ({| SGD.params := SGD.params self; SGD.lr := SGD.lr self;
               SGD.momentum := SGD.momentum self; SGD.u := u';
               SGD.weight_decay := SGD.weight_decay self |}, h') /\
    length u' = length (SGD.u self) /\
    (forall l p, h !! l = Some (OParameter p) ->
       exists p', h' !! l = Some (OParameter p') /\ grad p' = grad p /\
                  (grad p = None -> p' = p)) /\
    (forall l, l ∉ SGD.params self -> h' !! l = h !! l) /\
    (forall i w p,
       SGD.params self !! i = Some w -> h !! w = Some (OParameter p) ->
       grad p = None -> u' !! i = SGD.u self !! i).
Proof.
  intros Hpar Hlen.
  destruct (SGD_loop (SGD.lr self) (SGD.momentum self) (SGD.weight_decay self)
              (enumerate (SGD.params self)) (SGD.u self) h)
    as (u' & h' & Hrun & Hlen' & Hgrad & Hout & Hbuf).
  { apply Forall_forall. intros [i w] Hiw. apply enumerate_elem in Hiw.
    simpl. split; [rewrite Hlen; by eapply lookup_lt_Some|].
    rewrite Forall_forall in Hpar. apply Hpar.
    by eapply list_elem_of_lookup_2. }
  exists u', h'. split; [|split; [done|split; [done|split]]].
  - unfold SGD.step. by rewrite Hrun.
  - intros l Hl. apply Hout. intros i Hi. apply enumerate_elem in Hi.
    apply Hl. by eapply list_elem_of_lookup_2.
  - intros i w p Hi Hw Hg. apply Hbuf. intros w' q Hmem Hq.
    apply enumerate_elem in Hmem. congruence.
Qed.

(** X22.  After [reset_grad()] a step moves nothing.  For a list [params]
    of Parameters of the store: [reset_grad] returns, it sets the gradient
    of every listed Parameter to [None] and changes nothing else; and on
    the store it leaves, [SGD.step] returns with the optimizer and the
    store unchanged, and [Adam.step] returns with the store and both
    moment lists unchanged, having counted the step in [t]. *)
Theorem step_after_reset_grad_moves_nothing (sgd : SGD.t F) (adam : Adam.t F)
    (params : list loc) h :
  Forall (fun w => exists p, h !! w = Some (OParameter p)) params ->
  SGD.params sgd = params ->
  Adam.params adam = params ->
  exists h0,
    reset_grad params h = Some h0 /\
    (forall l, l ∉ params -> h0 !! l = h !! l) /\
    (forall l p, l ∈ params -> h !! l = Some (OParameter p) ->
       h0 !! l = Some (OParameter {| data := data p; grad := None |})) /\
    SGD.step sgd h0 = Some (sgd, h0) /\
    Adam.step adam h0
    = Some ({| Adam.params := Adam.params adam; Adam.lr := Adam.lr adam;
               Adam.beta1 := Adam.beta1 adam; Adam.beta2 := Adam.beta2 adam;
               Adam.eps := Adam.eps adam;
               Adam.weight_decay := Adam.weight_decay adam;
               Adam.t_ := (Adam.t_ adam + 1)%Z;
               Adam.m := Adam.m adam; Adam.v := Adam.v adam |}, h0).
Proof.
  intros Hpar Hs Ha.
  destruct (reset_grad_spec params h Hpar) as (h0 & Hrun & Hout & Hin).
  exists h0. split; [done|]. split; [done|]. split; [done|].
  assert (Hfrozen : Forall (fun iw : nat * loc =>
    exists p, h0 !! iw.2 = Some (OParameter p) /\ grad p = None)
    (enumerate params)).
  { apply Forall_forall. intros [i w] Hiw. apply enumerate_elem in Hiw.
    apply list_elem_of_lookup_2 in Hiw as Hmem.
    rewrite Forall_forall in Hpar. destruct (Hpar w Hmem) as [p Hp].
    eexists. split; [by apply (Hin w p)|done]. }
  split.
  - unfold SGD.step. rewrite Hs, frozen_loop_SGD by done. simpl.
    rewrite <- Hs. by destruct sgd.
  - unfold Adam.step. cbv zeta. rewrite Ha, frozen_loop_Adam by done.
    simpl. by rewrite <- Ha.
Qed.

Lemma SGD_loop_values lr momentum wd (iws : list (nat * loc)) : forall u h,
  NoDup iws.*1 -> NoDup iws.*2 ->
  Forall (fun iw => iw.1 < length u /\
                    exists p, h !! iw.2 = Some (OParameter p)) iws ->
  forall u' h',
    foldl (SGD.step_one lr momentum wd) (Some (u, h)) iws = Some (u', h') ->
    forall i w p g b,
      (i, w) ∈ iws -> h !! w = Some (OParameter p) -> grad p = Some g ->
      u !! i = Some b ->
      let u_i' :=
        buffer_plus (buffer_scale momentum b)
          (scale (1 - momentum) (tzip fadd g (scale wd (data p)))) in
      u' !! i = Some (Ten u_i') /\
      h' !! w = Some (OParameter
                        {| data := tzip fsub (data p) (scale lr u_i');
                           grad := Some g |}).
Proof.
  induction iws as [|[i0 w0] iws IH]; intros u h Hn1 Hn2 Hall u' h' Hrun
    i w p g b Hmem Hw Hg Hb; [by inversion Hmem|].
  rewrite fmap_cons in Hn1. rewrite fmap_cons in Hn2. simpl in Hn1, Hn2.
  apply NoDup_cons in Hn1 as [Hi0 Hn1]. apply NoDup_cons in Hn2 as [Hw0 Hn2].
  inversion Hall as [|? ? [Hlt [p0 Hp0]] Hrest]; subst. simpl in Hlt, Hp0.
  cbn [foldl] in Hrun. unfold SGD.step_one at 2 in Hrun.
  cbn [mbind option_bind] in Hrun. rewrite Hp0 in Hrun.
  assert (Hrest' : forall u1 h1, length u1 = length u ->
    (forall l, l <> w0 -> h1 !! l = h !! l) ->
    (exists q, h1 !! w0 = Some (OParameter q)) ->
    Forall (fun iw => iw.1 < length u1 /\
                      exists p, h1 !! iw.2 = Some (OParameter p)) iws).
  { intros u1 h1 Hlen Hsame Hq. eapply Forall_impl; [exact Hrest|].
    intros [j l] [Hj [q Hl]]. simpl in *. split; [lia|].
    destruct (decide (l = w0)) as [->|Hne]; [done|].
    rewrite Hsame by done. by eexists. }
  apply elem_of_cons in Hmem as [[= -> ->]|Hmem].
  - assert (p0 = p) as -> by congruence. rewrite Hg, Hb in Hrun.
    cbn [mbind option_bind] in Hrun.
    set (u1 := <[i0 := Ten _]> u) in Hrun. set (h1 := <[w0 := _]> h) in Hrun.
    destruct (SGD_loop lr momentum wd iws u1 h1)
      as (u2 & h2 & Hrun2 & _ & _ & Hout & Hbuf).
    { apply Hrest'.
      - unfold u1. by rewrite length_insert.
      - intros l Hne. unfold h1. by rewrite lookup_insert_ne.
      - unfold h1. rewrite lookup_insert_eq. by eexists. }
    rewrite Hrun2 in Hrun. injection Hrun as <- <-.
    intros u_i'. split.
    + rewrite Hbuf.
      * unfold u1. rewrite list_lookup_insert_eq; [done|].
        by eapply lookup_lt_Some.
      * intros w' q Hin. exfalso. apply Hi0.
        apply list_elem_of_fmap. by exists (i0, w').
    + rewrite Hout.
      * unfold h1. by rewrite lookup_insert_eq.
      * intros j Hin. apply Hw0. apply list_elem_of_fmap. by exists (j, w0).
  - assert (i <> i0).
    { intros ->. apply Hi0. apply list_elem_of_fmap. by exists (i0, w). }
    assert (w <> w0).
    { intros ->. apply Hw0. apply list_elem_of_fmap. by exists (i, w0). }
    destruct (grad p0) as [g0|] eqn:Hg0.
    + destruct (lookup_lt_is_Some_2 u i0 Hlt) as [b0 Hb0].
      rewrite Hb0 in Hrun. cbn [mbind option_bind] in Hrun.
      set (u1 := <[i0 := Ten _]> u) in Hrun.
      set (h1 := <[w0 := _]> h) in Hrun.
      assert (Hall1 : Forall (fun iw : nat * loc =>
        iw.1 < length u1 /\
        exists p, h1 !! iw.2 = Some (OParameter p)) iws).
      { apply Hrest'.
        - unfold u1. by rewrite length_insert.
        - intros l Hne. unfold h1. by rewrite lookup_insert_ne.
        - unfold h1. rewrite lookup_insert_eq. by eexists. }
      eapply (IH u1 h1 Hn1 Hn2 Hall1 u' h' Hrun i w p g b); try done.
      * unfold h1. by rewrite lookup_insert_ne.
      * unfold u1. by rewrite list_lookup_insert_ne.
    + by eapply (IH _ _ Hn1 Hn2 Hrest u' h' Hrun i w p g b).
Qed.

(** X23.  [SGD.step] updates every parameter from its own value, gradient
    and momentum entry.  For an optimizer over distinct Parameters of the
    store, with one entry of [u] per parameter: the step returns, and for
    the parameter at position [i], of value [w] and gradient [g], the new
    momentum entry is [momentum*u[i] + (1 - momentum)*(g + weight_decay*w)]
    and the new value is [w] minus [lr] times that entry, whatever the
    other parameters hold; [u[i]] is the integer [0] of the constructor
    before the first update and a tensor after it. *)
Theorem SGD_step_updates_each_parameter_alone (self : SGD.t F) h :
  NoDup (SGD.params self) ->
  Forall (fun w => exists p, h !! w = Some (OParameter p)) (SGD.params self) ->
  length (SGD.u self) = length (SGD.params self) ->
  exists self' h',
    SGD.step self h = Some (self', h') /\
    forall i w p g,
      SGD.params self !! i = Some w ->
      h !! w = Some (OParameter p) ->
      grad p = Some g ->
      exists b,
        SGD.u self !! i = Some b /\
        let u_i' :=
          buffer_plus (buffer_scale (SGD.momentum self) b)
            (scale (1 - SGD.momentum self)
               (tzip fadd g (scale (SGD.weight_decay self) (data p)))) in
        SGD.u self' !! i = Some (Ten u_i') /\
        h' !! w = Some (OParameter
                          {| data := tzip fsub (data p)
                                       (scale (SGD.lr self) u_i');
                             grad := Some g |}).
Proof.
  intros Hnodup Hpar Hlen.
  assert (Hall : Forall (fun iw : nat * loc =>
    iw.1 < length (SGD.u self) /\
    exists p, h !! iw.2 = Some (OParameter p)) (enumerate (SGD.params self))).
  { apply Forall_forall. intros [i w] Hiw. apply enumerate_elem in Hiw.
    simpl. split; [rewrite Hlen; by eapply lookup_lt_Some|].
    rewrite Forall_forall in Hpar. apply Hpar.
    by eapply list_elem_of_lookup_2. }
  destruct (SGD_loop (SGD.lr self) (SGD.momentum self) (SGD.weight_decay self)
              (enumerate (SGD.params self)) (SGD.u self) h Hall)
    as (u' & h' & Hrun & _).
  eexists _, h'. split; [unfold SGD.step; by rewrite Hrun|].
  intros i w p g Hi Hw Hg.
  destruct (lookup_lt_is_Some_2 (SGD.u self) i) as [b Hb].
  { rewrite Hlen. by eapply lookup_lt_Some. }
  exists b. split; [done|]. simpl.
  eapply (SGD_loop_values _ _ _ (enumerate (SGD.params self)));
    try done.
  - unfold enumerate. rewrite fst_zip by (by rewrite length_seq).
    apply NoDup_seq.
  - unfold enumerate. rewrite snd_zip by (by rewrite length_seq). done.
  - by apply enumerate_elem.
Qed.

End OptimFacts.
End OptimFacts.

(** ** Image transforms *)

Module TransformFacts.
Import Batching Transforms.

Section TransformFacts.
Context {A : Type}.
Implicit Types (img : list (list (list A))).

(** *** Padding and cropping one axis *)

Lemma pad_axis_length {X : Type} pad (fill : X) l :
  length (pad_axis pad fill l) = length l + 2 * pad.
Proof.
  unfold pad_axis. rewrite !length_app, !length_replicate. lia.
Qed.

Lemma pad_axis_lookup {X : Type} pad (fill : X) l k :
  k < length l + 2 * pad ->
  pad_axis pad fill l !! k
  = if decide (pad <= k < pad + length l) then l !! (k - pad) else Some fill.
Proof.
  intros Hk. unfold pad_axis.
  destruct (decide (k < pad)) as [Hlt|Hge].
  - rewrite lookup_app_l by (rewrite length_replicate; lia).
    rewrite decide_False by lia. apply lookup_replicate_2. lia.
  - rewrite lookup_app_r by (rewrite length_replicate; lia).
    rewrite length_replicate.
    destruct (decide (k < pad + length l)) as [Hin|Hout].
    + rewrite decide_True by lia. rewrite lookup_app_l by lia. done.
    + rewrite decide_False by lia. rewrite lookup_app_r by lia.
      apply lookup_replicate_2. lia.
Qed.

Lemma pad_axis_replicate {X : Type} pad (fill : X) n :
  pad_axis pad fill (replicate n fill) = replicate (n + 2 * pad) fill.
Proof.
  unfold pad_axis. rewrite <- !replicate_add. f_equal. lia.
Qed.

(** The window [[pad + s : n + 2*pad - (pad - s)]] of a padded axis: the
    axis shifted by [s], the fill where it ran out. *)
Lemma crop_pad_axis {X : Type} pad (fill : X) (s : Z) l :
  (- Z.of_nat pad <= s <= Z.of_nat pad)%Z ->
  py_slice (pad_axis pad fill l) (Z.of_nat pad + s)
    (Z.of_nat (length l + 2 * pad) - (Z.of_nat pad - s))
  = map (fun i =>
           if decide (0 <= Z.of_nat i + s < Z.of_nat (length l))%Z
           then default fill (l !! Z.to_nat (Z.of_nat i + s)) else fill)
      (seq 0 (length l)).
Proof.
  intros Hs. unfold py_slice, clamp_index. rewrite pad_axis_length.
  rewrite !decide_False by lia. rewrite !Z.min_l by lia.
  replace (Z.to_nat (Z.of_nat (length l + 2 * pad) - (Z.of_nat pad - s)
                     - (Z.of_nat pad + s))) with (length l) by lia.
  apply list_eq. intros i.
  destruct (decide (i < length l)) as [Hi|Hi].
  - rewrite lookup_take_lt by done. rewrite lookup_drop.
    rewrite TensorFacts.map_fmap, list_lookup_fmap, lookup_seq_lt by done.
    simpl. rewrite pad_axis_lookup by lia.
    destruct (decide (0 <= Z.of_nat i + s < Z.of_nat (length l))%Z)
      as [Hin|Hout].
    + rewrite decide_True by lia.
      replace (Z.to_nat (Z.of_nat pad + s) + i - pad)
        with (Z.to_nat (Z.of_nat i + s)) by lia.
      destruct (lookup_lt_is_Some_2 l (Z.to_nat (Z.of_nat i + s))) as [x Hx];
        [lia|]. by rewrite Hx.
    + by rewrite decide_False by lia.
  - rewrite lookup_take_ge by lia.
    rewrite TensorFacts.map_fmap, list_lookup_fmap.
    rewrite lookup_ge_None_2; [done|]. rewrite length_seq. lia.
Qed.

Lemma crop_pad_axis_centre {X : Type} pad (fill : X) l :
  py_slice (pad_axis pad fill l) (Z.of_nat pad)
    (Z.of_nat (length l + 2 * pad) - Z.of_nat pad) = l.
Proof.
  pose proof (crop_pad_axis pad fill 0 l) as Hc.
  rewrite Z.add_0_r, Z.sub_0_r in Hc. rewrite Hc by lia. clear Hc.
  apply list_eq. intros i.
  rewrite TensorFacts.map_fmap, list_lookup_fmap.
  destruct (decide (i < length l)) as [Hi|Hi].
  - rewrite lookup_seq_lt by done. simpl. rewrite decide_True by lia.
    rewrite Z.add_0_r, Nat2Z.id.
    destruct (lookup_lt_is_Some_2 l i Hi) as [x Hx]. by rewrite Hx.
  - rewrite (lookup_ge_None_2 l) by lia.
    rewrite lookup_ge_None_2; [done|]. rewrite length_seq. lia.
Qed.

(** *** RandomCrop *)

Lemma hd_length {X : Type} (ls : list (list X)) n :
  ls <> [] -> Forall (fun l => length l = n) ls -> length (hd [] ls) = n.
Proof. intros Hne Hall. destruct ls; [done|]. by inversion Hall. Qed.

(** X24.  RandomCrop moves the image and fills with zeros.  For an image
    of shape [(H, W, C)] with [H, W >= 1] and draws [shift_x], [shift_y]
    between [-padding] and [padding]: the result has the shape of the
    image, and its pixel in row [y], column [x] is the pixel of the image in
    row [y + shift_y], column [x + shift_x] where the image has one, and
    [C] zeros elsewhere.  The padding that [np.pad] also puts on the
    channel axis is cut off again, so no channel is added or shifted. *)
Theorem RandomCrop_shifts_with_zero_fill (self : RandomCrop.t) (zero : A)
    (shift_x shift_y : Z) img (H W C : nat) :
  let pad := Z.of_nat (RandomCrop.padding self) in
  length img = H ->
  Forall (fun row => length row = W /\ Forall (fun px => length px = C) row)
    img ->
  0 < H -> 0 < W ->
  (- pad <= shift_x <= pad)%Z ->
  (- pad <= shift_y <= pad)%Z ->
  RandomCrop.__call__ zero shift_x shift_y self img
  = map (fun y =>
           map (fun x =>
                  if decide ((0 <= Z.of_nat y + shift_y < Z.of_nat H)
                             /\ (0 <= Z.of_nat x + shift_x < Z.of_nat W))%Z
                  then default (replicate C zero)
                         (img !! Z.to_nat (Z.of_nat y + shift_y)
                          ≫= (fun row =>
                                 row !! Z.to_nat (Z.of_nat x + shift_x)))
                  else replicate C zero)
             (seq 0 W))
      (seq 0 H).
Proof.
  intros pad HH Hshape HHpos HWpos Hsx Hsy.
  set (p := RandomCrop.padding self) in *.
  set (zpx := replicate (C + 2 * p) zero).
  set (zrow := replicate (W + 2 * p) zpx).
  set (padrow := fun row : list (list A) =>
    pad_axis p zpx (map (pad_axis p zero) row)).
  assert (Hhd : exists row0 rest, img = row0 :: rest /\ length row0 = W /\
                                  Forall (fun px => length px = C) row0).
  { destruct img as [|row0 rest]; [simpl in HH; lia|].
    inversion Hshape as [|? ? [? ?] _]; subst. by exists row0, rest. }
  destruct Hhd as (row0 & rest & Himg & Hrow0 & Hpx0).
  assert (HC : length (hd [] (hd [] img)) = C).
  { rewrite Himg. simpl. destruct row0 as [|px0 row0']; [simpl in Hrow0; lia|].
    by inversion Hpx0. }
  assert (HW : length (hd [] img) = W) by (by rewrite Himg).
  assert (Hret : np_pad zero p img = pad_axis p zrow (map padrow img)).
  { unfold np_pad. cbv zeta. by rewrite HW, HC. }
  assert (Hpadrow : forall row, length row = W ->
    length (padrow row) = W + 2 * p).
  { intros row Hrow. unfold padrow. by rewrite pad_axis_length, length_map, Hrow. }
  assert (Hrows : Forall (fun r => length r = W + 2 * p)
                    (pad_axis p zrow (map padrow img))).
  { unfold pad_axis. rewrite !Forall_app. split; [|split].
    - apply Forall_replicate. unfold zrow. by rewrite length_replicate.
    - apply Forall_fmap. eapply Forall_impl; [exact Hshape|].
      intros row [Hrow _]. simpl. by apply Hpadrow.
    - apply Forall_replicate. unfold zrow. by rewrite length_replicate. }
  assert (Hpixels : Forall (Forall (fun px => length px = C + 2 * p))
                      (pad_axis p zrow (map padrow img))).
  { assert (Hz : Forall (fun px : list A => length px = C + 2 * p) zrow).
    { apply Forall_replicate. unfold zpx. by rewrite length_replicate. }
    unfold pad_axis. rewrite !Forall_app. split; [|split].
    - by apply Forall_replicate.
    - apply Forall_fmap. eapply Forall_impl; [exact Hshape|].
      intros row [_ Hpx]. unfold compose. cbn beta. unfold padrow.
      unfold pad_axis at 1.
      rewrite !Forall_app. split; [|split].
      + apply Forall_replicate. unfold zpx. by rewrite length_replicate.
      + apply Forall_fmap. eapply Forall_impl; [exact Hpx|].
        intros px Hlen. unfold compose. cbn beta in *.
        by rewrite pad_axis_length, Hlen.
      + apply Forall_replicate. unfold zpx. by rewrite length_replicate.
    - by apply Forall_replicate. }
  assert (Hne : pad_axis p zrow (map padrow img) <> []).
  { intros Hnil. apply (f_equal length) in Hnil.
    rewrite pad_axis_length, length_map in Hnil. simpl in Hnil. lia. }
  assert (HW' : length (hd [] (pad_axis p zrow (map padrow img))) = W + 2 * p)
    by (by apply hd_length).
  assert (HC' : length (hd [] (hd [] (pad_axis p zrow (map padrow img))))
                = C + 2 * p).
  { destruct (pad_axis p zrow (map padrow img)) as [|r0 rs] eqn:E; [done|].
    simpl in *. inversion Hpixels as [|? ? Hr0 _]; subst.
    apply hd_length; [|done]. intros ->. simpl in HW'. lia. }
  assert (Hcrop_px : forall q, length q = C ->
    py_slice (pad_axis p zero q) (Z.of_nat p)
      (Z.of_nat (C + 2 * p) - Z.of_nat p) = q).
  { intros q Hq. rewrite <- Hq. apply crop_pad_axis_centre. }
  assert (Hcrop_zero :
    py_slice zpx (Z.of_nat p) (Z.of_nat (C + 2 * p) - Z.of_nat p)
    = replicate C zero).
  { unfold zpx. rewrite <- pad_axis_replicate. apply Hcrop_px.
    apply length_replicate. }
  unfold RandomCrop.__call__. cbv zeta. fold p. rewrite Hret.
  rewrite HW', HC', pad_axis_length, length_map, HH.
  pose proof (crop_pad_axis p zrow shift_y (map padrow img)) as Hy.
  rewrite length_map, HH in Hy. rewrite Hy by (unfold pad in Hsy; lia).
  clear Hy. rewrite map_map. apply map_ext_in. intros y Hy.
  apply in_seq in Hy.
  assert (Hrow_y : exists row,
    (if decide (0 <= Z.of_nat y + shift_y < Z.of_nat H)%Z
     then default zrow (map padrow img !! Z.to_nat (Z.of_nat y + shift_y))
     else zrow) = pad_axis p zpx (map (pad_axis p zero) row) /\
    length row = W /\
    forall x, x < W ->
      default zpx (map (pad_axis p zero) row !! x)
      = (if decide (0 <= Z.of_nat y + shift_y < Z.of_nat H)%Z
         then pad_axis p zero
                (default (replicate C zero)
                   (img !! Z.to_nat (Z.of_nat y + shift_y)
                    ≫= (fun row => row !! x)))
         else zpx) /\
      ((0 <= Z.of_nat y + shift_y < Z.of_nat H)%Z ->
       length (default (replicate C zero)
                 (img !! Z.to_nat (Z.of_nat y + shift_y)
                  ≫= (fun row => row !! x))) = C)).
  { destruct (decide (0 <= Z.of_nat y + shift_y < Z.of_nat H)%Z) as [Hin|Hout].
    - destruct (lookup_lt_is_Some_2 img (Z.to_nat (Z.of_nat y + shift_y)))
        as [row Hrow]; [lia|].
      rewrite Forall_forall in Hshape.
      destruct (Hshape row) as [Hlen Hpx];
        [by eapply list_elem_of_lookup_2|].
      exists row. rewrite TensorFacts.map_fmap, list_lookup_fmap, Hrow. simpl.
      split; [done|]. split; [done|]. intros x Hx.
      destruct (lookup_lt_is_Some_2 row x) as [px Hpx']; [lia|].
      rewrite TensorFacts.map_fmap, list_lookup_fmap, Hpx'. simpl.
      split; [done|]. intros _. rewrite Forall_forall in Hpx.
      apply Hpx. by eapply list_elem_of_lookup_2.
    - exists (replicate W (replicate C zero)). split.
      { unfold zrow. rewrite <- pad_axis_replicate. f_equal.
        rewrite TensorFacts.map_fmap, fmap_replicate.
        by rewrite pad_axis_replicate. }
      split; [apply length_replicate|]. intros x Hx.
      rewrite TensorFacts.map_fmap, fmap_replicate, pad_axis_replicate.
      rewrite lookup_replicate_2 by done. split; [done|]. intros ?. lia. }
  destruct Hrow_y as (row & -> & Hlen & Hentry).
  pose proof (crop_pad_axis p zpx shift_x (map (pad_axis p zero) row)) as Hx.
  rewrite length_map, Hlen in Hx. rewrite Hx by (unfold pad in Hsx; lia).
  clear Hx. rewrite map_map. apply map_ext_in. intros x Hx.
  apply in_seq in Hx.
  destruct (decide (0 <= Z.of_nat x + shift_x < Z.of_nat W)%Z) as [Hinx|Houtx].
  - destruct (Hentry (Z.to_nat (Z.of_nat x + shift_x))) as [Hpx Hpxlen];
      [lia|].
    rewrite Hpx.
    destruct (decide (0 <= Z.of_nat y + shift_y < Z.of_nat H)%Z) as [Hin|Hout].
    + rewrite decide_True by done. apply Hcrop_px. by apply Hpxlen.
    + rewrite decide_False by tauto. apply Hcrop_zero.
  - rewrite decide_False by tauto. apply Hcrop_zero.
Qed.

(** *** RandomFlipHorizontal *)

Lemma flip_axis1_involutive img : flip_axis1 (flip_axis1 img) = img.
Proof.
  unfold flip_axis1. rewrite map_map. rewrite <- (map_id img) at 2.
  apply map_ext. intros row. apply rev_involutive.
Qed.

(** X25.  RandomFlipHorizontal mirrors the columns or does nothing.  For
    a draw [rand] of [np.random.rand()], which lies in [[0, 1)]: the image
    is returned as it is when [p <= rand], so never flipped for [p <= 0],
    and flipped when [rand < p], so always for [p >= 1]; flipping keeps
    the number of rows, reverses every row (the pixel in column [x] of a
    row of [W] pixels is the one that was in column [W - 1 - x], channels
    untouched), and flipping twice gives the image back. *)
Theorem RandomFlipHorizontal_mirrors_columns
    (self : RandomFlipHorizontal.t) (rand : Q) img :
  (0 <= rand)%Q ->
  (rand < 1)%Q ->
  let out := RandomFlipHorizontal.__call__ rand self img in
  ((RandomFlipHorizontal.p self <= rand)%Q -> out = img) /\
  ((rand < RandomFlipHorizontal.p self)%Q -> out = flip_axis1 img) /\
  ((RandomFlipHorizontal.p self <= 0)%Q -> out = img) /\
  ((1 <= RandomFlipHorizontal.p self)%Q -> out = flip_axis1 img) /\
  RandomFlipHorizontal.__call__ rand self out = img /\
  length (flip_axis1 img) = length img /\
  forall y row x,
    img !! y = Some row -> x < length row ->
    exists row',
      flip_axis1 img !! y = Some row' /\ length row' = length row /\
      row' !! x = row !! (length row - 1 - x).
Proof.
  intros H0 H1 out.
  assert (Hle : (RandomFlipHorizontal.p self <= rand)%Q -> out = img).
  { intros Hp. unfold out, RandomFlipHorizontal.__call__.
    destruct (Qlt_le_dec rand (RandomFlipHorizontal.p self)) as [Hlt|_];
      [|done].
    exfalso. by apply (Qlt_not_le _ _ Hlt). }
  assert (Hlt : (rand < RandomFlipHorizontal.p self)%Q -> out = flip_axis1 img).
  { intros Hp. unfold out, RandomFlipHorizontal.__call__.
    destruct (Qlt_le_dec rand (RandomFlipHorizontal.p self)) as [_|Hge];
      [done|].
    exfalso. by apply (Qlt_not_le _ _ Hp). }
  split; [exact Hle|]. split; [exact Hlt|]. split; [|split; [|split; [|split]]].
  - intros Hp. apply Hle. by apply (Qle_trans _ 0%Q).
  - intros Hp. apply Hlt. by apply (Qlt_le_trans _ 1%Q).
  - unfold out, RandomFlipHorizontal.__call__.
    destruct (Qlt_le_dec rand (RandomFlipHorizontal.p self)); [|done].
    apply flip_axis1_involutive.
  - unfold flip_axis1. apply length_map.
  - intros y row x Hrow Hx. exists (rev row).
    unfold flip_axis1. rewrite TensorFacts.map_fmap, list_lookup_fmap, Hrow.
    split; [done|]. split; [apply length_rev|].
    rewrite rev_alt. change (rev_append row []) with (reverse row).
    rewrite reverse_lookup by done. f_equal. lia.
Qed.

End TransformFacts.
End TransformFacts.

(** ** The theorems at the sample data *)

Module Witnesses.
Import Py Tensor Activation TensorFacts Sample.

Ltac acyclic_tac :=
  repeat first
    [ apply acyclic_none | apply acyclic_bool | apply acyclic_num
    | apply acyclic_str | apply acyclic_tensor
    | (eapply acyclic_parameter; reflexivity)
    | (eapply acyclic_module; [reflexivity|])
    | apply acyclic_dict | apply acyclic_list | apply acyclic_tuple
    | apply Forall_cons_2 | apply Forall_nil_2
    | progress cbn [dict_values map snd] ].

Lemma sample_heap_acyclic : acyclic sample_heap 7 (VRef 1%positive).
Proof. acyclic_tac. Qed.

Lemma Qtruth_falsy_only_zero : falsy_only_zero.
Proof.
  apply zero_is_false_falsy_only_zero.
  intros [n d]. unfold Qis_zero; simpl.
  intros [Hn Hd]%andb_prop.
  apply bool_decide_eq_true in Hn, Hd. by subst.
Qed.

(** C1 at the sample tree: five Parameters, each listed once, in
    depth-first order. *)
Lemma parameters_depth_first_once_witness :
  acyclic sample_heap 7 (VRef 1%positive) /\
  is_Some (self_dict sample_heap 1%positive) /\
  exists ps : list (path * loc),
    parameters 7 sample_heap 1%positive = Some ps.*2 /\
    StronglySorted dfs_before ps.*1 /\
    NoDup ps.*1.
Proof.
  assert (Hwf : acyclic sample_heap 7 (VRef 1%positive))
    by exact sample_heap_acyclic.
  assert (Hself : is_Some (self_dict sample_heap 1%positive))
    by (eexists; reflexivity).
  split; [exact Hwf|]. split; [exact Hself|].
  destruct (Composite.parameters_depth_first_once sample_heap 1%positive 7
              Hwf Hself) as (ps & Hps & _ & Hsorted & Hnodup & _).
  exists ps. split; [apply Hps; lia|]. split; [exact Hsorted|exact Hnodup].
Defined.

(** C2 at the sample tree: after [eval()] on the root the Dropout below it
    is the identity. *)
Lemma train_eval_reach_every_module_witness :
  acyclic sample_heap 7 (VRef 1%positive) /\
  dict_get "training"
    [("training", VBool true);
     ("modules", VTuple [VRef 2%positive; VRef 4%positive;
                         VRef 5%positive; VRef 8%positive])]
  = Some (VBool (T := tensor Q) true) /\
  exists h',
    eval 7 sample_heap 1%positive = Some h' /\
    Dropout.call (fun _ _ => Vec []) h' 4%positive (Vec [1%Q; 2%Q])
    = Some (Vec [1%Q; 2%Q]).
Proof.
  assert (Hwf : acyclic sample_heap 7 (VRef 1%positive))
    by exact sample_heap_acyclic.
  split; [exact Hwf|]. split; [reflexivity|].
  destruct (Composite.train_eval_reach_every_module sample_heap 1%positive 7
              C_Sequential _ true 7 false Hwf eq_refl eq_refl (le_n 7))
    as (h' & Hrun & _ & _ & Hdrop & _ & _).
  exists h'. split; [exact Hrun|].
  apply (Hdrop 4%positive (Dropout.mk true (1 # 2))).
  - eapply in_attrs; [reflexivity|].
    eapply in_dict; [|eapply in_tuple; [|eapply in_self; reflexivity]].
    + right; left.
    + right; left.
  - reflexivity.
Defined.

(** C9 at the sample tree: object 8 is a bare [Module]. *)
Lemma call_without_forward_raises_witness :
  sample_heap !! 8%positive
  = Some (OModule C_Module [("training", VBool true)]) /\
  dict_get (T := tensor Q) "forward" [("training", VBool true)] = None /\
  __call__ (Res := unit) (fun _ h _ (_ : unit) => inr (h, tt))
    sample_heap 8%positive tt
  = Some (inl (AttributeError C_Module "forward")).
Proof.
  split; [reflexivity|]. split; [reflexivity|].
  exact (Composite.call_without_forward_raises _ sample_heap 8%positive
           [("training", VBool true)] tt eq_refl eq_refl).
Defined.

(** C3 at the sample cell: in row 1 the affine output is
    [2 3 | 20 21 | 200 201 | 2000 2001]; unit 0 takes 2 for i, 20 for f,
    200 for g and 2000 for o. *)
Lemma LSTMCell_forward_gates_witness :
  LSTMCell.well_shaped sample_lstm_cell /\
  has_shape 2 1 [[1%Q]; [2%Q]] /\
  has_shape 2 2 (zeros (F := Q) 2 2) /\
  let out :=
    LSTMCell.forward sample_lstm_cell [[1%Q]; [2%Q]]
      (Some (zeros 2 2, zeros 2 2)) in
  entry out.2 1 0
  = Some (fadd (fmul (sigmoid 20%Q) 0%Q) (fmul (sigmoid 2%Q) (ftanh 200%Q))) /\
  entry out.1 1 0
  = Some (fmul (sigmoid 2000%Q)
            (ftanh (fadd (fmul (sigmoid 20%Q) 0%Q)
                      (fmul (sigmoid 2%Q) (ftanh 200%Q))))).
Proof.
  assert (Hcell : LSTMCell.well_shaped sample_lstm_cell).
  { unfold LSTMCell.well_shaped, has_shape; simpl.
    repeat split; try lia; repeat constructor. }
  assert (HX : has_shape 2 1 [[1%Q]; [2%Q]])
    by (split; [reflexivity|repeat constructor]).
  assert (Hz : has_shape 2 2 (zeros (F := Q) 2 2))
    by (split; [reflexivity|repeat constructor]).
  split; [exact Hcell|]. split; [exact HX|]. split; [exact Hz|].
  destruct (Recurrent.LSTMCell_forward_gates sample_lstm_cell
              [[1%Q]; [2%Q]] (zeros 2 2) (zeros 2 2) 2 Hcell HX Hz Hz)
    as (_ & _ & _ & _ & _ & _ & Hgates).
  apply (Hgates 1 0 2%Q 20%Q 200%Q 2000%Q 0%Q);
    [simpl; lia|reflexivity..].
Defined.

(** C4 at the sample batch [[1 2]; [3 6]]: the first feature has batch
    mean 2, so its running mean moves from 0 to [0*(1-0.1) + 2*0.1]. *)
Lemma BatchNorm1d_forward_statistics_witness :
  0 < 2 /\
  has_shape 2 (BatchNorm1d.dim sample_batchnorm) sample_batch /\
  length (BatchNorm1d.running_mean sample_batchnorm) = 2 /\
  length (BatchNorm1d.running_var sample_batchnorm) = 2 /\
  BatchNorm1d.training sample_batchnorm = true /\
  let bn' := BatchNorm1d.after_training sample_batchnorm sample_batch in
  BatchNorm1d.forward sample_batchnorm sample_batch
  = inr (bn',
         BatchNorm1d.normalize sample_batchnorm sample_batch
           (BatchNorm1d.batch_mean sample_batch)
           (BatchNorm1d.batch_var sample_batch)) /\
  BatchNorm1d.running_mean bn' !! 0
  = Some (fadd (fmul 0%Q (of_Q (1 - (1 # 10))%Q)) (fmul 2%Q (of_Q (1 # 10)))).
Proof.
  assert (HB : has_shape 2 (BatchNorm1d.dim sample_batchnorm) sample_batch)
    by (split; [reflexivity|repeat constructor]).
  split; [lia|]. split; [exact HB|]. split; [reflexivity|]. split; [reflexivity|].
  split; [reflexivity|].
  destruct (Layers.BatchNorm1d_forward_statistics sample_batchnorm
              sample_batch 2 (Nat.lt_0_succ 1) HB eq_refl eq_refl)
    as (_ & Htrain & _ & _).
  destruct (Htrain eq_refl) as (Hfwd & _ & _ & Hstat).
  split; [exact Hfwd|].
  destruct (Hstat 0 0%Q 1%Q 2%Q 1%Q) as [Hrm _]; [reflexivity..|].
  exact Hrm.
Defined.

(** C7 at the sample cells, for an all-zero state that is passed. *)
Lemma cell_state_defaulting_witness :
  falsy_only_zero /\
  length [[1%Q]] = 1 /\
  has_shape 1 (RNNCell.hidden_size sample_rnn_cell) [[0%Q; 0%Q]] /\
  RNNCell.forward sample_rnn_cell [[1%Q]] (Some [[0%Q; 0%Q]])
  = RNNCell.forward_from sample_rnn_cell [[1%Q]] [[0%Q; 0%Q]] /\
  GRUCell.forward sample_gru_cell [[1%Q]] (Some [[0%Q; 0%Q]])
  = GRUCell.forward_from sample_gru_cell [[1%Q]] [[0%Q; 0%Q]] /\
  LSTMCell.forward sample_lstm_cell [[1%Q]] None
  = LSTMCell.forward_from sample_lstm_cell [[1%Q]] (zeros 1 2) (zeros 1 2).
Proof.
  assert (Hh : has_shape 1 2 [[0%Q; 0%Q]])
    by (split; [reflexivity|repeat constructor]).
  split; [exact Qtruth_falsy_only_zero|]. split; [reflexivity|].
  split; [exact Hh|].
  destruct (Recurrent.cell_state_defaulting sample_rnn_cell sample_gru_cell
              sample_lstm_cell [[1%Q]] [[0%Q; 0%Q]] [[0%Q; 0%Q]] 1
              Qtruth_falsy_only_zero eq_refl)
    as ((_ & _ & Hlstm) & Hrnn & Hgru & _).
  split; [exact (Hrnn Hh)|]. split; [exact (Hgru Hh)|exact Hlstm].
Defined.

(** C5 at the sample cells: three timesteps, started from an all-zero
    state that is passed (RNN, GRU) and from no state (LSTM). *)
Lemma one_layer_is_cell_over_time_witness :
  falsy_only_zero /\
  sample_sequence <> [] /\
  Forall (has_shape 1 1) sample_sequence /\
  (forall h, Some [[0%Q; 0%Q]] = Some h -> has_shape 1 2 h) /\
  RNN.forward (RNN.__init__ (fun _ _ => sample_rnn_cell) 1 2 1) sample_sequence
    (Some [[[0%Q; 0%Q]]])
  = ([[[1%Q; 3%Q]]; [[3%Q; 8%Q]]; [[6%Q; 15%Q]]], [[[6%Q; 15%Q]]]) /\
  LSTM.forward (LSTM.__init__ (fun _ _ => sample_lstm_cell) 1 2 1) sample_sequence
    None
  = (let r :=
       timestep_by_timestep
         (fun X_t s => LSTMCell.forward sample_lstm_cell X_t (Some s))
         fst sample_sequence (zeros 1 2, zeros 1 2) in
     (r.1, ([r.2.1], [r.2.2]))).
Proof.
  assert (HX : Forall (has_shape 1 1) sample_sequence)
    by (repeat constructor).
  assert (Hh : forall h : mat Q, Some [[0%Q; 0%Q]] = Some h -> has_shape 1 2 h).
  { intros h [= <-]. split; [reflexivity|repeat constructor]. }
  split; [exact Qtruth_falsy_only_zero|]. split; [discriminate|].
  split; [exact HX|]. split; [exact Hh|].
  destruct (Recurrent.one_layer_is_cell_over_time
              (fun _ _ => sample_rnn_cell) (fun _ _ => sample_gru_cell)
              (fun _ _ => sample_lstm_cell) 1 2 1 sample_sequence
              (Some [[0%Q; 0%Q]]) None Qtruth_falsy_only_zero
              ltac:(discriminate) HX Hh)
    as (Hrnn & _ & Hlstm).
  split; [exact Hrnn|exact Hlstm].
Defined.

(** C6, amended, at a 3x3 kernel on a 4x6 input. *)
Lemma Conv_stride1_odd_kernel_same_witness :
  (Conv.stride (Conv.__init__ 3 8 (Conv.Int 3) (Conv.Int 1) true) = 1)%Z /\
  (0 < Conv.kernel_size (Conv.__init__ 3 8 (Conv.Int 3) (Conv.Int 1) true))%Z /\
  (Conv.kernel_size (Conv.__init__ 3 8 (Conv.Int 3) (Conv.Int 1) true) mod 2 = 1)%Z /\
  Conv.forward_shape (Conv.__init__ 3 8 (Conv.Int 3) (Conv.Int 1) true)
    [1; 3; 4; 6]%Z
  = [1; 8; 4; 6]%Z.
Proof.
  split; [reflexivity|]. split; [reflexivity|]. split; [reflexivity|].
  exact (proj1 (ConvFacts.Conv_stride1_odd_kernel_same
                  (Conv.__init__ 3 8 (Conv.Int 3) (Conv.Int 1) true)
                  1 3 4 6 eq_refl eq_refl eq_refl)).
Defined.

(** C8, amended, at five samples in batches of two. *)
Lemma DataLoader_partial_batch_last_witness :
  0 < 2 /\
  length [10; 11; 12; 13; 14] `mod` 2 <> 0 /\
  exists dl,
    Data.__init__ [10; 11; 12; 13; 14] 2 false = Some dl /\
    Data.batches 10 id dl = Some [[10; 11]; [12; 13]; [14]].
Proof.
  assert (Hmod : length [10; 11; 12; 13; 14] `mod` 2 <> 0)
    by (simpl; discriminate).
  split; [lia|]. split; [exact Hmod|].
  destruct (DataFacts.DataLoader_partial_batch_last [10; 11; 12; 13; 14] 2
              (Nat.lt_0_succ 1) Hmod)
    as (dl & Hinit & Hbatches & _).
  exists dl. split; [exact Hinit|].
  apply (Hbatches 10 id). simpl. lia.
Defined.

(** C10 at [p = 1/2], a mask that keeps the first entry only, and the
    input [[4; 6]]: the kept entry is divided by [1 - 1/2]. *)
Lemma Dropout_forward_division_witness :
  Dropout.training (Dropout.__init__ (1 # 2)) = true /\
  (0 <= 1 # 2)%Q /\ (1 # 2 < 1)%Q /\
  ~ (1 - Dropout.p (Dropout.__init__ (1 # 2)) == 0)%Q /\
  Dropout.forward (fun _ _ => Vec [1%Q; 0%Q]) (Dropout.__init__ (1 # 2))
    (Vec [4%Q; 6%Q])
  = Vec [8%Q; 0%Q].
Proof.
  destruct (Layers.Dropout_forward_division (fun _ _ => Vec [1%Q; 0%Q])
              (Dropout.__init__ (1 # 2)) (Vec [4%Q; 6%Q]))
    as (Htrain & Hnonzero & _).
  split; [reflexivity|].
  assert (H0 : (0 <= 1 # 2)%Q) by (unfold Qle; simpl; lia).
  assert (H1 : (1 # 2 < 1)%Q) by (unfold Qlt; simpl; lia).
  split; [exact H0|]. split; [exact H1|].
  split; [exact (Hnonzero H0 H1)|].
  rewrite (Htrain eq_refl). reflexivity.
Defined.

End Witnesses.

(** ** The further properties at the sample data *)

Module Examples.
Import Py Tensor Activation TensorFacts Sample SampleMore Ownership Shapes.
Import Witnesses.

(** The flags of a tree, read off the walk over it. *)
Lemma flags_by_walk {T : Type} (P : bool -> Prop) fuel (h : heap T) v ms :
  _child_modules fuel h v = Some ms ->
  Forall (fun m => exists c attrs b,
            h !! m = Some (OModule c attrs) /\
            dict_get "training" attrs = Some (VBool b) /\ P b) ms ->
  forall m c attrs,
    module_in h v m -> h !! m = Some (OModule c attrs) ->
    exists b, dict_get "training" attrs = Some (VBool b) /\ P b.
Proof.
  intros Hms Hall m c attrs Hin Hm.
  apply (Composite.child_modules_elem fuel h v ms Hms) in Hin.
  rewrite Forall_forall in Hall.
  destruct (Hall m Hin) as (c' & attrs' & b & Hm' & Hb & HP).
  exists b. split; [congruence|done].
Qed.

Lemma sample_heap_flags :
  forall m c attrs,
    module_in sample_heap (VRef 1%positive) m ->
    sample_heap !! m = Some (OModule c attrs) ->
    exists b, dict_get "training" attrs = Some (VBool b) /\ b = true.
Proof.
  apply (flags_by_walk (fun b => b = true) 8 sample_heap (VRef 1%positive)
           [1; 2; 4; 5; 8]%positive); [reflexivity|].
  repeat (apply Forall_cons_2;
          [eexists _, _, _; split; [reflexivity|split; reflexivity]|]).
  apply Forall_nil_2.
Qed.

Lemma sample_heap_boolean_flags : boolean_flags sample_heap (VRef 1%positive).
Proof.
  intros m c attrs Hin Hm.
  destruct (sample_heap_flags m c attrs Hin Hm) as (b & Hb & _). by exists b.
Qed.

Lemma sample_heap_all_training :
  all_in_mode true sample_heap (VRef 1%positive).
Proof.
  intros m c attrs Hin Hm.
  destruct (sample_heap_flags m c attrs Hin Hm) as (b & Hb & ->). done.
Qed.

(** X1 at the sample tree: [eval()] on the root leaves its parameter list
    as it was. *)
Lemma mode_switch_keeps_parameters_witness :
  acyclic sample_heap 7 (VRef 1%positive) /\
  boolean_flags sample_heap (VRef 1%positive) /\
  exists h',
    eval 7 sample_heap 1%positive = Some h' /\
    parameters 7 h' 1%positive = parameters 7 sample_heap 1%positive.
Proof.
  split; [exact sample_heap_acyclic|].
  split; [exact sample_heap_boolean_flags|].
  destruct (Trees.mode_switch_keeps_parameters sample_heap 1%positive 7
              C_Sequential _ 7 false sample_heap_acyclic eq_refl
              sample_heap_boolean_flags (le_n 7))
    as (h' & Hrun & _ & Hwalks).
  exists h'. split; [exact Hrun|]. apply Hwalks.
Defined.

(** X2 at the sample tree, which is all in training mode: [train()] after
    [eval()] gives the tree back. *)
Lemma train_after_eval_witness :
  acyclic sample_heap 7 (VRef 1%positive) /\
  boolean_flags sample_heap (VRef 1%positive) /\
  exists h1,
    eval 7 sample_heap 1%positive = Some h1 /\
    train 7 h1 1%positive = Some sample_heap.
Proof.
  split; [exact sample_heap_acyclic|].
  split; [exact sample_heap_boolean_flags|].
  destruct (Trees.train_after_eval sample_heap 1%positive 7 C_Sequential _ 7
              sample_heap_acyclic eq_refl sample_heap_boolean_flags (le_n 7))
    as (h1 & h2 & Heval & _ & Htrain & _ & Hback).
  exists h1. split; [exact Heval|].
  rewrite Htrain. f_equal. apply Hback. exact sample_heap_all_training.
Defined.

Lemma cyclic_heap_on_cycle : on_cycle cyclic_heap 1%positive.
Proof.
  eexists _, _. split; [reflexivity|].
  eapply in_dict; [right; left|].
  eapply in_tuple; [left|].
  eapply in_attrs; [reflexivity|].
  eapply in_dict; [right; left|].
  eapply in_self. reflexivity.
Qed.

(** X3 at a Sequential that holds a Residual around itself. *)
Lemma cyclic_ownership_exhausts_recursion_witness :
  module_in cyclic_heap (VRef 1%positive) 1%positive /\
  on_cycle cyclic_heap 1%positive /\
  parameters 1000 cyclic_heap 1%positive = None /\
  eval 1000 cyclic_heap 1%positive = None.
Proof.
  assert (Hin : module_in cyclic_heap (VRef 1%positive) 1%positive)
    by (eapply in_self; reflexivity).
  split; [exact Hin|]. split; [exact cyclic_heap_on_cycle|].
  destruct (Trees.cyclic_ownership_exhausts_recursion cyclic_heap 1%positive
              C_Sequential _ 1%positive 1000 eq_refl Hin cyclic_heap_on_cycle)
    as (Hpar & _ & Hmode).
  split; [exact Hpar|]. exact (proj2 (Hmode true eq_refl)).
Defined.

(** X4 at the sample tree: the root is not among its children. *)
Lemma children_are_the_modules_below_witness :
  acyclic sample_heap 7 (VRef 1%positive) /\
  exists ms,
    _children 7 sample_heap 1%positive = Some ms /\ 1%positive ∉ ms.
Proof.
  split; [exact sample_heap_acyclic|].
  destruct (Trees.children_are_the_modules_below sample_heap 1%positive 7
              C_Sequential _ sample_heap_acyclic eq_refl)
    as (ms & Hrun & _ & Hself).
  exists ms. split; [apply Hrun; lia|exact Hself].
Defined.

Lemma sample_layers_acyclic :
  Forall (fun l => acyclic sample_heap 6 (VRef l) /\
                   exists c attrs, sample_heap !! l = Some (OModule c attrs))
    [2; 4]%positive.
Proof.
  apply Forall_cons_2; [split; [acyclic_tac|by eexists _, _]|].
  apply Forall_cons_2; [split; [acyclic_tac|by eexists _, _]|].
  apply Forall_nil_2.
Qed.

(** X5 at a new Sequential over the Linear and the Dropout of the sample
    tree. *)
Lemma Sequential_parameters_concat_witness :
  sample_heap !! 20%positive = None /\
  is_Some (parameters 9 (Sequential.__init__ sample_heap 20%positive
                           [2; 4]%positive) 20%positive).
Proof.
  split; [reflexivity|].
  destruct (Trees.Sequential_parameters_concat sample_heap 20%positive
              [2; 4]%positive 6 eq_refl sample_layers_acyclic)
    as (pss & _ & Hrun & _).
  exists (concat pss). apply Hrun. lia.
Defined.

(** X6 at the sample GRU cell, one row, from the zero state. *)
Lemma GRUCell_forward_gates_witness :
  0 < GRUCell.input_size sample_gru_cell /\
  has_shape 1 1 [[1%Q]] /\
  has_shape 1 2
    (GRUCell.forward_from sample_gru_cell [[1%Q]] (zeros 1 2)).
Proof.
  assert (HX : has_shape 1 1 [[1%Q]])
    by (split; [reflexivity|repeat constructor]).
  split; [simpl; lia|]. split; [exact HX|].
  refine (proj1 (proj2 (proj2
    (Cells.GRUCell_forward_gates sample_gru_cell [[1%Q]] (zeros 1 2) 1
       _ _ _ _ _ HX _)))).
  - simpl; lia.
  - split; [reflexivity|repeat constructor].
  - split; [reflexivity|repeat constructor].
  - reflexivity.
  - reflexivity.
  - split; [reflexivity|repeat constructor].
Defined.

(** X7 at the sample RNN cell. *)
Lemma RNNCell_forward_entries_witness :
  0 < RNNCell.input_size sample_rnn_cell /\
  has_shape 1 1 [[1%Q]] /\
  has_shape 1 2
    (RNNCell.forward_from sample_rnn_cell [[1%Q]] (zeros 1 2)).
Proof.
  assert (HX : has_shape 1 1 [[1%Q]])
    by (split; [reflexivity|repeat constructor]).
  split; [simpl; lia|]. split; [exact HX|].
  refine (proj1
    (Cells.RNNCell_forward_entries sample_rnn_cell [[1%Q]] (zeros 1 2) 1
       _ _ _ _ _ HX _)).
  - simpl; lia.
  - split; [reflexivity|repeat constructor].
  - split; [reflexivity|repeat constructor].
  - reflexivity.
  - reflexivity.
  - split; [reflexivity|repeat constructor].
Defined.

(** X8 at two layers over the sample sequence. *)
Lemma top_layer_reads_the_stack_below_witness :
  0 < 1 /\
  RNN.forward (RNN.__init__ sample_rnn_cells 1 2 2) sample_sequence None
  = (let below :=
       RNN.forward (RNN.__init__ sample_rnn_cells 1 2 1) sample_sequence
         None in
     let top :=
       RNN.over_time (sample_rnn_cells 1 2) below.1 (zeros 1 2) in
     (top.1, below.2 ++ [top.2])).
Proof.
  split; [lia|].
  exact (proj1 (Stacks.top_layer_reads_the_stack_below sample_rnn_cells
                  sample_gru_cells sample_lstm_cells 1 2 1 sample_sequence
                  (Nat.lt_0_succ 0))).
Defined.





(** X10 at the sample batch. *)
Lemma LayerNorm1d_row_by_row_witness :
  has_shape 2 2 sample_batch /\
  exists y yr,
    LayerNorm1d.forward (LayerNorm1d.__init__ 2 (1 # 100000)) sample_batch
    = inr y /\
    y !! 1 = Some yr /\
    LayerNorm1d.forward (LayerNorm1d.__init__ 2 (1 # 100000)) [[3; 6]%Q]
    = inr [yr].
Proof.
  assert (HB : has_shape 2 2 sample_batch)
    by (split; [reflexivity|repeat constructor]).
  split; [exact HB|].
  destruct (Normalization.LayerNorm1d_row_by_row
              (LayerNorm1d.__init__ 2 (1 # 100000)) sample_batch 2 HB
              (Nat.lt_0_succ 1))
    as (y & Hy & _ & Hrows).
  destruct (Hrows 1 [3; 6]%Q eq_refl) as (yr & Hyr & Halone).
  exists y, yr. split; [exact Hy|]. split; [exact Hyr|exact Halone].
Defined.

(** X11 at the sample batch, the module in evaluation mode. *)
Lemma BatchNorm1d_eval_row_by_row_witness :
  BatchNorm1d.training sample_batchnorm_eval = false /\
  has_shape 2 (BatchNorm1d.dim sample_batchnorm_eval) sample_batch /\
  exists y,
    BatchNorm1d.forward sample_batchnorm_eval sample_batch
    = inr (sample_batchnorm_eval, y) /\
    length y = 2.
Proof.
  assert (HB : has_shape 2 (BatchNorm1d.dim sample_batchnorm_eval) sample_batch)
    by (split; [reflexivity|repeat constructor]).
  split; [reflexivity|]. split; [exact HB|].
  destruct (Normalization.BatchNorm1d_eval_row_by_row sample_batchnorm_eval
              sample_batch 2 eq_refl HB (Nat.lt_0_succ 1))
    as (y & Hy & Hlen & _).
  exists y. split; [exact Hy|exact Hlen].
Defined.

(** X12 at the empty dictionary. *)
Lemma add_word_keeps_numbering_witness :
  Dictionary.consistent Dictionary.__init__ /\
  exists d',
    Dictionary.add_word Dictionary.__init__ "the" = Some (0, d') /\
    Dictionary.consistent d'.
Proof.
  split; [exact TextFacts.initial_consistent|].
  destruct (TextFacts.add_word_keeps_numbering Dictionary.__init__ "the"
              TextFacts.initial_consistent)
    as (i & d' & Hadd & Hd' & _ & _ & _ & Hnew).
  destruct (Hnew eq_refl) as [-> _].
  exists d'. split; [exact Hadd|exact Hd'].
Defined.

(** X14 at the line "the cat" and the line "the cat ", each with its
    newline. *)
Lemma eos_joins_the_last_word_witness :
  let nl := String Corpus.newline EmptyString in
  Corpus.split (Corpus.replace_newline ("the " +:+ "cat" +:+ nl))
  = ["the"; "cat<eos>"] /\
  Corpus.split (Corpus.replace_newline ("the cat " +:+ EmptyString +:+ nl))
  = ["the"; "cat"; "<eos>"].
Proof.
  intros nl. split.
  - apply (TextFacts.eos_joins_the_last_word "the " "cat").
    + right. exists "the", (Ascii.ascii_of_nat 32). split; reflexivity.
    + repeat constructor; discriminate.
    + repeat constructor.
  - apply (TextFacts.eos_joins_the_last_word "the cat " EmptyString).
    + right. exists "the cat", (Ascii.ascii_of_nat 32). split; reflexivity.
    + repeat constructor; discriminate.
    + constructor.
Defined.


(** X16 at three rows of two. *)
Lemma get_batch_windows_witness :
  Forall (fun row : list nat => length row = 2) [[0; 3]; [1; 4]; [2; 5]] /\
  0 < 3 /\
  exists X Y,
    Batching.get_batch [[0; 3]; [1; 4]; [2; 5]] 0 5 = Some (X, Y) /\
    length X = 2 /\ length Y = 4.
Proof.
  assert (Hrows : Forall (fun row : list nat => length row = 2)
                    [[0; 3]; [1; 4]; [2; 5]]) by (repeat constructor).
  split; [exact Hrows|]. split; [lia|].
  destruct (BatchingFacts.get_batch_windows [[0; 3]; [1; 4]; [2; 5]] 3 2 0 5
              eq_refl Hrows (Nat.lt_0_succ 2))
    as (X & Y & Hrun & HX & HY & _).
  exists X, Y. split; [exact Hrun|]. split; [exact HX|exact HY].
Defined.


(** X18 at five samples in batches of two, the indices reversed by the
    shuffle. *)
Lemma DataLoader_pass_covers_dataset_witness :
  0 < 2 /\
  (forall ary : list nat, reverse ary ≡ₚ ary) /\
  exists dl bat,
    Data.__init__ [10; 11; 12; 13; 14] 2 true = Some dl /\
    Data.batches 7 reverse dl = Some bat /\
    concat bat ≡ₚ [10; 11; 12; 13; 14].
Proof.
  split; [lia|]. split; [exact reverse_Permutation|].
  destruct (LoaderFacts.DataLoader_pass_covers_dataset [10; 11; 12; 13; 14] 2
              true reverse (Nat.lt_0_succ 1) reverse_Permutation)
    as (dl & bat & Hdl & Hrun & _ & _ & Hperm & _).
  exists dl, bat. split; [exact Hdl|]. split; [apply Hrun; simpl; lia|].
  exact Hperm.
Defined.

(** X19 at four samples in batches of two. *)
Lemma DataLoader_exact_multiple_witness :
  0 < 2 /\
  length [10; 11; 12; 13] `mod` 2 = 0 /\
  exists dl,
    Data.__init__ [10; 11; 12; 13] 2 false = Some dl /\
    Data.batches 6 id dl = Some [[10; 11]; [12; 13]].
Proof.
  split; [lia|]. split; [reflexivity|].
  destruct (LoaderFacts.DataLoader_exact_multiple [10; 11; 12; 13] 2
              (Nat.lt_0_succ 1) eq_refl)
    as (dl & Hdl & Hrun & _).
  exists dl. split; [exact Hdl|].
  rewrite (Hrun 6 id) by (simpl; lia). reflexivity.
Defined.

Lemma sample_store_parameters :
  Forall (fun w => exists p, sample_store !! w = Some (OParameter p))
    [1; 2]%positive.
Proof.
  apply Forall_cons_2; [by eexists|].
  apply Forall_cons_2; [by eexists|]. apply Forall_nil_2.
Qed.

(** X21 at the sample store: the frozen Parameter 2 and its momentum entry
    are left alone. *)
Lemma SGD_step_skips_frozen_witness :
  length (SGD.u sample_sgd) = length (SGD.params sample_sgd) /\
  exists u' h',
    (SGD.step sample_sgd sample_store ≫= fun r => Some r.2) = Some h' /\
    length u' = 2 /\
    h' !! 2%positive = sample_store !! 2%positive /\
    u' !! 1 = Some (Optim.Num (F := Q) 0).
Proof.
  split; [reflexivity|].
  destruct (OptimFacts.SGD_step_skips_frozen sample_sgd sample_store
              sample_store_parameters eq_refl)
    as (u' & h' & Hrun & Hlen & Hgrad & _ & Hbuf).
  exists u', h'. split; [by rewrite Hrun|]. split; [exact Hlen|]. split.
  - destruct (Hgrad 2%positive _ eq_refl) as (p' & Hp' & _ & Hsame).
    rewrite (Hsame eq_refl) in Hp'. etrans; [exact Hp'|reflexivity].
  - rewrite (Hbuf 1 2%positive _ eq_refl eq_refl eq_refl). reflexivity.
Defined.

(** X22 at the sample store. *)
Lemma step_after_reset_grad_moves_nothing_witness :
  exists h0,
    Optim.reset_grad [1; 2]%positive sample_store = Some h0 /\
    SGD.step sample_sgd h0 = Some (sample_sgd, h0) /\
    (Adam.step sample_adam h0 ≫= fun r => Some (Adam.t_ r.1)) = Some 1%Z.
Proof.
  destruct (OptimFacts.step_after_reset_grad_moves_nothing sample_sgd
              sample_adam [1; 2]%positive sample_store
              sample_store_parameters eq_refl eq_refl)
    as (h0 & Hreset & _ & _ & Hsgd & Hadam).
  exists h0. split; [exact Hreset|]. split; [exact Hsgd|].
  rewrite Hadam. reflexivity.
Defined.

(** X23 at the sample store: the first step on Parameter 1, whose momentum
    entry is still the integer 0. *)
Lemma SGD_step_updates_each_parameter_alone_witness :
  NoDup (SGD.params sample_sgd) /\
  exists self' h',
    SGD.step sample_sgd sample_store = Some (self', h') /\
    SGD.u self' !! 0
    = Some (Optim.Ten
              (Optim.buffer_plus (Optim.buffer_scale (9 # 10) (Optim.Num 0))
                 (Optim.scale (1 - (9 # 10))
                    (tzip fadd (Vec [1; 1]%Q)
                       (Optim.scale 0 (Vec [1; 2]%Q)))))).
Proof.
  assert (Hnodup : NoDup (SGD.params sample_sgd)).
  { apply NoDup_cons. split; [|apply NoDup_singleton].
    intros Hmem. apply elem_of_cons in Hmem as [Heq|Hnil];
      [discriminate Heq|inversion Hnil]. }
  split; [exact Hnodup|].
  destruct (OptimFacts.SGD_step_updates_each_parameter_alone sample_sgd
              sample_store Hnodup sample_store_parameters eq_refl)
    as (self' & h' & Hrun & Hvalues).
  exists self', h'. split; [exact Hrun|].
  destruct (Hvalues 0 1%positive _ (Vec [1; 1]%Q) eq_refl eq_refl eq_refl)
    as (b & Hb & Hu & _).
  injection Hb as <-. exact Hu.
Defined.

(** X24 at the sample image, moved one column to the left. *)
Lemma RandomCrop_shifts_with_zero_fill_witness :
  (- 1 <= 1 <= 1)%Z /\ (- 1 <= 0 <= 1)%Z /\
  RandomCrop.__call__ 0 1 0 {| RandomCrop.padding := 1 |} sample_image
  = [[[2]; [3]; [0]]; [[5]; [6]; [0]]].
Proof.
  split; [lia|]. split; [lia|].
  rewrite (TransformFacts.RandomCrop_shifts_with_zero_fill
             {| RandomCrop.padding := 1 |} 0 1 0 sample_image 2 3 1).
  - reflexivity.
  - reflexivity.
  - repeat constructor.
  - lia.
  - lia.
  - simpl; lia.
  - simpl; lia.
Defined.

(** X25 at the sample image, with a draw below [p]. *)
Lemma RandomFlipHorizontal_mirrors_columns_witness :
  (0 <= 1 # 4)%Q /\ (1 # 4 < 1)%Q /\
  RandomFlipHorizontal.__call__ (1 # 4) {| RandomFlipHorizontal.p := 1 # 2 |}
    sample_image
  = [[[3]; [2]; [1]]; [[6]; [5]; [4]]].
Proof.
  assert (H0 : (0 <= 1 # 4)%Q) by (by vm_compute).
  assert (H1 : (1 # 4 < 1)%Q) by (by vm_compute).
  split; [exact H0|]. split; [exact H1|].
  destruct (TransformFacts.RandomFlipHorizontal_mirrors_columns
              {| RandomFlipHorizontal.p := 1 # 2 |} (1 # 4) sample_image H0 H1)
    as (_ & Hflip & _).
  rewrite Hflip; [reflexivity|by vm_compute].
Defined.

(** X26 at a 3x3 kernel moved in steps of two over a 5x5 input. *)
Lemma Conv_odd_kernel_strided_extent_witness :
  Conv.forward_shape (Conv.__init__ 3 8 (Conv.Int 3) (Conv.Int 2) true)
    [1; 3; 5; 5]%Z
  = [1; 8; 3; 3]%Z.
Proof.
  rewrite (ConvStrides.Conv_odd_kernel_strided_extent
             (Conv.__init__ 3 8 (Conv.Int 3) (Conv.Int 2) true) 1 3 5 5);
    [reflexivity|simpl; lia|simpl; lia|reflexivity|lia|lia].
Defined.

End Examples.
